(** * Parking game: physics, collision and level progression

    A shallow embedding of [ParkingGame] (delta-time variant with chamfered
    collision polygons and MTV bounce) and the properties of its physics and
    level manager.

    Numbers.  JavaScript numbers are modelled by the real numbers of the
    Standard Library: [Math.cos], [Math.sin], [Math.tan], [Math.sqrt] and
    [Math.PI] are [cos], [sin], [tan], [sqrt] and [PI]; rounding is not
    modelled.  The two places where the code starts a running minimum or
    maximum at [Infinity] / [-Infinity] use the type [num] of extended
    numbers below.  [Date.now()] is an input of every function that reads
    the clock. *)

From Stdlib Require Import Reals Lra Lia List Bool ZArith.
Import ListNotations.
Open Scope R_scope.

(** ** JavaScript numeric primitives *)

Definition Rltb (a b : R) : bool := if Rlt_dec a b then true else false.
Definition Rleb (a b : R) : bool := if Rle_dec a b then true else false.

(** [Math.hypot(a, b)] *)
Definition hypot (a b : R) : R := sqrt (a * a + b * b).

(** [v || 1] on a number: [1] when [v] is zero. *)
Definition or_one (v : R) : R := if Req_dec_T v 0 then 1 else v.

(** Truncation toward zero and the remainder [a % b] (sign of the dividend),
    for a non-zero divisor. *)
Definition Rtrunc (r : R) : Z :=
  if Rle_dec 0 r then Int_part r else (- Int_part (- r))%Z.

Definition js_rem (a b : R) : R := a - b * IZR (Rtrunc (a / b)).

(** Extended numbers: the values a running min/max can take. *)
Inductive num : Type :=
| Fin (r : R)
| PInf
| NInf
| NaN.

(** [a < b] *)
Definition num_lt (a b : num) : bool :=
  match a, b with
  | Fin x, Fin y => Rltb x y
  | Fin _, PInf => true
  | NInf, Fin _ => true
  | NInf, PInf => true
  | _, _ => false
  end.

(** [a <= b] *)
Definition num_le (a b : num) : bool :=
  match a, b with
  | Fin x, Fin y => Rleb x y
  | Fin _, PInf => true
  | NInf, Fin _ => true
  | NInf, PInf => true
  | PInf, PInf => true
  | NInf, NInf => true
  | _, _ => false
  end.

(** [Math.min(a, b)] *)
Definition num_min (a b : num) : num :=
  match a, b with
  | NaN, _ | _, NaN => NaN
  | NInf, _ | _, NInf => NInf
  | PInf, c | c, PInf => c
  | Fin x, Fin y => Fin (Rmin x y)
  end.

(** [Math.max(a, b)] *)
Definition num_max (a b : num) : num :=
  match a, b with
  | NaN, _ | _, NaN => NaN
  | PInf, _ | _, PInf => PInf
  | NInf, c | c, NInf => c
  | Fin x, Fin y => Fin (Rmax x y)
  end.

(** [a - b] *)
Definition num_sub (a b : num) : num :=
  match a, b with
  | NaN, _ | _, NaN => NaN
  | Fin x, Fin y => Fin (x - y)
  | PInf, PInf | NInf, NInf => NaN
  | PInf, _ => PInf
  | NInf, _ => NInf
  | Fin _, PInf => NInf
  | Fin _, NInf => PInf
  end.

(** ** Geometry kernel *)

Module Pt.
Record t : Type := mk { x : R; y : R }.
End Pt.

Definition polygon := list Pt.t.

Definition origin : Pt.t := Pt.mk 0 0.

(** The point transform shared by both polygon constructors:
    [{ x: cx + p.x * cos - p.y * sin, y: cy + p.x * sin + p.y * cos }]. *)
Definition place (cx cy angle : R) (p : Pt.t) : Pt.t :=
  Pt.mk (cx + Pt.x p * cos angle - Pt.y p * sin angle)
        (cy + Pt.x p * sin angle + Pt.y p * cos angle).

Definition getRectangleCorners (cx cy width height angle : R) : polygon :=
  let halfW := width / 2 in
  let halfH := height / 2 in
  let local :=
    [ Pt.mk (- halfW) (- halfH);
      Pt.mk halfW (- halfH);
      Pt.mk halfW halfH;
      Pt.mk (- halfW) halfH ] in
  map (place cx cy angle) local.

(** One loop iteration of [getAxes]: the normalised perpendicular of the
    edge from [p1] to [p2]. *)
Definition edgeAxis (p1 p2 : Pt.t) : Pt.t :=
  let edgeX := Pt.x p2 - Pt.x p1 in
  let edgeY := Pt.y p2 - Pt.y p1 in
  let axisX := - edgeY in
  let axisY := edgeX in
  let length := or_one (hypot axisX axisY) in
  Pt.mk (axisX / length) (axisY / length).

Definition getAxes (points : polygon) : list Pt.t :=
  map (fun i => edgeAxis (nth i points origin)
                         (nth ((i + 1) mod length points) points origin))
      (seq 0 (length points)).

Definition dot (p axis : Pt.t) : R := Pt.x p * Pt.x axis + Pt.y p * Pt.y axis.

(** Body of the loop of [projectPointsOnAxis]. *)
Definition projectStep (axis : Pt.t) (acc : num * num) (p : Pt.t) : num * num :=
  let projection := Fin (dot p axis) in
  let min := if num_lt projection (fst acc) then projection else fst acc in
  let max := if num_lt (snd acc) projection then projection else snd acc in
  (min, max).

Definition projectPointsOnAxis (points : polygon) (axis : Pt.t) : num * num :=
  fold_left (projectStep axis) points (PInf, NInf).

Definition getChamferedRectPolygon
    (cx cy width height angle insetX insetY : R) : polygon :=
  let halfW := width / 2 in
  let halfH := height / 2 in
  let ix := Rmin (Rmax insetX 0) (Rmax 0 (halfW - 1)) in
  let iy := Rmin (Rmax insetY 0) (Rmax 0 (halfH - 1)) in
  let local :=
    [ Pt.mk (- halfW + ix) (- halfH);
      Pt.mk (halfW - ix) (- halfH);
      Pt.mk halfW (- halfH + iy);
      Pt.mk halfW (halfH - iy);
      Pt.mk (halfW - ix) halfH;
      Pt.mk (- halfW + ix) halfH;
      Pt.mk (- halfW) (halfH - iy);
      Pt.mk (- halfW) (- halfH + iy) ] in
  map (place cx cy angle) local.

(** The separation test of one axis, shared by [rectangleCollision] and
    [polygonCollision]: [max1 < min2 || max2 < min1]. *)
Definition separatedOn (pointsA pointsB : polygon) (axis : Pt.t) : bool :=
  let '(minA, maxA) := projectPointsOnAxis pointsA axis in
  let '(minB, maxB) := projectPointsOnAxis pointsB axis in
  num_lt maxA minB || num_lt maxB minA.

Definition polygonCollision (pointsA pointsB : polygon) : bool :=
  let axes := getAxes pointsA ++ getAxes pointsB in
  forallb (fun axis => negb (separatedOn pointsA pointsB axis)) axes.

Definition rectangleCollision (x1 y1 w1 h1 a1 x2 y2 w2 h2 a2 : R) : bool :=
  let rect1 := getRectangleCorners x1 y1 w1 h1 a1 in
  let rect2 := getRectangleCorners x2 y2 w2 h2 a2 in
  let axes := getAxes rect1 ++ getAxes rect2 in
  forallb (fun axis => negb (separatedOn rect1 rect2 axis)) axes.

Definition getPolygonCenter (points : polygon) : Pt.t :=
  let sx := fold_left (fun s p => s + Pt.x p) points 0 in
  let sy := fold_left (fun s p => s + Pt.y p) points 0 in
  let inv := 1 / Rmax (INR (length points)) 1 in
  Pt.mk (sx * inv) (sy * inv).

(** [Math.min(maxA, maxB) - Math.max(minA, minB)] *)
Definition overlapOn (pointsA pointsB : polygon) (axis : Pt.t) : num :=
  let '(minA, maxA) := projectPointsOnAxis pointsA axis in
  let '(minB, maxB) := projectPointsOnAxis pointsB axis in
  num_sub (num_min maxA maxB) (num_max minA minB).

(** The axis flipped, if need be, to point from A to B. *)
Definition orient (centerA centerB axis : Pt.t) : Pt.t :=
  let delta := Pt.mk (Pt.x centerB - Pt.x centerA) (Pt.y centerB - Pt.y centerA) in
  let sign := if Rltb (Pt.x delta * Pt.x axis + Pt.y delta * Pt.y axis) 0 then -1 else 1 in
  Pt.mk (Pt.x axis * sign) (Pt.y axis * sign).

(** Result object of [polygonCollisionMTV]: [{ collides: false }] carries
    no vector. *)
Module Hit.
Record t : Type := mk { collides : bool; mtv : option Pt.t }.
End Hit.

(** The loop of [polygonCollisionMTV].  [best] holds the pair
    ([smallestOverlap], [separatingAxis]); [None] is the initial pair
    ([Infinity], [null]): the two variables are only ever assigned
    together.  An overlap that passes [overlap <= 0] and
    [overlap < smallestOverlap] is a finite number. *)
Fixpoint mtvLoop (pointsA pointsB : polygon) (centerA centerB : Pt.t)
    (axes : list Pt.t) (best : option (R * Pt.t)) : Hit.t :=
  match axes with
  | [] =>
      Hit.mk true
        (Some match best with
              | Some (smallestOverlap, separatingAxis) =>
                  Pt.mk (Pt.x separatingAxis * smallestOverlap)
                        (Pt.y separatingAxis * smallestOverlap)
              | None => Pt.mk 0 0
              end)
  | axis :: rest =>
      let overlap := overlapOn pointsA pointsB axis in
      if num_le overlap (Fin 0) then Hit.mk false None
      else
        match overlap with
        | Fin o =>
            let smaller :=
              match best with
              | Some (smallestOverlap, _) => Rltb o smallestOverlap
              | None => true
              end in
            if smaller
            then mtvLoop pointsA pointsB centerA centerB rest
                         (Some (o, orient centerA centerB axis))
            else mtvLoop pointsA pointsB centerA centerB rest best
        | _ => mtvLoop pointsA pointsB centerA centerB rest best
        end
  end.

Definition polygonCollisionMTV (pointsA pointsB : polygon) : Hit.t :=
  let axes := getAxes pointsA ++ getAxes pointsB in
  let centerA := getPolygonCenter pointsA in
  let centerB := getPolygonCenter pointsB in
  mtvLoop pointsA pointsB centerA centerB axes None.

(** Even-odd ray crossing.  The loop runs [i] over the indices with [j] the
    previous index, starting from the last. *)
Definition pointInPolygon (px py : R) (points : polygon) : bool :=
  fst (fold_left
         (fun (st : bool * nat) (i : nat) =>
            let '(inside, j) := st in
            let xi := Pt.x (nth i points origin) in
            let yi := Pt.y (nth i points origin) in
            let xj := Pt.x (nth j points origin) in
            let yj := Pt.y (nth j points origin) in
            let intersect :=
              xorb (Rltb py yi) (Rltb py yj) &&
              Rltb px ((xj - xi) * (py - yi) / (yj - yi + 1 / 1000000000000) + xi) in
            (if intersect then negb inside else inside, i))
         (seq 0 (length points))
         (false, (length points - 1)%nat)).

(** ** Game state *)

(** [this.car] *)
Module Car.
Record t : Type := mk {
  x : R;
  y : R;
  width : R;
  height : R;
  angle : R;
  speed : R;
  maxSpeed : R;
  acceleration : R;
  friction : R;
  steerAngle : R;
  maxSteerAngle : R;
  wheelbase : R;
  steerChangeRate : R;
  collisionInsetX : R;
  collisionInsetY : R;
  collided : bool;
  lastDirection : Z
}.
Definition set_x (v : R) (c : t) : t :=
  mk v (y c) (width c) (height c) (angle c) (speed c) (maxSpeed c)
     (acceleration c) (friction c) (steerAngle c) (maxSteerAngle c) (wheelbase c)
     (steerChangeRate c) (collisionInsetX c) (collisionInsetY c) (collided c)
     (lastDirection c).
Definition set_y (v : R) (c : t) : t :=
  mk (x c) v (width c) (height c) (angle c) (speed c) (maxSpeed c)
     (acceleration c) (friction c) (steerAngle c) (maxSteerAngle c) (wheelbase c)
     (steerChangeRate c) (collisionInsetX c) (collisionInsetY c) (collided c)
     (lastDirection c).
Definition set_angle (v : R) (c : t) : t :=
  mk (x c) (y c) (width c) (height c) v (speed c) (maxSpeed c) (acceleration
     c) (friction c) (steerAngle c) (maxSteerAngle c) (wheelbase c)
     (steerChangeRate c) (collisionInsetX c) (collisionInsetY c) (collided c)
     (lastDirection c).
Definition set_speed (v : R) (c : t) : t :=
  mk (x c) (y c) (width c) (height c) (angle c) v (maxSpeed c) (acceleration
     c) (friction c) (steerAngle c) (maxSteerAngle c) (wheelbase c)
     (steerChangeRate c) (collisionInsetX c) (collisionInsetY c) (collided c)
     (lastDirection c).
Definition set_steerAngle (v : R) (c : t) : t :=
  mk (x c) (y c) (width c) (height c) (angle c) (speed c) (maxSpeed c)
     (acceleration c) (friction c) v (maxSteerAngle c) (wheelbase c)
     (steerChangeRate c) (collisionInsetX c) (collisionInsetY c) (collided c)
     (lastDirection c).
Definition set_collided (v : bool) (c : t) : t :=
  mk (x c) (y c) (width c) (height c) (angle c) (speed c) (maxSpeed c)
     (acceleration c) (friction c) (steerAngle c) (maxSteerAngle c) (wheelbase c)
     (steerChangeRate c) (collisionInsetX c) (collisionInsetY c) v (lastDirection
     c).
Definition set_lastDirection (v : Z) (c : t) : t :=
  mk (x c) (y c) (width c) (height c) (angle c) (speed c) (maxSpeed c)
     (acceleration c) (friction c) (steerAngle c) (maxSteerAngle c) (wheelbase c)
     (steerChangeRate c) (collisionInsetX c) (collisionInsetY c) (collided c) v.
End Car.

(** An entry of [this.parkedCars]; the curb object of [checkCollisions] has
    the same shape with zero insets. *)
Module Npc.
Record t : Type := mk {
  x : R;
  y : R;
  width : R;
  height : R;
  angle : R;
  collisionInsetX : R;
  collisionInsetY : R
}.
Definition set_x (v : R) (c : t) : t :=
  mk v (y c) (width c) (height c) (angle c) (collisionInsetX c)
     (collisionInsetY c).
Definition set_y (v : R) (c : t) : t :=
  mk (x c) v (width c) (height c) (angle c) (collisionInsetX c)
     (collisionInsetY c).
End Npc.

(** [this.parkingSpace] *)
Module Space.
Record t : Type := mk {
  x : R;
  y : R;
  width : R;
  height : R
}.
Definition set_x (v : R) (c : t) : t :=
  mk v (y c) (width c) (height c).
Definition set_y (v : R) (c : t) : t :=
  mk (x c) v (width c) (height c).
Definition set_width (v : R) (c : t) : t :=
  mk (x c) (y c) v (height c).
End Space.

(** [this.keys] *)
Module Keys.
Record t : Type := mk {
  up : bool;
  down : bool;
  left : bool;
  right : bool
}.
Definition set_up (v : bool) (c : t) : t :=
  mk v (down c) (left c) (right c).
Definition set_down (v : bool) (c : t) : t :=
  mk (up c) v (left c) (right c).
Definition set_left (v : bool) (c : t) : t :=
  mk (up c) (down c) v (right c).
Definition set_right (v : bool) (c : t) : t :=
  mk (up c) (down c) (left c) v.
End Keys.

(** [this.lastCollision]: [{ type: "car", with }] or [{ type: "curb", with }]. *)
Inductive Contact : Type :=
| HitCar (parkedCar : Npc.t)
| HitCurb (curb : Npc.t).

(** The fields of [ParkingGame] that the physics and the level manager read
    or write.  [canvasWidth] and [canvasHeight] are [this.canvas.width] and
    [this.canvas.height]; [null] is [None]. *)
Module Game.
Record t : Type := mk {
  canvasWidth : R;
  canvasHeight : R;
  centerX : R;
  centerY : R;
  car : Car.t;
  keys : Keys.t;
  parkedCars : Npc.t * Npc.t;
  parkingSpace : Space.t;
  gapBetweenCars : R;
  minGap : R;
  gapStep : R;
  winCount : Z;
  winLatched : bool;
  curbWidth : R;
  curbHeight : R;
  curbOffsetY : R;
  laneGapFromCurb : R;
  isDragging : bool;
  dragOffsetX : R;
  dragOffsetY : R;
  winResetDelayMs : R;
  winResetAtMs : option R;
  collisionFlashDurationMs : R;
  collisionFlashUntilMs : R;
  collisionBounceSpeed : R;
  collisionBounceDurationMs : R;
  collisionBounceUntilMs : R;
  collisionBounceDir : Pt.t;
  collisionMTV : option Pt.t;
  debug : bool;
  lastCollision : option Contact;
  lastFrameAtMs : option R
}.
Definition set_car (v : Car.t) (c : t) : t :=
  mk (canvasWidth c) (canvasHeight c) (centerX c) (centerY c) v (keys c)
     (parkedCars c) (parkingSpace c) (gapBetweenCars c) (minGap c) (gapStep c)
     (winCount c) (winLatched c) (curbWidth c) (curbHeight c) (curbOffsetY c)
     (laneGapFromCurb c) (isDragging c) (dragOffsetX c) (dragOffsetY c)
     (winResetDelayMs c) (winResetAtMs c) (collisionFlashDurationMs c)
     (collisionFlashUntilMs c) (collisionBounceSpeed c)
     (collisionBounceDurationMs c) (collisionBounceUntilMs c) (collisionBounceDir
     c) (collisionMTV c) (debug c) (lastCollision c) (lastFrameAtMs c).
Definition set_keys (v : Keys.t) (c : t) : t :=
  mk (canvasWidth c) (canvasHeight c) (centerX c) (centerY c) (car c) v
     (parkedCars c) (parkingSpace c) (gapBetweenCars c) (minGap c) (gapStep c)
     (winCount c) (winLatched c) (curbWidth c) (curbHeight c) (curbOffsetY c)
     (laneGapFromCurb c) (isDragging c) (dragOffsetX c) (dragOffsetY c)
     (winResetDelayMs c) (winResetAtMs c) (collisionFlashDurationMs c)
     (collisionFlashUntilMs c) (collisionBounceSpeed c)
     (collisionBounceDurationMs c) (collisionBounceUntilMs c) (collisionBounceDir
     c) (collisionMTV c) (debug c) (lastCollision c) (lastFrameAtMs c).
Definition set_parkedCars (v : Npc.t * Npc.t) (c : t) : t :=
  mk (canvasWidth c) (canvasHeight c) (centerX c) (centerY c) (car c) (keys c)
     v (parkingSpace c) (gapBetweenCars c) (minGap c) (gapStep c) (winCount c)
     (winLatched c) (curbWidth c) (curbHeight c) (curbOffsetY c) (laneGapFromCurb
     c) (isDragging c) (dragOffsetX c) (dragOffsetY c) (winResetDelayMs c)
     (winResetAtMs c) (collisionFlashDurationMs c) (collisionFlashUntilMs c)
     (collisionBounceSpeed c) (collisionBounceDurationMs c)
     (collisionBounceUntilMs c) (collisionBounceDir c) (collisionMTV c) (debug c)
     (lastCollision c) (lastFrameAtMs c).
Definition set_parkingSpace (v : Space.t) (c : t) : t :=
  mk (canvasWidth c) (canvasHeight c) (centerX c) (centerY c) (car c) (keys c)
     (parkedCars c) v (gapBetweenCars c) (minGap c) (gapStep c) (winCount c)
     (winLatched c) (curbWidth c) (curbHeight c) (curbOffsetY c) (laneGapFromCurb
     c) (isDragging c) (dragOffsetX c) (dragOffsetY c) (winResetDelayMs c)
     (winResetAtMs c) (collisionFlashDurationMs c) (collisionFlashUntilMs c)
     (collisionBounceSpeed c) (collisionBounceDurationMs c)
     (collisionBounceUntilMs c) (collisionBounceDir c) (collisionMTV c) (debug c)
     (lastCollision c) (lastFrameAtMs c).
Definition set_gapBetweenCars (v : R) (c : t) : t :=
  mk (canvasWidth c) (canvasHeight c) (centerX c) (centerY c) (car c) (keys c)
     (parkedCars c) (parkingSpace c) v (minGap c) (gapStep c) (winCount c)
     (winLatched c) (curbWidth c) (curbHeight c) (curbOffsetY c) (laneGapFromCurb
     c) (isDragging c) (dragOffsetX c) (dragOffsetY c) (winResetDelayMs c)
     (winResetAtMs c) (collisionFlashDurationMs c) (collisionFlashUntilMs c)
     (collisionBounceSpeed c) (collisionBounceDurationMs c)
     (collisionBounceUntilMs c) (collisionBounceDir c) (collisionMTV c) (debug c)
     (lastCollision c) (lastFrameAtMs c).
Definition set_winCount (v : Z) (c : t) : t :=
  mk (canvasWidth c) (canvasHeight c) (centerX c) (centerY c) (car c) (keys c)
     (parkedCars c) (parkingSpace c) (gapBetweenCars c) (minGap c) (gapStep c) v
     (winLatched c) (curbWidth c) (curbHeight c) (curbOffsetY c) (laneGapFromCurb
     c) (isDragging c) (dragOffsetX c) (dragOffsetY c) (winResetDelayMs c)
     (winResetAtMs c) (collisionFlashDurationMs c) (collisionFlashUntilMs c)
     (collisionBounceSpeed c) (collisionBounceDurationMs c)
     (collisionBounceUntilMs c) (collisionBounceDir c) (collisionMTV c) (debug c)
     (lastCollision c) (lastFrameAtMs c).
Definition set_winLatched (v : bool) (c : t) : t :=
  mk (canvasWidth c) (canvasHeight c) (centerX c) (centerY c) (car c) (keys c)
     (parkedCars c) (parkingSpace c) (gapBetweenCars c) (minGap c) (gapStep c)
     (winCount c) v (curbWidth c) (curbHeight c) (curbOffsetY c) (laneGapFromCurb
     c) (isDragging c) (dragOffsetX c) (dragOffsetY c) (winResetDelayMs c)
     (winResetAtMs c) (collisionFlashDurationMs c) (collisionFlashUntilMs c)
     (collisionBounceSpeed c) (collisionBounceDurationMs c)
     (collisionBounceUntilMs c) (collisionBounceDir c) (collisionMTV c) (debug c)
     (lastCollision c) (lastFrameAtMs c).
Definition set_isDragging (v : bool) (c : t) : t :=
  mk (canvasWidth c) (canvasHeight c) (centerX c) (centerY c) (car c) (keys c)
     (parkedCars c) (parkingSpace c) (gapBetweenCars c) (minGap c) (gapStep c)
     (winCount c) (winLatched c) (curbWidth c) (curbHeight c) (curbOffsetY c)
     (laneGapFromCurb c) v (dragOffsetX c) (dragOffsetY c) (winResetDelayMs c)
     (winResetAtMs c) (collisionFlashDurationMs c) (collisionFlashUntilMs c)
     (collisionBounceSpeed c) (collisionBounceDurationMs c)
     (collisionBounceUntilMs c) (collisionBounceDir c) (collisionMTV c) (debug c)
     (lastCollision c) (lastFrameAtMs c).
Definition set_dragOffsetX (v : R) (c : t) : t :=
  mk (canvasWidth c) (canvasHeight c) (centerX c) (centerY c) (car c) (keys c)
     (parkedCars c) (parkingSpace c) (gapBetweenCars c) (minGap c) (gapStep c)
     (winCount c) (winLatched c) (curbWidth c) (curbHeight c) (curbOffsetY c)
     (laneGapFromCurb c) (isDragging c) v (dragOffsetY c) (winResetDelayMs c)
     (winResetAtMs c) (collisionFlashDurationMs c) (collisionFlashUntilMs c)
     (collisionBounceSpeed c) (collisionBounceDurationMs c)
     (collisionBounceUntilMs c) (collisionBounceDir c) (collisionMTV c) (debug c)
     (lastCollision c) (lastFrameAtMs c).
Definition set_dragOffsetY (v : R) (c : t) : t :=
  mk (canvasWidth c) (canvasHeight c) (centerX c) (centerY c) (car c) (keys c)
     (parkedCars c) (parkingSpace c) (gapBetweenCars c) (minGap c) (gapStep c)
     (winCount c) (winLatched c) (curbWidth c) (curbHeight c) (curbOffsetY c)
     (laneGapFromCurb c) (isDragging c) (dragOffsetX c) v (winResetDelayMs c)
     (winResetAtMs c) (collisionFlashDurationMs c) (collisionFlashUntilMs c)
     (collisionBounceSpeed c) (collisionBounceDurationMs c)
     (collisionBounceUntilMs c) (collisionBounceDir c) (collisionMTV c) (debug c)
     (lastCollision c) (lastFrameAtMs c).
Definition set_winResetAtMs (v : option R) (c : t) : t :=
  mk (canvasWidth c) (canvasHeight c) (centerX c) (centerY c) (car c) (keys c)
     (parkedCars c) (parkingSpace c) (gapBetweenCars c) (minGap c) (gapStep c)
     (winCount c) (winLatched c) (curbWidth c) (curbHeight c) (curbOffsetY c)
     (laneGapFromCurb c) (isDragging c) (dragOffsetX c) (dragOffsetY c)
     (winResetDelayMs c) v (collisionFlashDurationMs c) (collisionFlashUntilMs c)
     (collisionBounceSpeed c) (collisionBounceDurationMs c)
     (collisionBounceUntilMs c) (collisionBounceDir c) (collisionMTV c) (debug c)
     (lastCollision c) (lastFrameAtMs c).
Definition set_collisionFlashUntilMs (v : R) (c : t) : t :=
  mk (canvasWidth c) (canvasHeight c) (centerX c) (centerY c) (car c) (keys c)
     (parkedCars c) (parkingSpace c) (gapBetweenCars c) (minGap c) (gapStep c)
     (winCount c) (winLatched c) (curbWidth c) (curbHeight c) (curbOffsetY c)
     (laneGapFromCurb c) (isDragging c) (dragOffsetX c) (dragOffsetY c)
     (winResetDelayMs c) (winResetAtMs c) (collisionFlashDurationMs c) v
     (collisionBounceSpeed c) (collisionBounceDurationMs c)
     (collisionBounceUntilMs c) (collisionBounceDir c) (collisionMTV c) (debug c)
     (lastCollision c) (lastFrameAtMs c).
Definition set_collisionBounceUntilMs (v : R) (c : t) : t :=
  mk (canvasWidth c) (canvasHeight c) (centerX c) (centerY c) (car c) (keys c)
     (parkedCars c) (parkingSpace c) (gapBetweenCars c) (minGap c) (gapStep c)
     (winCount c) (winLatched c) (curbWidth c) (curbHeight c) (curbOffsetY c)
     (laneGapFromCurb c) (isDragging c) (dragOffsetX c) (dragOffsetY c)
     (winResetDelayMs c) (winResetAtMs c) (collisionFlashDurationMs c)
     (collisionFlashUntilMs c) (collisionBounceSpeed c)
     (collisionBounceDurationMs c) v (collisionBounceDir c) (collisionMTV c)
     (debug c) (lastCollision c) (lastFrameAtMs c).
Definition set_collisionBounceDir (v : Pt.t) (c : t) : t :=
  mk (canvasWidth c) (canvasHeight c) (centerX c) (centerY c) (car c) (keys c)
     (parkedCars c) (parkingSpace c) (gapBetweenCars c) (minGap c) (gapStep c)
     (winCount c) (winLatched c) (curbWidth c) (curbHeight c) (curbOffsetY c)
     (laneGapFromCurb c) (isDragging c) (dragOffsetX c) (dragOffsetY c)
     (winResetDelayMs c) (winResetAtMs c) (collisionFlashDurationMs c)
     (collisionFlashUntilMs c) (collisionBounceSpeed c)
     (collisionBounceDurationMs c) (collisionBounceUntilMs c) v (collisionMTV c)
     (debug c) (lastCollision c) (lastFrameAtMs c).
Definition set_collisionMTV (v : option Pt.t) (c : t) : t :=
  mk (canvasWidth c) (canvasHeight c) (centerX c) (centerY c) (car c) (keys c)
     (parkedCars c) (parkingSpace c) (gapBetweenCars c) (minGap c) (gapStep c)
     (winCount c) (winLatched c) (curbWidth c) (curbHeight c) (curbOffsetY c)
     (laneGapFromCurb c) (isDragging c) (dragOffsetX c) (dragOffsetY c)
     (winResetDelayMs c) (winResetAtMs c) (collisionFlashDurationMs c)
     (collisionFlashUntilMs c) (collisionBounceSpeed c)
     (collisionBounceDurationMs c) (collisionBounceUntilMs c) (collisionBounceDir
     c) v (debug c) (lastCollision c) (lastFrameAtMs c).
Definition set_debug (v : bool) (c : t) : t :=
  mk (canvasWidth c) (canvasHeight c) (centerX c) (centerY c) (car c) (keys c)
     (parkedCars c) (parkingSpace c) (gapBetweenCars c) (minGap c) (gapStep c)
     (winCount c) (winLatched c) (curbWidth c) (curbHeight c) (curbOffsetY c)
     (laneGapFromCurb c) (isDragging c) (dragOffsetX c) (dragOffsetY c)
     (winResetDelayMs c) (winResetAtMs c) (collisionFlashDurationMs c)
     (collisionFlashUntilMs c) (collisionBounceSpeed c)
     (collisionBounceDurationMs c) (collisionBounceUntilMs c) (collisionBounceDir
     c) (collisionMTV c) v (lastCollision c) (lastFrameAtMs c).
Definition set_lastCollision (v : option Contact) (c : t) : t :=
  mk (canvasWidth c) (canvasHeight c) (centerX c) (centerY c) (car c) (keys c)
     (parkedCars c) (parkingSpace c) (gapBetweenCars c) (minGap c) (gapStep c)
     (winCount c) (winLatched c) (curbWidth c) (curbHeight c) (curbOffsetY c)
     (laneGapFromCurb c) (isDragging c) (dragOffsetX c) (dragOffsetY c)
     (winResetDelayMs c) (winResetAtMs c) (collisionFlashDurationMs c)
     (collisionFlashUntilMs c) (collisionBounceSpeed c)
     (collisionBounceDurationMs c) (collisionBounceUntilMs c) (collisionBounceDir
     c) (collisionMTV c) (debug c) v (lastFrameAtMs c).
Definition set_lastFrameAtMs (v : option R) (c : t) : t :=
  mk (canvasWidth c) (canvasHeight c) (centerX c) (centerY c) (car c) (keys c)
     (parkedCars c) (parkingSpace c) (gapBetweenCars c) (minGap c) (gapStep c)
     (winCount c) (winLatched c) (curbWidth c) (curbHeight c) (curbOffsetY c)
     (laneGapFromCurb c) (isDragging c) (dragOffsetX c) (dragOffsetY c)
     (winResetDelayMs c) (winResetAtMs c) (collisionFlashDurationMs c)
     (collisionFlashUntilMs c) (collisionBounceSpeed c)
     (collisionBounceDurationMs c) (collisionBounceUntilMs c) (collisionBounceDir
     c) (collisionMTV c) (debug c) (lastCollision c) v.
End Game.

(** [this.parkedCars] is an array literal of two entries whose length never
    changes; it is the pair of its entries, iterated in order. *)
Definition parkedCarList (g : Game.t) : list Npc.t :=
  [fst (Game.parkedCars g); snd (Game.parkedCars g)].

(** ** Layout *)

Definition recomputeParkingLayout (g : Game.t) : Game.t :=
  let curbTop := Game.centerY g + Game.curbOffsetY g in
  let laneY :=
    curbTop - Game.laneGapFromCurb g - Space.height (Game.parkingSpace g) / 2 in
  let space := Space.set_y laneY (Space.set_x (Game.centerX g) (Game.parkingSpace g)) in
  let centerX := Space.x space in
  let carWidth := Npc.width (fst (Game.parkedCars g)) in
  let offset := (Game.gapBetweenCars g + carWidth) / 2 in
  let npcCenterY := laneY in
  let car0 := Npc.set_y npcCenterY (Npc.set_x (centerX - offset) (fst (Game.parkedCars g))) in
  let car1 := Npc.set_y npcCenterY (Npc.set_x (centerX + offset) (snd (Game.parkedCars g))) in
  Game.set_parkingSpace (Space.set_width (Game.gapBetweenCars g) space)
    (Game.set_parkedCars (car0, car1) g).

Definition setInitialCarPosition (g : Game.t) : Game.t :=
  let c := Game.car g in
  let curbTop := Game.centerY g + Game.curbOffsetY g in
  let laneYInit := curbTop - Game.laneGapFromCurb g - Car.height c - 50 in
  let c := Car.set_x (Game.centerX g - (Game.gapBetweenCars g / 2 + Car.width c) - 100) c in
  let c := Car.set_y laneYInit c in
  let c := Car.set_speed 0 c in
  let c := Car.set_steerAngle 0 c in
  let c := Car.set_lastDirection 1%Z c in
  let c := Car.set_angle 0 c in
  Game.set_car c g.

(** The object literal [this.car] of the constructor. *)
Definition initialCar : Car.t :=
  {| Car.x := 100;
     Car.y := 300;
     Car.width := 90;
     Car.height := 45;
     Car.angle := 0;
     Car.speed := 0;
     Car.maxSpeed := 360;
     Car.acceleration := 100;
     Car.friction := 300;
     Car.steerAngle := 0;
     Car.maxSteerAngle := PI / 6;
     Car.wheelbase := 70;
     Car.steerChangeRate := 8 / 10;
     Car.collisionInsetX := 8;
     Car.collisionInsetY := 6;
     Car.collided := false;
     Car.lastDirection := 1%Z |}.

(** The constructor, for a canvas of the given size: the field
    initialisers, then [setInitialCarPosition()] and
    [recomputeParkingLayout()]. *)
Definition newGame (canvasWidth canvasHeight : R) : Game.t :=
  let centerX := canvasWidth / 2 in
  let centerY := canvasHeight / 2 in
  let g :=
    {| Game.canvasWidth := canvasWidth;
       Game.canvasHeight := canvasHeight;
       Game.centerX := centerX;
       Game.centerY := centerY;
       Game.car := initialCar;
       Game.keys := Keys.mk false false false false;
       Game.parkedCars :=
         (Npc.mk (centerX - 120) centerY 90 45 0 8 6,
          Npc.mk (centerX + 120) centerY 90 45 0 8 6);
       Game.parkingSpace := Space.mk centerX centerY 150 60;
       Game.gapBetweenCars := 200;
       Game.minGap := 60;
       Game.gapStep := 20;
       Game.winCount := 0%Z;
       Game.winLatched := false;
       Game.curbWidth := canvasWidth;
       Game.curbHeight := 30;
       Game.curbOffsetY := 160;
       Game.laneGapFromCurb := 10;
       Game.isDragging := false;
       Game.dragOffsetX := 0;
       Game.dragOffsetY := 0;
       Game.winResetDelayMs := 1200;
       Game.winResetAtMs := None;
       Game.collisionFlashDurationMs := 120;
       Game.collisionFlashUntilMs := 0;
       Game.collisionBounceSpeed := 220;
       Game.collisionBounceDurationMs := 140;
       Game.collisionBounceUntilMs := 0;
       Game.collisionBounceDir := Pt.mk 0 0;
       Game.collisionMTV := None;
       Game.debug := false;
       Game.lastCollision := None;
       Game.lastFrameAtMs := None |} in
  recomputeParkingLayout (setInitialCarPosition g).

(** ** Collision resolver *)

(** The player's footprint; [inset || 0] is the inset itself on a number. *)
Definition playerPolygon (c : Car.t) : polygon :=
  getChamferedRectPolygon (Car.x c) (Car.y c) (Car.width c) (Car.height c)
    (Car.angle c) (Car.collisionInsetX c) (Car.collisionInsetY c).

Definition npcPolygon (p : Npc.t) : polygon :=
  getChamferedRectPolygon (Npc.x p) (Npc.y p) (Npc.width p) (Npc.height p)
    (Npc.angle p) (Npc.collisionInsetX p) (Npc.collisionInsetY p).

Definition curbOf (g : Game.t) : Npc.t :=
  Npc.mk (Game.centerX g)
         (Game.centerY g + Game.curbOffsetY g + Game.curbHeight g / 2)
         (Game.curbWidth g) (Game.curbHeight g) 0 0 0.

Definition curbPolygon (g : Game.t) : polygon :=
  let curb := curbOf g in
  getRectangleCorners (Npc.x curb) (Npc.y curb) (Npc.width curb)
    (Npc.height curb) (Npc.angle curb).

(** The [for (let parkedCar of this.parkedCars)] loop: the first parked car
    the player collides with, and the vector of that result. *)
Fixpoint firstParkedHit (playerPoly : polygon) (cars : list Npc.t)
    : option (Npc.t * option Pt.t) :=
  match cars with
  | [] => None
  | parkedCar :: rest =>
      let result := polygonCollisionMTV playerPoly (npcPolygon parkedCar) in
      if Hit.collides result then Some (parkedCar, Hit.mtv result)
      else firstParkedHit playerPoly rest
  end.

Definition checkCollisions (g : Game.t) : bool * Game.t :=
  let playerPoly := playerPolygon (Game.car g) in
  match firstParkedHit playerPoly (parkedCarList g) with
  | Some (parkedCar, mtv) =>
      (true, Game.set_collisionMTV mtv
               (Game.set_lastCollision (Some (HitCar parkedCar)) g))
  | None =>
      let result := polygonCollisionMTV playerPoly (curbPolygon g) in
      if Hit.collides result
      then (true, Game.set_collisionMTV (Hit.mtv result)
                    (Game.set_lastCollision (Some (HitCurb (curbOf g))) g))
      else (false, g)
  end.

(** ** Vehicle kinematics: the blocks of [updateCar] *)

(** Handle acceleration *)
Definition accelerate (dtSeconds : R) (keys : Keys.t) (c : Car.t) : Car.t :=
  if Keys.up keys then
    Car.set_speed
      (Rmin (Car.speed c + Car.acceleration c * dtSeconds) (Car.maxSpeed c))
      (Car.set_lastDirection 1%Z c)
  else if Keys.down keys then
    Car.set_speed
      (Rmax (Car.speed c - Car.acceleration c * dtSeconds) (- Car.maxSpeed c))
      (Car.set_lastDirection (-1)%Z c)
  else if Rltb 0 (Car.speed c) then
    Car.set_speed (Rmax 0 (Car.speed c - Car.friction c * dtSeconds)) c
  else if Rltb (Car.speed c) 0 then
    Car.set_speed (Rmin 0 (Car.speed c + Car.friction c * dtSeconds)) c
  else c.

(** Handle steering *)
Definition steer (dtSeconds : R) (keys : Keys.t) (c : Car.t) : Car.t :=
  if Keys.left keys then
    Car.set_steerAngle
      (Rmax (Car.steerAngle c - Car.steerChangeRate c * dtSeconds)
            (- Car.maxSteerAngle c)) c
  else if Keys.right keys then
    Car.set_steerAngle
      (Rmin (Car.steerAngle c + Car.steerChangeRate c * dtSeconds)
            (Car.maxSteerAngle c)) c
  else c.

(** Calculate turning radius and update car angle (only when moving) *)
Definition turn (dtSeconds : R) (c : Car.t) : Car.t :=
  if Rltb (5 / 100) (Rabs (Car.speed c)) && Rltb (1 / 100) (Rabs (Car.steerAngle c))
  then
    let turnRadius := Car.wheelbase c / tan (Rabs (Car.steerAngle c)) in
    let angularVelocity := Car.speed c / turnRadius in
    if Rltb 0 (Car.steerAngle c)
    then Car.set_angle (Car.angle c + angularVelocity * dtSeconds) c
    else Car.set_angle (Car.angle c - angularVelocity * dtSeconds) c
  else c.

(** Update position *)
Definition advance (dtSeconds : R) (c : Car.t) : Car.t :=
  let c := Car.set_x (Car.x c + cos (Car.angle c) * Car.speed c * dtSeconds) c in
  Car.set_y (Car.y c + sin (Car.angle c) * Car.speed c * dtSeconds) c.

(** [Math.max(45, Math.min(limit - 45, v))] *)
Definition clamp45 (limit v : R) : R := Rmax 45 (Rmin (limit - 45) v).

(** Rollback and bounce set-up of the branch taken when [checkCollisions]
    returns true; [nowFlash] and [now] are its two clock readings. *)
Definition onCollision (prevX prevY nowFlash now : R) (g : Game.t) : Game.t :=
  let c := Game.car g in
  let c := Car.set_collided true (Car.set_speed 0 (Car.set_y prevY (Car.set_x prevX c))) in
  let g := Game.set_car c g in
  let g := Game.set_collisionFlashUntilMs (nowFlash + Game.collisionFlashDurationMs g) g in
  let dir :=
    match Game.collisionMTV g with
    | Some mtv =>
        let len := or_one (hypot (Pt.x mtv) (Pt.y mtv)) in
        Pt.mk (- Pt.x mtv / len) (- Pt.y mtv / len)
    | None => Pt.mk (- cos (Car.angle c)) (- sin (Car.angle c))
    end in
  let g := Game.set_collisionBounceDir dir g in
  Game.set_collisionBounceUntilMs (now + Game.collisionBounceDurationMs g) g.

(** Horizontal wrap and vertical clamp *)
Definition wrapAndClamp (g : Game.t) : Game.t :=
  let c := Game.car g in
  let halfW := Car.width c / 2 in
  let c :=
    if Rltb (Car.x c) (- halfW) then Car.set_x (Game.canvasWidth g + halfW) c
    else if Rltb (Game.canvasWidth g + halfW) (Car.x c) then Car.set_x (- halfW) c
    else c in
  Game.set_car (Car.set_y (clamp45 (Game.canvasHeight g) (Car.y c)) c) g.

(** The distance [v] the bounce impulse moves the car in this tick. *)
Definition bounceTravel (dtSeconds now : R) (g : Game.t) : R :=
  let remaining := Game.collisionBounceUntilMs g - now in
  let t := Rmax 0 (Rmin 1 (remaining / Game.collisionBounceDurationMs g)) in
  let scale := t * t in
  Game.collisionBounceSpeed g * scale * dtSeconds.

(** Apply bounce-back impulse if active (ease-out) *)
Definition applyBounce (dtSeconds now : R) (g : Game.t) : Game.t :=
  if Rltb now (Game.collisionBounceUntilMs g) then
    let v := bounceTravel dtSeconds now g in
    let c := Game.car g in
    let c := Car.set_x (Car.x c + Pt.x (Game.collisionBounceDir g) * v) c in
    let c := Car.set_y (Car.y c + Pt.y (Game.collisionBounceDir g) * v) c in
    let halfW2 := Car.width c / 2 in
    let c := if Rltb (Car.x c) (- halfW2)
             then Car.set_x (Game.canvasWidth g + halfW2) c else c in
    let c := if Rltb (Game.canvasWidth g + halfW2) (Car.x c)
             then Car.set_x (- halfW2) c else c in
    Game.set_car (Car.set_y (clamp45 (Game.canvasHeight g) (Car.y c)) c) g
  else g.

(** The state just before [this.checkCollisions()] is called: controls,
    heading and position update applied to the car. *)
Definition integrate (dtSeconds : R) (g : Game.t) : Game.t :=
  let c := turn dtSeconds
             (steer dtSeconds (Game.keys g)
                (accelerate dtSeconds (Game.keys g) (Game.car g))) in
  Game.set_car (advance dtSeconds c) g.

(** "Check collisions": the call of [checkCollisions] on the moved car and
    the two branches on its result. *)
Definition resolveCollision (prevX prevY nowFlash nowHit : R) (g : Game.t) : Game.t :=
  let '(hit, g1) := checkCollisions g in
  if hit then onCollision prevX prevY nowFlash nowHit g1
  else Game.set_car (Car.set_collided false (Game.car g1)) g1.

(** [updateCar(dtSeconds)]; [nowFlash], [nowHit] and [nowBounce] are the
    readings of its three [Date.now()] calls, in order. *)
Definition updateCar (dtSeconds nowFlash nowHit nowBounce : R) (g : Game.t) : Game.t :=
  match Game.winResetAtMs g with
  | Some _ => Game.set_car (Car.set_speed 0 (Game.car g)) g
  | None =>
      if Game.isDragging g then
        let c := Car.set_speed 0 (Game.car g) in
        let c := Car.set_x (clamp45 (Game.canvasWidth g) (Car.x c)) c in
        let c := Car.set_y (clamp45 (Game.canvasHeight g) (Car.y c)) c in
        Game.set_car (Car.set_collided false c) g
      else
        let prevX := Car.x (Game.car g) in
        let prevY := Car.y (Game.car g) in
        let g := resolveCollision prevX prevY nowFlash nowHit (integrate dtSeconds g) in
        applyBounce dtSeconds nowBounce (wrapAndClamp g)
  end.

(** ** Level manager *)

Definition inSpace (g : Game.t) : bool :=
  let c := Game.car g in
  let s := Game.parkingSpace g in
  Rltb (Space.x s - Space.width s / 2) (Car.x c) &&
  Rltb (Car.x c) (Space.x s + Space.width s / 2) &&
  Rltb (Space.y s - Space.height s / 2) (Car.y c) &&
  Rltb (Car.y c) (Space.y s + Space.height s / 2).

Definition wellAligned (g : Game.t) : bool :=
  let angle := Car.angle (Game.car g) in
  Rltb (Rabs (js_rem angle (PI * 2))) (2 / 10) ||
  Rltb (Rabs (js_rem angle (PI * 2) - PI * 2)) (2 / 10).

(** The condition of the [if] of [checkParking]. *)
Definition winCondition (g : Game.t) : bool :=
  inSpace g && wellAligned g && Rltb (Rabs (Car.speed (Game.car g))) (1 / 10).

(** The body of "Handle win delay timer": progress to the next level. *)
Definition nextLevel (g : Game.t) : Game.t :=
  let g := Game.set_winCount (Game.winCount g + 1)%Z g in
  let g := Game.set_gapBetweenCars
             (Rmax (Game.minGap g) (Game.gapBetweenCars g - Game.gapStep g)) g in
  let g := recomputeParkingLayout g in
  let g := setInitialCarPosition g in
  let g := Game.set_winResetAtMs None g in
  Game.set_winLatched false g.

(** The latch part of [checkParking]; [now] is the reading used to
    schedule the reset. *)
Definition latchWin (now : R) (g : Game.t) : Game.t :=
  if winCondition g then
    if negb (Game.winLatched g) then
      Game.set_winResetAtMs (Some (now + Game.winResetDelayMs g))
        (Game.set_winLatched true g)
    else g
  else
    match Game.winResetAtMs g with
    | None => Game.set_winLatched false g
    | Some _ => g
    end.

(** [checkParking()]; drawing left out.  [nowLatch] and [nowTimer] are the
    readings of its two [Date.now()] calls. *)
Definition checkParking (nowLatch nowTimer : R) (g : Game.t) : Game.t :=
  let g := latchWin nowLatch g in
  match Game.winResetAtMs g with
  | Some resetAt => if Rleb resetAt nowTimer then nextLevel g else g
  | None => g
  end.

(** ** Session driver *)

(** The clock readings of one animation frame, in call order. *)
Module Clock.
Record t : Type := mk {
  flash : R; hit : R; bounce : R; latch : R; timer : R
}.
End Clock.

(** [gameLoop(timestampMs)] for a numeric timestamp: [updateCar], then
    [render], whose only effect on the state is [checkParking]. *)
Definition frameDelta (timestampMs : R) (g : Game.t) : R :=
  let last := match Game.lastFrameAtMs g with
              | None => timestampMs
              | Some l => l
              end in
  let dtSeconds := (timestampMs - last) / 1000 in
  Rmax 0 (Rmin dtSeconds (5 / 100)).

Definition gameLoop (timestampMs : R) (k : Clock.t) (g : Game.t) : Game.t :=
  let dtSeconds := frameDelta timestampMs g in
  let g := Game.set_lastFrameAtMs (Some timestampMs) g in
  let g := updateCar dtSeconds (Clock.flash k) (Clock.hit k) (Clock.bounce k) g in
  checkParking (Clock.latch k) (Clock.timer k) g.

Inductive KeyCode : Type := ArrowUp | ArrowDown | ArrowLeft | ArrowRight | KeyD | OtherKey.

Definition keydown (code : KeyCode) (g : Game.t) : Game.t :=
  match code with
  | ArrowUp => Game.set_keys (Keys.set_up true (Game.keys g)) g
  | ArrowDown => Game.set_keys (Keys.set_down true (Game.keys g)) g
  | ArrowLeft => Game.set_keys (Keys.set_left true (Game.keys g)) g
  | ArrowRight => Game.set_keys (Keys.set_right true (Game.keys g)) g
  | KeyD => Game.set_debug (negb (Game.debug g)) g
  | OtherKey => g
  end.

Definition keyup (code : KeyCode) (g : Game.t) : Game.t :=
  match code with
  | ArrowUp => Game.set_keys (Keys.set_up false (Game.keys g)) g
  | ArrowDown => Game.set_keys (Keys.set_down false (Game.keys g)) g
  | ArrowLeft => Game.set_keys (Keys.set_left false (Game.keys g)) g
  | ArrowRight => Game.set_keys (Keys.set_right false (Game.keys g)) g
  | _ => g
  end.

Definition isPointerOnCar (px py : R) (g : Game.t) : bool :=
  pointInPolygon px py (playerPolygon (Game.car g)).

(** The mouse handlers, on the canvas coordinates [getMousePos] returns. *)
Definition mousedown (x y : R) (g : Game.t) : Game.t :=
  if isPointerOnCar x y g then
    let g := Game.set_isDragging true g in
    let g := Game.set_dragOffsetX (Car.x (Game.car g) - x) g in
    let g := Game.set_dragOffsetY (Car.y (Game.car g) - y) g in
    Game.set_car (Car.set_speed 0 (Game.car g)) g
  else g.

Definition mousemove (x y : R) (g : Game.t) : Game.t :=
  if negb (Game.isDragging g) then g
  else
    let c := Game.car g in
    let c := Car.set_x (clamp45 (Game.canvasWidth g) (x + Game.dragOffsetX g)) c in
    let c := Car.set_y (clamp45 (Game.canvasHeight g) (y + Game.dragOffsetY g)) c in
    Game.set_car (Car.set_collided false c) g.

Definition endDrag (g : Game.t) : Game.t := Game.set_isDragging false g.

(** The slider's input handler; [value] is [Number(slider.value)]. *)
Definition sliderInput (value : R) (g : Game.t) : Game.t :=
  recomputeParkingLayout (Game.set_gapBetweenCars value g).

(** One handler run.  The range input has [min = 60], [max = 360]. *)
Inductive step : Game.t -> Game.t -> Prop :=
| step_frame timestampMs k g : step g (gameLoop timestampMs k g)
| step_keydown code g : step g (keydown code g)
| step_keyup code g : step g (keyup code g)
| step_mousedown x y g : step g (mousedown x y g)
| step_mousemove x y g : step g (mousemove x y g)
| step_endDrag g : step g (endDrag g)
| step_slider value g :
    60 <= value <= 360 -> step g (sliderInput value g).

(** The states the game can be in on a canvas of the given size. *)
Inductive reachable (canvasWidth canvasHeight : R) : Game.t -> Prop :=
| reach_new : reachable canvasWidth canvasHeight (newGame canvasWidth canvasHeight)
| reach_step g g' :
    reachable canvasWidth canvasHeight g -> step g g' ->
    reachable canvasWidth canvasHeight g'.

(** ** Turning radius, car factory and turning guide *)

(** [getTurningRadius()]; [null] is [None]. *)
Definition getTurningRadius (g : Game.t) : option R :=
  let c := Game.car g in
  if Rltb (Rabs (Car.steerAngle c)) (1 / 100) then None
  else Some (Car.wheelbase c / tan (Rabs (Car.steerAngle c))).

(** [a || b] on numbers: [b] when [a] is zero. *)
Definition orElse (a b : R) : R := if Req_dec_T a 0 then b else a.

(** [Math.round]: the nearest integer, halves rounded up. *)
Definition Rround (x : R) : R := IZR (Int_part (x + 1 / 2)).

(** The size fields of an image element. *)
Module Image.
Record t := mk { naturalWidth : R; width : R; naturalHeight : R; height : R }.
End Image.

(** The options of [createNpcCar]; [None] is a property left out. *)
Module NpcOptions.
Record t := mk {
  longSidePx : option R;
  angle : option R;
  collisionInsetX : option R;
  collisionInsetY : option R
}.
End NpcOptions.

(** A destructuring default: the value given, or [d] when left out. *)
Definition withDefault (o : option R) (d : R) : R :=
  match o with Some v => v | None => d end.

(** [createNpcCar(image, centerX, centerY, options)]; [image] is [None] for
    [null].  The [image] field of the result is left out. *)
Definition createNpcCar (image : option Image.t) (centerX centerY : R)
    (options : NpcOptions.t) : Npc.t :=
  let longSidePx := withDefault (NpcOptions.longSidePx options) 90 in
  let angle := withDefault (NpcOptions.angle options) 0 in
  let collisionInsetX := withDefault (NpcOptions.collisionInsetX options) 8 in
  let collisionInsetY := withDefault (NpcOptions.collisionInsetY options) 6 in
  let iw :=
    match image with
    | Some i => orElse (orElse (Image.naturalWidth i) (Image.width i)) 1
    | None => 1
    end in
  let ih :=
    match image with
    | Some i => orElse (orElse (Image.naturalHeight i) (Image.height i)) 1
    | None => 1
    end in
  let '(width, height) :=
    if Rleb ih iw
    then (longSidePx, Rmax 1 (Rround (longSidePx * ih / iw)))
    else (longSidePx, Rmax 1 (Rround (longSidePx * iw / ih))) in
  Npc.mk centerX centerY width height angle collisionInsetX collisionInsetY.

(** The path stroked by [drawTurningArc]: a segment or a full circle. *)
Inductive Guide : Type :=
| GuideLine (from to : Pt.t)
| GuideCircle (center : Pt.t) (radius : R).

(** The point near the front bumper where the guide is anchored. *)
Definition guideAnchor (c : Car.t) : Pt.t :=
  let halfW := Car.width c / 2 in
  let anchorOffset := halfW - 8 in
  Pt.mk (Car.x c + cos (Car.angle c) * anchorOffset)
        (Car.y c + sin (Car.angle c) * anchorOffset).

(** The geometry of [drawTurningArc()], with [turningGuideFadeRadius] 220. *)
Definition turningGuide (g : Game.t) : Guide :=
  let c := Game.car g in
  let straight :=
    let anchor := guideAnchor c in
    let straightHalfLen := 220 in
    let dx := cos (Car.angle c) * straightHalfLen in
    let dy := sin (Car.angle c) * straightHalfLen in
    GuideLine (Pt.mk (Pt.x anchor - dx) (Pt.y anchor - dy))
              (Pt.mk (Pt.x anchor + dx) (Pt.y anchor + dy)) in
  match getTurningRadius g with
  | None => straight
  | Some radius =>
      if Req_dec_T radius 0 then straight
      else if Rltb (Rabs (Car.steerAngle c)) (1 / 100) then straight
      else
        let anchor := guideAnchor c in
        let halfW := Car.width c / 2 in
        let anchorOffset := halfW - 8 in
        let sFromRearToCenter := Car.wheelbase c / 2 in
        let sFromCenterToAnchor := anchorOffset in
        let sFromRearToAnchor := sFromRearToCenter + sFromCenterToAnchor in
        let anchorRadius := hypot radius sFromRearToAnchor in
        let perpAngle :=
          Car.angle c + (if Rltb 0 (Car.steerAngle c) then PI / 2 else - PI / 2) in
        GuideCircle (Pt.mk (Pt.x anchor + cos perpAngle * anchorRadius)
                           (Pt.y anchor + sin perpAngle * anchorRadius))
                    anchorRadius
  end.

(** ** Vocabulary of the properties *)

(** A car moved to another position, everything else kept. *)
Definition moved (x y : R) (c : Car.t) : Car.t := Car.set_y y (Car.set_x x c).

(** The car's constants, as the constructor sets them. *)
Definition configured (c : Car.t) : Prop :=
  Car.maxSpeed c = 360 /\ Car.acceleration c = 100 /\ Car.friction c = 300 /\
  Car.maxSteerAngle c = PI / 6 /\ Car.steerChangeRate c = 8 / 10.

(** Steer angle and speed within their limits. *)
Definition bounded (c : Car.t) : Prop :=
  Rabs (Car.steerAngle c) <= Car.maxSteerAngle c /\
  Rabs (Car.speed c) <= Car.maxSpeed c.

(** The gap is at least the minimum gap. *)
Definition gapFloor (g : Game.t) : Prop :=
  Game.minGap g = 60 /\ Game.gapStep g = 20 /\
  Game.minGap g <= Game.gapBetweenCars g.

(** A pending reset implies the latch. *)
Definition latchSound (g : Game.t) : Prop :=
  Game.winResetAtMs g <> None -> Game.winLatched g = true.

(** What every handler preserves. *)
Record Inv (g : Game.t) : Prop := mkInv {
  inv_config : configured (Game.car g);
  inv_bounded : bounded (Game.car g);
  inv_gap : gapFloor g;
  inv_latch : latchSound g
}.

(** The state after [n] further level transitions. *)
Definition afterWins (n : nat) (g : Game.t) : Game.t := Nat.iter n nextLevel g.

(** A car at rest in the middle of the parking space, facing backwards. *)
Definition parkedBackwards : Game.t :=
  let g := newGame 800 600 in
  Game.set_car
    (Car.set_angle PI
       (moved (Space.x (Game.parkingSpace g)) (Space.y (Game.parkingSpace g))
          (Game.car g))) g.

(** The change of heading made by the heading update of one tick. *)
Definition headingChange (dt : R) (c : Car.t) : R :=
  Car.angle (turn dt c) - Car.angle c.

(** The player's car steering right at half a radian, at the given speed. *)
Definition steeringRight (speed : R) : Car.t :=
  Car.set_speed speed (Car.set_steerAngle (1 / 2) initialCar).

(** The horizontal wrap as a relation between the position before and after. *)
Definition wraps (W halfW before after : R) : Prop :=
  (before < - halfW -> after = W + halfW) /\
  (W + halfW < before -> after = - halfW) /\
  (- halfW <= before <= W + halfW -> after = before).

(** The vector returned for a final value of the loop's pair. *)
Definition mtvOf (best : option (R * Pt.t)) : Pt.t :=
  match best with
  | Some (smallestOverlap, separatingAxis) =>
      Pt.mk (Pt.x separatingAxis * smallestOverlap)
            (Pt.y separatingAxis * smallestOverlap)
  | None => Pt.mk 0 0
  end.

(** The sums of the vertex coordinates. *)
Definition sumX (points : polygon) : R := fold_right (fun p s => Pt.x p + s) 0 points.

Definition sumY (points : polygon) : R := fold_right (fun p s => Pt.y p + s) 0 points.

(** [axis] is the axis [getAxes] computes for some edge of the polygon, from
    vertex [i] to the next one: perpendicular to the edge, and of length 1
    unless the edge has length zero, when it is the zero vector. *)
Definition edgeNormal (points : polygon) (axis : Pt.t) : Prop :=
  exists i, (i < length points)%nat /\
    let p1 := nth i points origin in
    let p2 := nth ((i + 1) mod length points) points origin in
    axis = edgeAxis p1 p2 /\
    (Pt.x p2 - Pt.x p1) * Pt.x axis + (Pt.y p2 - Pt.y p1) * Pt.y axis = 0 /\
    (Pt.x axis * Pt.x axis + Pt.y axis * Pt.y axis = 1 \/
     axis = origin /\ Pt.x p1 = Pt.x p2 /\ Pt.y p1 = Pt.y p2).

(** [m] and [M] are the least and the greatest of the dot products of the
    vertices with [axis]: both bound every vertex and both are attained at
    a vertex. *)
Definition extent (points : polygon) (axis : Pt.t) (m M : R) : Prop :=
  (forall q, In q points -> m <= dot q axis <= M) /\
  (exists q, In q points /\ dot q axis = m) /\
  (exists q, In q points /\ dot q axis = M).

(** The bounce direction armed by a collision: away from the obstacle along
    the stored vector, or against the heading without one. *)
Definition bounceDirOf (mtv : option Pt.t) (angle : R) : Pt.t :=
  match mtv with
  | Some mtv =>
      let len := or_one (hypot (Pt.x mtv) (Pt.y mtv)) in
      Pt.mk (- Pt.x mtv / len) (- Pt.y mtv / len)
  | None => Pt.mk (- cos angle) (- sin angle)
  end.

(** The footprint of a 90 by 45 car with insets 8 and 6 at (255, 420),
    heading 0: where the constructor's layout puts the first parked car on
    an 800 by 600 canvas. *)
Definition oct : polygon :=
  [Pt.mk 218 (795 / 2); Pt.mk 292 (795 / 2); Pt.mk 300 (807 / 2);
   Pt.mk 300 (873 / 2); Pt.mk 292 (885 / 2); Pt.mk 218 (885 / 2);
   Pt.mk 210 (873 / 2); Pt.mk 210 (807 / 2)].

(** The axes of its eight edges. *)
Definition octAxes : list Pt.t :=
  [Pt.mk 0 1; Pt.mk (-3 / 5) (4 / 5); Pt.mk (-1) 0; Pt.mk (-3 / 5) (-4 / 5);
   Pt.mk 0 (-1); Pt.mk (3 / 5) (-4 / 5); Pt.mk 1 0; Pt.mk (3 / 5) (4 / 5)].

(** The game on an 800 by 600 canvas after the player's car has been dragged
    onto the first parked car and released: at rest, no key held. *)
Definition onParkedCar : Game.t :=
  Game.set_car (moved 255 420 initialCar) (newGame 800 600).

(** A rectangle's corners with every corner doubled, in the order of the
    chamfered polygon. *)
Definition doubled (r0 r1 r2 r3 : Pt.t) : polygon :=
  [r0; r1; r1; r2; r2; r3; r3; r0].

(** The axis-parallel square of side 2 centred at ([x], 0). *)
Definition square (x : R) : polygon := getRectangleCorners x 0 2 2 0.

(** The axes of its four edges. *)
Definition squareAxes : list Pt.t :=
  [Pt.mk 0 1; Pt.mk (-1) 0; Pt.mk 0 (-1); Pt.mk 1 0].

(** ** Vocabulary of the further properties *)

(** The convex hull of a vertex list: the vertices and every point between
    two points of the hull. *)
Inductive hull (points : polygon) : Pt.t -> Prop :=
| hull_vertex p : In p points -> hull points p
| hull_between p q t :
    hull points p -> hull points q -> 0 <= t <= 1 ->
    hull points (Pt.mk ((1 - t) * Pt.x p + t * Pt.x q)
                       ((1 - t) * Pt.y p + t * Pt.y q)).

(** What no event changes: the canvas, the lane geometry and the tuning
    constants of the game, and the dimensions of the player's car. *)
Definition fixture (g : Game.t) : list R :=
  [Game.canvasWidth g; Game.canvasHeight g; Game.centerX g; Game.centerY g;
   Game.curbWidth g; Game.curbHeight g; Game.curbOffsetY g;
   Game.laneGapFromCurb g; Game.winResetDelayMs g;
   Game.collisionFlashDurationMs g; Game.collisionBounceSpeed g;
   Game.collisionBounceDurationMs g].

(** The dimensions of a car that no event changes. *)
Definition build (c : Car.t) : list R :=
  [Car.width c; Car.height c; Car.wheelbase c;
   Car.collisionInsetX c; Car.collisionInsetY c].

(** The lane: the two parked cars, the target space and the gap. *)
Definition layout (g : Game.t) : (Npc.t * Npc.t) * Space.t * R :=
  (Game.parkedCars g, Game.parkingSpace g, Game.gapBetweenCars g).

(** The lane the layout code draws on a [W] by [H] canvas for a given gap. *)
Definition laneFor (W H gap : R) : (Npc.t * Npc.t) * Space.t * R :=
  ((Npc.mk (W / 2 - (gap + 90) / 2) (H / 2 + 120) 90 45 0 8 6,
    Npc.mk (W / 2 + (gap + 90) / 2) (H / 2 + 120) 90 45 0 8 6),
   Space.mk (W / 2) (H / 2 + 120) gap 60,
   gap).

(** The state has the fixtures of a [W] by [H] canvas, the 90 by 45 car and
    the lane of its gap. *)
Definition laidOut (W H : R) (g : Game.t) : Prop :=
  fixture g = [W; H; W / 2; H / 2; W; 30; 160; 10; 1200; 120; 220; 140] /\
  build (Game.car g) = [90; 45; 70; 8; 6] /\
  layout g = laneFor W H (Game.gapBetweenCars g).

(** The obstacle recorded in [lastCollision]. *)
Definition obstacle (k : Contact) : Npc.t :=
  match k with HitCar parkedCar => parkedCar | HitCurb curb => curb end.

(** Distance between two points. *)
Definition dist (p q : Pt.t) : R := hypot (Pt.x q - Pt.x p) (Pt.y q - Pt.y p).

(** The rectangle test on the full boxes of the player's car and an obstacle. *)
Definition boxesCollide (c : Car.t) (p : Npc.t) : bool :=
  rectangleCollision (Car.x c) (Car.y c) (Car.width c) (Car.height c) (Car.angle c)
    (Npc.x p) (Npc.y p) (Npc.width p) (Npc.height p) (Npc.angle p).

(** The car after the throttle, friction and steering input of a tick,
    before the heading update. *)
Definition driven (dt : R) (g : Game.t) : Car.t :=
  steer dt (Game.keys g) (accelerate dt (Game.keys g) (Game.car g)).

(** The image turned by a quarter: widths and heights exchanged. *)
Definition transposed (i : Image.t) : Image.t :=
  Image.mk (Image.naturalHeight i) (Image.height i)
           (Image.naturalWidth i) (Image.width i).

(** The initial game after the car was dragged by its centre to the middle
    of the target space and released. *)
Definition droppedInSpace : Game.t :=
  endDrag (mousemove 400 420 (mousedown 110 355 (newGame 800 600))).

(** The band the boundary handling keeps the car's centre in: half a car
    beyond the left and right edges, 45 pixels inside the top and bottom. *)
Definition onCanvas (W H : R) (c : Car.t) : Prop :=
  -45 <= Car.x c <= W + 45 /\ 45 <= Car.y c <= H - 45.

(** The footprint of a 90 by 45 car with insets 8 and 6 at heading 0. *)
Definition footprint (x y : R) : polygon := getChamferedRectPolygon x y 90 45 0 8 6.

(** The initial game with the gap set to 60 by the slider and the car then
    dragged by its centre to the middle of the target space and released. *)
Definition squeezedIn : Game.t :=
  endDrag (mousemove 400 420 (mousedown 110 355 (sliderInput 60 (newGame 800 600)))).

(** A polygon moved by the vector [t]. *)
Definition translate (t : Pt.t) (points : polygon) : polygon :=
  map (fun p => Pt.mk (Pt.x p + Pt.x t) (Pt.y p + Pt.y t)) points.

(** ** Basic facts *)

Lemma Rltb_true (a b : R) : Rltb a b = true <-> a < b.
Proof. unfold Rltb; destruct (Rlt_dec a b); split; intros; try easy. Qed.

Lemma Rltb_false (a b : R) : Rltb a b = false <-> b <= a.
Proof.
  unfold Rltb; destruct (Rlt_dec a b); split; intros; try easy; lra.
Qed.

Lemma Rleb_true (a b : R) : Rleb a b = true <-> a <= b.
Proof. unfold Rleb; destruct (Rle_dec a b); split; intros; try easy. Qed.

Lemma Rleb_false (a b : R) : Rleb a b = false <-> b < a.
Proof.
  unfold Rleb; destruct (Rle_dec a b); split; intros; try easy; lra.
Qed.

(** Case analysis on the comparisons of the goal. *)
Ltac cases_cmp :=
  repeat match goal with
         | |- context [Rltb ?a ?b] =>
             let E := fresh "E" in
             destruct (Rltb a b) eqn:E;
             [apply Rltb_true in E | apply Rltb_false in E]
         | |- context [Rleb ?a ?b] =>
             let E := fresh "E" in
             destruct (Rleb a b) eqn:E;
             [apply Rleb_true in E | apply Rleb_false in E]
         end.

(** What [checkCollisions] leaves of the state: it writes only
    [lastCollision] and [collisionMTV]. *)
Lemma checkCollisions_state (g : Game.t) :
  exists m l,
    snd (checkCollisions g) = Game.set_collisionMTV m (Game.set_lastCollision l g).
Proof.
  unfold checkCollisions.
  destruct (firstParkedHit _ _) as [[p m]|].
  - now exists m, (Some (HitCar p)).
  - destruct (Hit.collides _).
    + now eexists _, _.
    + exists (Game.collisionMTV g), (Game.lastCollision g). now destruct g.
Qed.

Lemma checkCollisions_car (g : Game.t) :
  Game.car (snd (checkCollisions g)) = Game.car g.
Proof. destruct (checkCollisions_state g) as (m & l & ->). reflexivity. Qed.

Lemma Rabs_bound (a b : R) : Rabs a <= b <-> - b <= a <= b.
Proof. unfold Rabs; destruct (Rcase_abs a); lra. Qed.

(** Case analysis on every [Rmin] and [Rmax] of the goal and context. *)
Ltac split_min a b :=
  let H := fresh "Hle" in
  destruct (Rle_dec a b) as [H|H];
  [rewrite (Rmin_left a b H) in *
  |apply Rnot_le_lt, Rlt_le in H; rewrite (Rmin_right a b H) in *].

Ltac split_max a b :=
  let H := fresh "Hle" in
  destruct (Rle_dec a b) as [H|H];
  [rewrite (Rmax_right a b H) in *
  |apply Rnot_le_lt, Rlt_le in H; rewrite (Rmax_left a b H) in *].

Ltac split_minmax :=
  repeat match goal with
         | |- context [Rmin ?a ?b] => split_min a b
         | |- context [Rmax ?a ?b] => split_max a b
         | _ : context [Rmin ?a ?b] |- _ => split_min a b
         | _ : context [Rmax ?a ?b] |- _ => split_max a b
         end.

Lemma moved_same (c : Car.t) : c = moved (Car.x c) (Car.y c) c.
Proof. now destruct c. Qed.

Lemma set_car_same (g : Game.t) : g = Game.set_car (Game.car g) g.
Proof. now destruct g. Qed.

Lemma wrapAndClamp_moved (g : Game.t) :
  exists x y, wrapAndClamp g = Game.set_car (moved x y (Game.car g)) g.
Proof.
  unfold wrapAndClamp.
  destruct (Rltb _ _); [|destruct (Rltb _ _)]; eexists _, _; reflexivity.
Qed.

Lemma applyBounce_moved (dt now : R) (g : Game.t) :
  exists x y, applyBounce dt now g = Game.set_car (moved x y (Game.car g)) g.
Proof.
  unfold applyBounce.
  destruct (Rltb now _).
  - cbv zeta. destruct (Rltb _ _); destruct (Rltb _ _); eexists _, _; reflexivity.
  - exists (Car.x (Game.car g)), (Car.y (Game.car g)).
    rewrite <- moved_same. apply set_car_same.
Qed.

(** The two shapes of the state after the collision check: rolled back and
    stopped with the bounce armed, or only [collided] cleared. *)
Lemma resolveCollision_state (prevX prevY n1 n2 : R) (g : Game.t) :
  exists m l,
    let g1 := Game.set_collisionMTV m (Game.set_lastCollision l g) in
    snd (checkCollisions g) = g1 /\
    resolveCollision prevX prevY n1 n2 g =
      if fst (checkCollisions g)
      then onCollision prevX prevY n1 n2 g1
      else Game.set_car (Car.set_collided false (Game.car g)) g1.
Proof.
  destruct (checkCollisions_state g) as (m & l & Hs).
  exists m, l. split; [exact Hs|].
  unfold resolveCollision. destruct (checkCollisions g) as [hit g1].
  cbn [fst snd] in *. now subst g1.
Qed.

(** ** Invariants of the reachable states *)

Section Kinematics.

Variable dt : R.
Hypothesis dt_nonneg : 0 <= dt.

Lemma accelerate_bounded keys c :
  configured c -> bounded c ->
  configured (accelerate dt keys c) /\ bounded (accelerate dt keys c).
Proof.
  intros (Hm & Ha & Hf & Hs & Hr) (Hb1 & Hb2).
  unfold accelerate, configured, bounded.
  destruct (Keys.up keys); [|destruct (Keys.down keys)]; cases_cmp; cbn;
    rewrite ?Hm, ?Ha, ?Hf, ?Hs, ?Hr in *; repeat split; try assumption; try lra.
  all: rewrite ?Hm, ?Ha, ?Hf in Hb2.
  all: apply Rabs_bound; apply Rabs_bound in Hb2; split_minmax; nra.
Qed.

Lemma steer_bounded keys c :
  configured c -> bounded c ->
  configured (steer dt keys c) /\ bounded (steer dt keys c).
Proof.
  intros (Hm & Ha & Hf & Hs & Hr) (Hb1 & Hb2).
  assert (HPI := PI_RGT_0).
  unfold steer, configured, bounded.
  destruct (Keys.left keys); [|destruct (Keys.right keys)]; cbn;
    rewrite ?Hm, ?Ha, ?Hf, ?Hs, ?Hr in *; repeat split; try assumption; try lra.
  all: apply Rabs_bound; apply Rabs_bound in Hb1; split_minmax; nra.
Qed.

Lemma turn_bounded c :
  configured c -> bounded c -> configured (turn dt c) /\ bounded (turn dt c).
Proof.
  intros Hc Hb. unfold turn.
  destruct (_ && _); [destruct (Rltb _ _)|]; now split.
Qed.

Lemma integrate_car g :
  configured (Game.car g) -> bounded (Game.car g) ->
  configured (Game.car (integrate dt g)) /\ bounded (Game.car (integrate dt g)).
Proof.
  intros Hc Hb. unfold integrate.
  destruct (accelerate_bounded (Game.keys g) _ Hc Hb) as [Hc1 Hb1].
  destruct (steer_bounded (Game.keys g) _ Hc1 Hb1) as [Hc2 Hb2].
  destruct (turn_bounded _ Hc2 Hb2) as [Hc3 Hb3].
  now split.
Qed.

End Kinematics.

Lemma frameDelta_range (t : R) (g : Game.t) : 0 <= frameDelta t g <= 5 / 100.
Proof. unfold frameDelta. split_minmax; lra. Qed.

Lemma zero_bounded (c : Car.t) (v : R) :
  configured c -> Car.speed c = 0 -> Car.steerAngle c = v ->
  Rabs v <= Car.maxSteerAngle c -> bounded c.
Proof.
  intros (Hm & _) Hs Ha Hv. split.
  - now rewrite Ha.
  - rewrite Hs, Hm, Rabs_R0. lra.
Qed.

Lemma pi6_nonneg : 0 <= PI / 6.
Proof. assert (H := PI_RGT_0). lra. Qed.

Lemma reset_bounded (c : Car.t) :
  configured c -> Car.speed c = 0 -> Car.steerAngle c = 0 -> bounded c.
Proof.
  intros Hc Hs Ha. eapply zero_bounded; eauto.
  destruct Hc as (_ & _ & _ & -> & _). rewrite Rabs_R0. apply pi6_nonneg.
Qed.

Ltac inv_side Hb Hl Hw :=
  try assumption;
  try (unfold latchSound in *; cbn; rewrite ?Hw in *; exact Hl);
  try (eapply zero_bounded; cbn; eauto; apply Hb).

Lemma updateCar_inv (dt n1 n2 n3 : R) (g : Game.t) :
  0 <= dt -> Inv g -> Inv (updateCar dt n1 n2 n3 g).
Proof.
  intros Hdt [Hc Hb Hg Hl].
  destruct (integrate_car dt Hdt g Hc Hb) as [Hc1 Hb1].
  unfold updateCar.
  destruct (Game.winResetAtMs g) eqn:Hw.
  - constructor; inv_side Hb Hl Hw.
  - destruct (Game.isDragging g).
    + constructor; inv_side Hb Hl Hw.
    + cbv zeta.
      destruct (resolveCollision_state (Car.x (Game.car g)) (Car.y (Game.car g))
                  n1 n2 (integrate dt g)) as (m & l & _ & ->).
      match goal with
      | |- Inv (applyBounce _ _ (wrapAndClamp ?g2)) => set (G2 := g2)
      end.
      destruct (wrapAndClamp_moved G2) as (x1 & y1 & ->).
      destruct (applyBounce_moved dt n3
                  (Game.set_car (moved x1 y1 (Game.car G2)) G2)) as (x2 & y2 & ->).
      subst G2. destruct (fst (checkCollisions (integrate dt g)));
        constructor; inv_side Hb1 Hl Hw.
Qed.

Lemma nextLevel_inv (g : Game.t) : Inv g -> Inv (nextLevel g).
Proof.
  intros [Hc Hb (Hmin & Hstep & Hgap) Hl].
  constructor.
  - exact Hc.
  - now apply reset_bounded.
  - repeat split; try assumption. cbn. apply Rmax_l.
  - intros H. now contradiction H.
Qed.

Lemma latchWin_inv (now : R) (g : Game.t) : Inv g -> Inv (latchWin now g).
Proof.
  intros [Hc Hb Hg Hl]. unfold latchWin.
  destruct (winCondition g); [destruct (Game.winLatched g) eqn:Hw|
                              destruct (Game.winResetAtMs g) eqn:Hr];
    cbn [negb]; constructor; try assumption;
    unfold latchSound; cbn; intros; try reflexivity; congruence.
Qed.

Lemma checkParking_inv (n1 n2 : R) (g : Game.t) : Inv g -> Inv (checkParking n1 n2 g).
Proof.
  intros H. apply (latchWin_inv n1) in H. unfold checkParking.
  destruct (Game.winResetAtMs _); [destruct (Rleb _ _)|]; auto using nextLevel_inv.
Qed.

Lemma newGame_inv (W H : R) : Inv (newGame W H).
Proof.
  constructor.
  - repeat split.
  - apply reset_bounded; repeat split.
  - repeat split. cbn. lra.
  - intros H0. now contradiction H0.
Qed.

Lemma step_inv (g g' : Game.t) : step g g' -> Inv g -> Inv g'.
Proof.
  intros Hs Hi. destruct Hs.
  - unfold gameLoop. apply checkParking_inv, updateCar_inv.
    + apply frameDelta_range.
    + destruct Hi; now constructor.
  - destruct Hi; destruct code; now constructor.
  - destruct Hi; destruct code; now constructor.
  - unfold mousedown. destruct (isPointerOnCar x y g); [|assumption].
    destruct Hi as [Hc Hb Hg Hl]. constructor; try assumption.
    eapply zero_bounded; cbn; eauto. apply Hb.
  - unfold mousemove. destruct (negb _); [assumption|].
    destruct Hi; now constructor.
  - destruct Hi; now constructor.
  - destruct Hi as [Hc Hb (Hmin & Hstep & Hgap) Hl]. constructor; try assumption.
    repeat split; try assumption. cbn. rewrite Hmin. lra.
Qed.

Lemma reachable_inv (W H : R) (g : Game.t) : reachable W H g -> Inv g.
Proof.
  induction 1; eauto using newGame_inv, step_inv.
Qed.

(** ** Level progression *)

Lemma latchWin_level (now : R) (g : Game.t) :
  Game.gapBetweenCars (latchWin now g) = Game.gapBetweenCars g /\
  Game.minGap (latchWin now g) = Game.minGap g /\
  Game.gapStep (latchWin now g) = Game.gapStep g /\
  Game.winCount (latchWin now g) = Game.winCount g.
Proof.
  unfold latchWin.
  destruct (winCondition g); [destruct (negb _)|destruct (Game.winResetAtMs g)];
    repeat split.
Qed.

Lemma updateCar_level (dt n1 n2 n3 : R) (g : Game.t) :
  Game.gapBetweenCars (updateCar dt n1 n2 n3 g) = Game.gapBetweenCars g /\
  Game.minGap (updateCar dt n1 n2 n3 g) = Game.minGap g /\
  Game.gapStep (updateCar dt n1 n2 n3 g) = Game.gapStep g /\
  Game.winCount (updateCar dt n1 n2 n3 g) = Game.winCount g /\
  Game.winLatched (updateCar dt n1 n2 n3 g) = Game.winLatched g /\
  Game.winResetAtMs (updateCar dt n1 n2 n3 g) = Game.winResetAtMs g.
Proof.
  unfold updateCar.
  destruct (Game.winResetAtMs g) eqn:Hw; [now rewrite <- Hw|].
  destruct (Game.isDragging g); [now rewrite <- Hw|].
  cbv zeta.
  destruct (resolveCollision_state (Car.x (Game.car g)) (Car.y (Game.car g))
              n1 n2 (integrate dt g)) as (m & l & _ & ->).
  match goal with
  | |- context [applyBounce _ _ (wrapAndClamp ?g2)] => set (G2 := g2)
  end.
  destruct (wrapAndClamp_moved G2) as (x1 & y1 & ->).
  destruct (applyBounce_moved dt n3
              (Game.set_car (moved x1 y1 (Game.car G2)) G2)) as (x2 & y2 & ->).
  subst G2. rewrite <- Hw.
  destruct (fst (checkCollisions (integrate dt g))); repeat split.
Qed.

(** The timer part of [checkParking]: either nothing more happens, or the
    pending reset has elapsed and the level transition runs. *)
Lemma checkParking_cases (n1 n2 : R) (g : Game.t) :
  (checkParking n1 n2 g = latchWin n1 g /\
   forall t, Game.winResetAtMs (latchWin n1 g) = Some t -> n2 < t) \/
  (checkParking n1 n2 g = nextLevel (latchWin n1 g) /\
   exists t, Game.winResetAtMs (latchWin n1 g) = Some t /\ t <= n2).
Proof.
  unfold checkParking.
  destruct (Game.winResetAtMs (latchWin n1 g)) as [t|] eqn:Hw.
  - destruct (Rleb t n2) eqn:Ht.
    + right. split; [reflexivity|]. exists t. split; [reflexivity|].
      now apply Rleb_true.
    + left. split; [reflexivity|]. intros t' [= <-]. now apply Rleb_false.
  - left. split; [reflexivity|]. discriminate.
Qed.

Lemma afterWins_gap (W H : R) (n : nat) :
  Game.minGap (afterWins n (newGame W H)) = 60 /\
  Game.gapStep (afterWins n (newGame W H)) = 20 /\
  Game.winCount (afterWins n (newGame W H)) = Z.of_nat n /\
  Game.gapBetweenCars (afterWins n (newGame W H)) = Rmax 60 (200 - 20 * INR n).
Proof.
  induction n as [|n (Hmin & Hstep & Hcount & Hgap)].
  - cbn. repeat split. rewrite Rmax_right; lra.
  - unfold afterWins in *. rewrite S_INR.
    change (Nat.iter (S n) nextLevel (newGame W H))
      with (nextLevel (Nat.iter n nextLevel (newGame W H))).
    set (g := Nat.iter n nextLevel (newGame W H)) in *.
    change (Game.minGap (nextLevel g)) with (Game.minGap g).
    change (Game.gapStep (nextLevel g)) with (Game.gapStep g).
    change (Game.winCount (nextLevel g)) with (Game.winCount g + 1)%Z.
    change (Game.gapBetweenCars (nextLevel g))
      with (Rmax (Game.minGap g) (Game.gapBetweenCars g - Game.gapStep g)).
    rewrite Hmin, Hstep, Hcount, Hgap. repeat split; [lia|].
    split_minmax; lra.
Qed.

(** ** Limits on steering, speed and gap *)

(** C9.  In every state the game can reach from its initial state, through
    any sequence of frames (whatever the keys held, with or without a
    collision rollback or a level reset), key presses, drags and slider
    moves, the steer angle is within [maxSteerAngle] and the speed within
    [maxSpeed] in absolute value. *)
Theorem steer_and_speed_within_limits (W H : R) (g : Game.t) :
  reachable W H g ->
  Rabs (Car.steerAngle (Game.car g)) <= Car.maxSteerAngle (Game.car g) /\
  Rabs (Car.speed (Game.car g)) <= Car.maxSpeed (Game.car g).
Proof.
  intros Hr. exact (inv_bounded g (reachable_inv W H g Hr)).
Qed.

Lemma steer_and_speed_within_limits_witness :
  let g := gameLoop 16 (Clock.mk 16 16 16 16 16)
             (keydown ArrowRight (keydown ArrowUp (newGame 800 600))) in
  Rabs (Car.steerAngle (Game.car g)) <= Car.maxSteerAngle (Game.car g) /\
  Rabs (Car.speed (Game.car g)) <= Car.maxSpeed (Game.car g).
Proof.
  apply (steer_and_speed_within_limits 800 600).
  eapply reach_step; [eapply reach_step; [eapply reach_step; [apply reach_new|]|]|].
  - apply (step_keydown ArrowUp).
  - apply (step_keydown ArrowRight).
  - apply step_frame.
Defined.

(** C4.  The gap never drops below [minGap]: it holds in every reachable
    state; a call of [checkParking] either leaves gap and win count alone or
    counts one win and sets the gap to [max(minGap, gap - gapStep)]; and
    from the initial gap 200 with step 20 and minimum 60 the gap after 10
    wins is 60 and after the 11th still 60. *)
Theorem gap_never_below_minGap (W H : R) (g : Game.t) :
  reachable W H g ->
  Game.minGap g <= Game.gapBetweenCars g /\
  (forall n1 n2,
      let g' := checkParking n1 n2 g in
      (Game.winCount g' = Game.winCount g /\
       Game.gapBetweenCars g' = Game.gapBetweenCars g) \/
      (Game.winCount g' = (Game.winCount g + 1)%Z /\
       Game.gapBetweenCars g' =
         Rmax (Game.minGap g) (Game.gapBetweenCars g - Game.gapStep g))) /\
  (forall n, Game.minGap (afterWins n g) <= Game.gapBetweenCars (afterWins n g)) /\
  Game.gapBetweenCars (afterWins 10 (newGame W H)) = 60 /\
  Game.gapBetweenCars (afterWins 11 (newGame W H)) = 60.
Proof.
  intros Hr. pose proof (reachable_inv W H g Hr) as Hi.
  split; [apply Hi|]. split; [|split; [|split]].
  - intros n1 n2 g'. subst g'.
    destruct (latchWin_level n1 g) as (Hg & Hm & Hs & Hc).
    destruct (checkParking_cases n1 n2 g) as [[-> _]|[-> _]].
    + left. now split.
    + right. split.
      * change (Game.winCount (nextLevel (latchWin n1 g)))
          with (Game.winCount (latchWin n1 g) + 1)%Z. now rewrite Hc.
      * change (Game.gapBetweenCars (nextLevel (latchWin n1 g)))
          with (Rmax (Game.minGap (latchWin n1 g))
                     (Game.gapBetweenCars (latchWin n1 g) - Game.gapStep (latchWin n1 g))).
        now rewrite Hg, Hm, Hs.
  - intros n. assert (Inv (afterWins n g)) as Hn.
    { induction n; [exact Hi|]. now apply nextLevel_inv. }
    apply Hn.
  - destruct (afterWins_gap W H 10) as (_ & _ & _ & ->).
    cbn [INR]. rewrite Rmax_left; lra.
  - destruct (afterWins_gap W H 11) as (_ & _ & _ & ->).
    cbn [INR]. rewrite Rmax_left; lra.
Qed.

Lemma gap_never_below_minGap_witness :
  let g := sliderInput 60 (newGame 800 600) in
  Game.minGap g <= Game.gapBetweenCars g /\
  (forall n1 n2,
      let g' := checkParking n1 n2 g in
      (Game.winCount g' = Game.winCount g /\
       Game.gapBetweenCars g' = Game.gapBetweenCars g) \/
      (Game.winCount g' = (Game.winCount g + 1)%Z /\
       Game.gapBetweenCars g' =
         Rmax (Game.minGap g) (Game.gapBetweenCars g - Game.gapStep g))) /\
  (forall n, Game.minGap (afterWins n g) <= Game.gapBetweenCars (afterWins n g)) /\
  Game.gapBetweenCars (afterWins 10 (newGame 800 600)) = 60 /\
  Game.gapBetweenCars (afterWins 11 (newGame 800 600)) = 60.
Proof.
  apply (gap_never_below_minGap 800 600).
  eapply reach_step; [apply reach_new|].
  apply step_slider. lra.
Defined.

(** *** The win latch *)

Lemma latchWin_pending (now t : R) (g : Game.t) :
  Game.winLatched g = true -> Game.winResetAtMs g = Some t -> latchWin now g = g.
Proof.
  intros Hl Hp. unfold latchWin. rewrite Hl, Hp. now destruct (winCondition g).
Qed.

Lemma checkParking_pending (n1 n2 t : R) (g : Game.t) :
  Game.winLatched g = true -> Game.winResetAtMs g = Some t ->
  checkParking n1 n2 g = if Rleb t n2 then nextLevel g else g.
Proof.
  intros Hl Hp. unfold checkParking.
  rewrite (latchWin_pending n1 t g Hl Hp), Hp. reflexivity.
Qed.

Lemma gameLoop_pending (ts t : R) (k : Clock.t) (g : Game.t) :
  Game.winLatched g = true -> Game.winResetAtMs g = Some t ->
  let g' := gameLoop ts k g in
  (Clock.timer k < t ->
   Game.winResetAtMs g' = Some t /\ Game.winLatched g' = true /\
   Game.winCount g' = Game.winCount g) /\
  (t <= Clock.timer k ->
   Game.winResetAtMs g' = None /\ Game.winLatched g' = false /\
   Game.winCount g' = (Game.winCount g + 1)%Z).
Proof.
  intros Hl Hp g'. subst g'. unfold gameLoop. cbv zeta.
  set (g0 := Game.set_lastFrameAtMs (Some ts) g).
  destruct (updateCar_level (frameDelta ts g) (Clock.flash k) (Clock.hit k)
              (Clock.bounce k) g0) as (_ & _ & _ & Hc & Hl1 & Hp1).
  change (Game.winLatched g0) with (Game.winLatched g) in Hl1.
  change (Game.winResetAtMs g0) with (Game.winResetAtMs g) in Hp1.
  change (Game.winCount g0) with (Game.winCount g) in Hc.
  rewrite Hl in Hl1. rewrite Hp in Hp1.
  rewrite (checkParking_pending _ _ t _ Hl1 Hp1).
  split; intros Ht.
  - apply Rleb_false in Ht. rewrite Ht. auto.
  - apply Rleb_true in Ht. rewrite Ht. cbn. rewrite Hc. auto.
Qed.

(** C7.  With the win latched and a reset pending at [t], whatever the car
    does and whether or not the win conditions still hold: a frame whose
    timer reading is before [t] keeps the pending reset, the latch and the
    win count; a frame whose reading has reached [t] performs the level
    transition (win count plus one) and only then are latch and pending
    reset cleared, together; and no handler does anything else to them, so
    the latch is never cleared while a reset is pending and no other reset
    is scheduled before this one completes. *)
Theorem pending_reset_is_not_cancelled (g : Game.t) (t : R) :
  Game.winLatched g = true -> Game.winResetAtMs g = Some t ->
  (forall ts k,
      let g' := gameLoop ts k g in
      (Clock.timer k < t ->
       Game.winResetAtMs g' = Some t /\ Game.winLatched g' = true /\
       Game.winCount g' = Game.winCount g) /\
      (t <= Clock.timer k ->
       Game.winResetAtMs g' = None /\ Game.winLatched g' = false /\
       Game.winCount g' = (Game.winCount g + 1)%Z)) /\
  (forall g', step g g' ->
      (Game.winResetAtMs g' = Some t /\ Game.winLatched g' = true /\
       Game.winCount g' = Game.winCount g) \/
      (Game.winResetAtMs g' = None /\ Game.winLatched g' = false /\
       Game.winCount g' = (Game.winCount g + 1)%Z)).
Proof.
  intros Hl Hp. split.
  - intros ts k. now apply gameLoop_pending.
  - intros g' Hs. destruct Hs.
    + destruct (gameLoop_pending timestampMs t k g Hl Hp) as [Hlt Hge].
      destruct (Rlt_le_dec (Clock.timer k) t); [left|right]; auto.
    + left. destruct code; auto.
    + left. destruct code; auto.
    + left. unfold mousedown. destruct (isPointerOnCar x y g); auto.
    + left. unfold mousemove. destruct (negb _); auto.
    + left. auto.
    + left. auto.
Qed.

Lemma pending_reset_is_not_cancelled_witness :
  let g := Game.set_winResetAtMs (Some 5000)
             (Game.set_winLatched true (newGame 800 600)) in
  (forall ts k,
      let g' := gameLoop ts k g in
      (Clock.timer k < 5000 ->
       Game.winResetAtMs g' = Some 5000 /\ Game.winLatched g' = true /\
       Game.winCount g' = Game.winCount g) /\
      (5000 <= Clock.timer k ->
       Game.winResetAtMs g' = None /\ Game.winLatched g' = false /\
       Game.winCount g' = (Game.winCount g + 1)%Z)) /\
  (forall g', step g g' ->
      (Game.winResetAtMs g' = Some 5000 /\ Game.winLatched g' = true /\
       Game.winCount g' = Game.winCount g) \/
      (Game.winResetAtMs g' = None /\ Game.winLatched g' = false /\
       Game.winCount g' = (Game.winCount g + 1)%Z)).
Proof.
  apply pending_reset_is_not_cancelled; reflexivity.
Defined.

(** *** Alignment *)

Lemma half_turn_remainder : js_rem PI (PI * 2) = PI.
Proof.
  assert (Hpi := PI_RGT_0).
  unfold js_rem. replace (PI / (PI * 2)) with (1 / 2) by (field; lra).
  unfold Rtrunc. destruct (Rle_dec 0 (1 / 2)) as [_|Hn]; [|lra].
  rewrite <- (Int_part_spec (1 / 2) 0); [lra|]. split; simpl; lra.
Qed.

(** C6.  With the heading equal to pi the alignment test fails, so the win
    condition is false wherever the car is and however slow it is; on that
    call [checkParking] schedules no reset and does not set the latch. *)
Theorem reversed_heading_is_no_win (g : Game.t) :
  Car.angle (Game.car g) = PI ->
  wellAligned g = false /\
  winCondition g = false /\
  (forall n1 n2,
      (Game.winLatched (checkParking n1 n2 g) = true -> Game.winLatched g = true) /\
      (Game.winResetAtMs (checkParking n1 n2 g) = Game.winResetAtMs g \/
       Game.winResetAtMs (checkParking n1 n2 g) = None)).
Proof.
  intros Ha. assert (Hpi := PI2_3_2).
  assert (wellAligned g = false) as Hw.
  { unfold wellAligned. rewrite Ha, half_turn_remainder.
    apply orb_false_iff. split; apply Rltb_false.
    - rewrite Rabs_right; lra.
    - rewrite Rabs_left; lra. }
  assert (winCondition g = false) as Hc.
  { unfold winCondition. rewrite Hw. now rewrite andb_false_r. }
  repeat split; try assumption.
  - unfold checkParking, latchWin. rewrite Hc.
    destruct (Game.winResetAtMs g) eqn:Hp; cbn; rewrite ?Hp;
      [destruct (Rleb _ _)|]; cbn; auto; discriminate.
  - unfold checkParking, latchWin. rewrite Hc.
    destruct (Game.winResetAtMs g) eqn:Hp; cbn; rewrite ?Hp;
      [destruct (Rleb _ _)|]; cbn; auto.
Qed.

Lemma reversed_heading_is_no_win_witness :
  inSpace parkedBackwards = true /\
  Rabs (Car.speed (Game.car parkedBackwards)) < 1 / 10 /\
  wellAligned parkedBackwards = false /\
  winCondition parkedBackwards = false /\
  (forall n1 n2,
      (Game.winLatched (checkParking n1 n2 parkedBackwards) = true ->
       Game.winLatched parkedBackwards = true) /\
      (Game.winResetAtMs (checkParking n1 n2 parkedBackwards) =
         Game.winResetAtMs parkedBackwards \/
       Game.winResetAtMs (checkParking n1 n2 parkedBackwards) = None)).
Proof.
  split; [|split].
  - unfold inSpace, parkedBackwards; cbn.
    repeat (apply andb_true_iff; split); apply Rltb_true; lra.
  - cbn. rewrite Rabs_R0. lra.
  - apply (reversed_heading_is_no_win parkedBackwards). reflexivity.
Defined.

(** *** Heading update *)

Lemma turn_right_steer (dt : R) (c : Car.t) :
  5 / 100 < Rabs (Car.speed c) -> 1 / 100 < Car.steerAngle c ->
  headingChange dt c =
    Car.speed c / (Car.wheelbase c / tan (Car.steerAngle c)) * dt.
Proof.
  intros Hv Hs. unfold headingChange, turn.
  rewrite (Rabs_right (Car.steerAngle c)) by lra.
  apply Rltb_true in Hv. rewrite Hv.
  assert (Rltb (1 / 100) (Car.steerAngle c) = true) as -> by (apply Rltb_true; lra).
  assert (Rltb 0 (Car.steerAngle c) = true) as -> by (apply Rltb_true; lra).
  cbn. lra.
Qed.

Lemma turn_rate_sign (v wheelbase s dt : R) :
  0 < dt -> 0 < wheelbase -> 0 < s < PI / 2 ->
  (0 < v -> 0 < v / (wheelbase / tan s) * dt) /\
  (v < 0 -> v / (wheelbase / tan s) * dt < 0).
Proof.
  intros Hdt Hw [Hs1 Hs2].
  assert (0 < wheelbase / tan s) as Hr.
  { apply Rdiv_lt_0_compat; [assumption|now apply tan_gt_0]. }
  assert (0 < / (wheelbase / tan s)) as Hi by now apply Rinv_0_lt_compat.
  unfold Rdiv at 1 3. set (q := / (wheelbase / tan s)) in *.
  split; intros Hv.
  - assert (0 < v * q) by nra. nra.
  - assert (v * q < 0) by nra. nra.
Qed.

(** C3, as the code has it.  When the heading update runs with a positive
    steer angle, the heading changes by [speed / turnRadius * dtSeconds]
    with [turnRadius = wheelbase / tan(steerAngle)]: it grows when the car
    moves forward and shrinks when it reverses.  The direction of the change
    follows the sign of the speed. *)
Theorem heading_change_follows_speed (dt : R) (c : Car.t) :
  0 < dt -> 0 < Car.wheelbase c ->
  5 / 100 < Rabs (Car.speed c) ->
  1 / 100 < Car.steerAngle c -> Car.steerAngle c < PI / 2 ->
  headingChange dt c =
    Car.speed c / (Car.wheelbase c / tan (Car.steerAngle c)) * dt /\
  (0 < Car.speed c -> 0 < headingChange dt c) /\
  (Car.speed c < 0 -> headingChange dt c < 0).
Proof.
  intros Hdt Hw Hv Hs1 Hs2.
  rewrite (turn_right_steer dt c Hv Hs1). split; [reflexivity|].
  apply turn_rate_sign; try assumption. lra.
Qed.

Lemma heading_change_follows_speed_witness :
  headingChange (1 / 100) (steeringRight (-100)) =
    -100 / (70 / tan (1 / 2)) * (1 / 100) /\
  (0 < -100 -> 0 < headingChange (1 / 100) (steeringRight (-100))) /\
  (-100 < 0 -> headingChange (1 / 100) (steeringRight (-100)) < 0).
Proof.
  assert (Hpi := PI2_1).
  apply (heading_change_follows_speed (1 / 100) (steeringRight (-100))); cbn;
    try lra.
  rewrite Rabs_left; lra.
Defined.

(** C3, as stated, fails: with the same positive steer angle and both speeds
    above the motion threshold, the heading grows going forward and shrinks
    going backward. *)
Lemma same_turn_direction_fails :
  Car.steerAngle (steeringRight 100) = Car.steerAngle (steeringRight (-100)) /\
  1 / 100 < Rabs (Car.steerAngle (steeringRight 100)) /\
  5 / 100 < Rabs (Car.speed (steeringRight 100)) /\
  5 / 100 < Rabs (Car.speed (steeringRight (-100))) /\
  0 < headingChange (1 / 100) (steeringRight 100) /\
  headingChange (1 / 100) (steeringRight (-100)) < 0.
Proof.
  assert (Hpi := PI2_1).
  assert (5 / 100 < Rabs 100) as Hf by (rewrite Rabs_right; lra).
  assert (5 / 100 < Rabs (-100)) as Hb by (rewrite Rabs_left; lra).
  assert (1 / 100 < Rabs (1 / 2)) as Hs by (rewrite Rabs_right; lra).
  split; [reflexivity|]. split; [exact Hs|]. split; [exact Hf|]. split; [exact Hb|].
  rewrite (turn_right_steer (1 / 100) (steeringRight 100)),
          (turn_right_steer (1 / 100) (steeringRight (-100)));
    try (cbn; lra); try assumption.
  cbn. split; apply turn_rate_sign; lra.
Qed.

(** *** Canvas bounds *)

(** What the kinematics block leaves of the car. *)
Lemma integrate_frame (dt : R) (g : Game.t) :
  Car.width (Game.car (integrate dt g)) = Car.width (Game.car g) /\
  Game.canvasWidth (integrate dt g) = Game.canvasWidth g /\
  Game.canvasHeight (integrate dt g) = Game.canvasHeight g.
Proof.
  assert (forall k c, Car.width (accelerate dt k c) = Car.width c) as Ha.
  { intros k c. unfold accelerate.
    destruct (Keys.up k), (Keys.down k), (Rltb 0 (Car.speed c)),
      (Rltb (Car.speed c) 0); reflexivity. }
  assert (forall k c, Car.width (steer dt k c) = Car.width c) as Hs.
  { intros k c. unfold steer. destruct (Keys.left k), (Keys.right k); reflexivity. }
  assert (forall c, Car.width (turn dt c) = Car.width c) as Ht.
  { intros c. unfold turn.
    destruct (_ && _), (Rltb 0 (Car.steerAngle c)); reflexivity. }
  repeat split. unfold integrate.
  change (Car.width (Game.car (Game.set_car ?c g))) with (Car.width c).
  change (Car.width (advance dt ?c)) with (Car.width c).
  now rewrite Ht, Hs, Ha.
Qed.

Lemma resolveCollision_frame (px py n1 n2 : R) (g : Game.t) :
  Car.width (Game.car (resolveCollision px py n1 n2 g)) = Car.width (Game.car g) /\
  Game.canvasWidth (resolveCollision px py n1 n2 g) = Game.canvasWidth g /\
  Game.canvasHeight (resolveCollision px py n1 n2 g) = Game.canvasHeight g.
Proof.
  destruct (resolveCollision_state px py n1 n2 g) as (m & l & _ & ->).
  destruct (fst (checkCollisions g)); repeat split.
Qed.

Lemma wrapAndClamp_position (g : Game.t) :
  0 <= Game.canvasWidth g + Car.width (Game.car g) ->
  let c := Game.car g in
  let c' := Game.car (wrapAndClamp g) in
  wraps (Game.canvasWidth g) (Car.width c / 2) (Car.x c) (Car.x c') /\
  Car.y c' = Rmax 45 (Rmin (Game.canvasHeight g - 45) (Car.y c)).
Proof.
  intros Hw c c'. subst c c'. unfold wrapAndClamp, wraps, clamp45.
  cases_cmp; cbn; repeat split; intros; lra.
Qed.

Lemma applyBounce_position (dt now : R) (g : Game.t) :
  0 <= Game.canvasWidth g + Car.width (Game.car g) ->
  let c := Game.car g in
  let c' := Game.car (applyBounce dt now g) in
  (Game.collisionBounceUntilMs g <= now -> applyBounce dt now g = g) /\
  (now < Game.collisionBounceUntilMs g ->
   let v := bounceTravel dt now g in
   wraps (Game.canvasWidth g) (Car.width c / 2)
         (Car.x c + Pt.x (Game.collisionBounceDir g) * v) (Car.x c') /\
   Car.y c' = Rmax 45 (Rmin (Game.canvasHeight g - 45)
                             (Car.y c + Pt.y (Game.collisionBounceDir g) * v))).
Proof.
  intros Hw c c'. subst c c'. unfold applyBounce. split; intros Hn.
  - apply Rltb_false in Hn. now rewrite Hn.
  - apply Rltb_true in Hn. rewrite Hn. cbv zeta.
    unfold wraps, clamp45. cbn.
    cases_cmp; cbn in *; repeat split; intros; lra.
Qed.

Lemma wraps_range (W halfW before after : R) :
  0 <= W + 2 * halfW -> wraps W halfW before after ->
  - halfW <= after <= W + halfW.
Proof.
  intros Hw (H1 & H2 & H3).
  destruct (Rlt_le_dec before (- halfW)); [rewrite H1; lra|].
  destruct (Rlt_le_dec (W + halfW) before); [rewrite H2; lra|].
  rewrite H3; lra.
Qed.

Lemma clamp_range (H v : R) : 90 <= H -> 45 <= Rmax 45 (Rmin (H - 45) v) <= H - 45.
Proof. intros Hh. split_minmax; lra. Qed.

(** Boundary handling followed by the bounce impulse, from any state. *)
Lemma boundary_then_bounce (dt n3 W H w : R) (g2 : Game.t) :
  Game.canvasWidth g2 = W -> Game.canvasHeight g2 = H ->
  Car.width (Game.car g2) = w ->
  0 <= W -> 90 <= H -> 0 <= w ->
  let halfW := w / 2 in
  let g3 := wrapAndClamp g2 in
  let g' := applyBounce dt n3 g3 in
  wraps W halfW (Car.x (Game.car g2)) (Car.x (Game.car g3)) /\
  Car.y (Game.car g3) = Rmax 45 (Rmin (H - 45) (Car.y (Game.car g2))) /\
  (Game.collisionBounceUntilMs g3 <= n3 -> g' = g3) /\
  (n3 < Game.collisionBounceUntilMs g3 ->
   let v := bounceTravel dt n3 g3 in
   wraps W halfW (Car.x (Game.car g3) + Pt.x (Game.collisionBounceDir g3) * v)
         (Car.x (Game.car g')) /\
   Car.y (Game.car g') =
     Rmax 45 (Rmin (H - 45)
                (Car.y (Game.car g3) + Pt.y (Game.collisionBounceDir g3) * v))) /\
  - halfW <= Car.x (Game.car g') <= W + halfW /\
  45 <= Car.y (Game.car g') <= H - 45.
Proof.
  intros EW EH Ew HW HH Hw halfW g3 g'. subst g'.
  assert (0 <= Game.canvasWidth g2 + Car.width (Game.car g2)) as Hw2
      by (rewrite Ew, EW; lra).
  pose proof (wrapAndClamp_position g2 Hw2) as [Hx3 Hy3].
  cbv zeta in Hx3, Hy3. fold g3 in Hx3, Hy3.
  rewrite Ew, EW in Hx3. rewrite EH in Hy3.
  assert (Car.width (Game.car g3) = w /\
          Game.canvasWidth g3 = W /\ Game.canvasHeight g3 = H) as (Ew3 & EW3 & EH3).
  { destruct (wrapAndClamp_moved g2) as (x3 & y3 & Eg3).
    subst g3. rewrite Eg3. cbn. auto. }
  clearbody g3.
  assert (0 <= Game.canvasWidth g3 + Car.width (Game.car g3)) as Hw3
      by (rewrite Ew3, EW3; lra).
  pose proof (applyBounce_position dt n3 g3 Hw3) as [Hoff Hon].
  cbv zeta in Hon. rewrite Ew3, EW3, EH3 in Hon.
  assert (0 <= W + 2 * halfW) as Hrange by (subst halfW; lra).
  split; [exact Hx3|]. split; [exact Hy3|]. split; [exact Hoff|].
  split; [exact Hon|].
  destruct (Rlt_le_dec n3 (Game.collisionBounceUntilMs g3)) as [Ha|Ha].
  - destruct (Hon Ha) as [Hx Hy]. split.
    + eapply wraps_range; eauto.
    + rewrite Hy. now apply clamp_range.
  - rewrite (Hoff Ha). split.
    + eapply wraps_range; eauto.
    + rewrite Hy3. now apply clamp_range.
Qed.

Lemma updateCar_physics (dt n1 n2 n3 : R) (g : Game.t) :
  Game.winResetAtMs g = None -> Game.isDragging g = false ->
  updateCar dt n1 n2 n3 g =
    applyBounce dt n3
      (wrapAndClamp
         (resolveCollision (Car.x (Game.car g)) (Car.y (Game.car g)) n1 n2
            (integrate dt g))).
Proof. intros Hp Hd. unfold updateCar. now rewrite Hp, Hd. Qed.

(** C8.  In a tick that runs the physics (no pending reset, no drag), let
    [g2] be the state after the collision check.  Boundary handling wraps
    its horizontal position (left of [-halfW] it becomes
    [canvas.width + halfW], right of [canvas.width + halfW] it becomes
    [-halfW], in between it is kept) and clamps its vertical position to
    [45, canvas.height - 45].  If the bounce impulse is not active that is
    the position at the end of the tick; if it is, the displaced position
    goes through the same wrap and clamp.  Either way the tick ends with the
    car between [-halfW] and [canvas.width + halfW] horizontally and between
    [45] and [canvas.height - 45] vertically. *)
Theorem position_wraps_and_clamps (dt n1 n2 n3 : R) (g : Game.t) :
  Game.winResetAtMs g = None -> Game.isDragging g = false ->
  0 <= Game.canvasWidth g -> 90 <= Game.canvasHeight g ->
  0 <= Car.width (Game.car g) ->
  let W := Game.canvasWidth g in
  let H := Game.canvasHeight g in
  let halfW := Car.width (Game.car g) / 2 in
  let g2 := resolveCollision (Car.x (Game.car g)) (Car.y (Game.car g)) n1 n2
              (integrate dt g) in
  let g3 := wrapAndClamp g2 in
  let g' := updateCar dt n1 n2 n3 g in
  wraps W halfW (Car.x (Game.car g2)) (Car.x (Game.car g3)) /\
  Car.y (Game.car g3) = Rmax 45 (Rmin (H - 45) (Car.y (Game.car g2))) /\
  (Game.collisionBounceUntilMs g3 <= n3 -> g' = g3) /\
  (n3 < Game.collisionBounceUntilMs g3 ->
   let v := bounceTravel dt n3 g3 in
   wraps W halfW (Car.x (Game.car g3) + Pt.x (Game.collisionBounceDir g3) * v)
         (Car.x (Game.car g')) /\
   Car.y (Game.car g') =
     Rmax 45 (Rmin (H - 45)
                (Car.y (Game.car g3) + Pt.y (Game.collisionBounceDir g3) * v))) /\
  - halfW <= Car.x (Game.car g') <= W + halfW /\
  45 <= Car.y (Game.car g') <= H - 45.
Proof.
  intros Hp Hd HW HH Hcw. cbv zeta.
  rewrite (updateCar_physics dt n1 n2 n3 g Hp Hd).
  destruct (integrate_frame dt g) as (Ew1 & EW1 & EH1).
  destruct (resolveCollision_frame (Car.x (Game.car g)) (Car.y (Game.car g))
              n1 n2 (integrate dt g)) as (Ew2 & EW2 & EH2).
  apply boundary_then_bounce; congruence.
Qed.

Lemma position_wraps_and_clamps_witness :
  let g := keydown ArrowUp (newGame 800 600) in
  let g' := updateCar (1 / 100) 16 16 16 g in
  - (90 / 2) <= Car.x (Game.car g') <= 800 + 90 / 2 /\
  45 <= Car.y (Game.car g') <= 600 - 45.
Proof.
  intros g g'.
  apply (position_wraps_and_clamps (1 / 100) 16 16 16 g); cbn; try reflexivity; lra.
Defined.

(** ** Projections and overlaps *)

Section Projection.

Variable axis : Pt.t.

(** The loop of [projectPointsOnAxis] once both bounds are finite. *)
Lemma project_from (pts : polygon) (m M : R) :
  m <= M ->
  exists m' M',
    fold_left (projectStep axis) pts (Fin m, Fin M) = (Fin m', Fin M') /\
    m' <= m /\ M <= M' /\
    (forall q, In q pts -> m' <= dot q axis <= M') /\
    (m' = m \/ exists q, In q pts /\ dot q axis = m') /\
    (M' = M \/ exists q, In q pts /\ dot q axis = M').
Proof.
  revert m M. induction pts as [|p pts IH]; intros m M Hm.
  - exists m, M. cbn. repeat split; try lra; try tauto.
  - cbn [fold_left]. unfold projectStep at 2. cbn [fst snd num_lt].
    set (d := dot p axis).
    assert (exists m1 M1,
               ((if Rltb d m then Fin d else Fin m),
                (if Rltb M d then Fin d else Fin M)) = (Fin m1, Fin M1) /\
               m1 <= M1 /\ m1 <= m /\ M <= M1 /\ m1 <= d <= M1 /\
               (m1 = m \/ m1 = d) /\ (M1 = M \/ M1 = d))
      as (m1 & M1 & -> & Hm1 & Hlo & Hhi & Hd & Hcm & HcM).
    { cases_cmp; eexists _, _; (split; [reflexivity|]); repeat split; lra. }
    destruct (IH m1 M1 Hm1) as (m' & M' & -> & H1 & H2 & H3 & H4 & H5).
    exists m', M'.
    split; [reflexivity|]. split; [lra|]. split; [lra|]. split; [|split].
    + intros q [<-|Hq]; [fold d; lra|now apply H3].
    + destruct H4 as [->|(q & Hq & <-)].
      * destruct Hcm as [->| ->]; [now left|right; exists p; cbn; auto].
      * right. exists q. cbn; auto.
    + destruct H5 as [->|(q & Hq & <-)].
      * destruct HcM as [->| ->]; [now left|right; exists p; cbn; auto].
      * right. exists q. cbn; auto.
Qed.

(** The projection of a non-empty polygon is the interval between the
    least and the greatest dot product of its points with the axis. *)
Lemma project_nonempty (pts : polygon) :
  pts <> [] ->
  exists m M,
    projectPointsOnAxis pts axis = (Fin m, Fin M) /\
    m <= M /\
    (forall q, In q pts -> m <= dot q axis <= M) /\
    (exists q, In q pts /\ dot q axis = m) /\
    (exists q, In q pts /\ dot q axis = M).
Proof.
  destruct pts as [|p pts]; [easy|intros _].
  unfold projectPointsOnAxis. cbn [fold_left].
  change (projectStep axis (PInf, NInf) p) with (Fin (dot p axis), Fin (dot p axis)).
  destruct (project_from pts (dot p axis) (dot p axis) ltac:(lra))
    as (m & M & -> & H1 & H2 & H3 & H4 & H5).
  exists m, M.
  split; [reflexivity|]. split; [lra|]. split; [|split].
  - intros q [<-|Hq]; [lra|now apply H3].
  - destruct H4 as [->|(q & Hq & <-)]; [exists p|exists q]; cbn; auto.
  - destruct H5 as [->|(q & Hq & <-)]; [exists p|exists q]; cbn; auto.
Qed.

Lemma project_empty : projectPointsOnAxis [] axis = (PInf, NInf).
Proof. reflexivity. Qed.

(** The projection is determined by bounds that are attained. *)
Lemma project_eval (pts : polygon) (m M : R) :
  (forall q, In q pts -> m <= dot q axis <= M) ->
  (exists q, In q pts /\ dot q axis = m) ->
  (exists q, In q pts /\ dot q axis = M) ->
  projectPointsOnAxis pts axis = (Fin m, Fin M).
Proof.
  intros Hb (qm & Hqm & Em) (qM & HqM & EM).
  assert (pts <> []) as Hne by (intros ->; contradiction).
  destruct (project_nonempty pts Hne)
    as (m' & M' & -> & _ & Hb' & (q1 & Hq1 & E1) & (q2 & Hq2 & E2)).
  pose proof (Hb q1 Hq1). pose proof (Hb q2 Hq2).
  pose proof (Hb' qm Hqm). pose proof (Hb' qM HqM).
  f_equal; f_equal; lra.
Qed.

(** Polygons with the same points have the same projection. *)
Lemma project_same_points (pts pts' : polygon) :
  (forall q, In q pts <-> In q pts') ->
  projectPointsOnAxis pts axis = projectPointsOnAxis pts' axis.
Proof.
  intros Hs. destruct pts as [|p pts].
  - destruct pts' as [|p' pts']; [reflexivity|].
    exfalso. apply (Hs p'). now left.
  - destruct (project_nonempty (p :: pts) ltac:(easy))
      as (m & M & -> & _ & Hb & (q1 & Hq1 & E1) & (q2 & Hq2 & E2)).
    symmetry. apply project_eval.
    + intros q Hq. apply Hb. now apply Hs.
    + exists q1. split; [now apply Hs|assumption].
    + exists q2. split; [now apply Hs|assumption].
Qed.

End Projection.

Section Overlap.

Variables pointsA pointsB : polygon.

(** On non-empty polygons the overlap is a finite number and the
    separation test compares the two intervals. *)
Lemma overlap_nonempty (axis : Pt.t) :
  pointsA <> [] -> pointsB <> [] ->
  exists mA MA mB MB,
    projectPointsOnAxis pointsA axis = (Fin mA, Fin MA) /\
    projectPointsOnAxis pointsB axis = (Fin mB, Fin MB) /\
    mA <= MA /\ mB <= MB /\
    overlapOn pointsA pointsB axis = Fin (Rmin MA MB - Rmax mA mB) /\
    separatedOn pointsA pointsB axis = Rltb MA mB || Rltb MB mA.
Proof.
  intros HA HB.
  destruct (project_nonempty axis pointsA HA) as (mA & MA & EA & HmA & _).
  destruct (project_nonempty axis pointsB HB) as (mB & MB & EB & HmB & _).
  exists mA, MA, mB, MB. unfold overlapOn, separatedOn. rewrite EA, EB.
  repeat split; assumption.
Qed.

(** The separation test of [polygonCollision] is the test for a negative
    overlap, whatever the polygons. *)
Lemma separated_negative (axis : Pt.t) :
  separatedOn pointsA pointsB axis =
  num_lt (overlapOn pointsA pointsB axis) (Fin 0).
Proof.
  unfold separatedOn, overlapOn.
  destruct pointsA as [|a A'].
  - rewrite project_empty.
    destruct pointsB as [|b B']; [reflexivity|].
    destruct (project_nonempty axis (b :: B') ltac:(easy)) as (mB & MB & -> & _).
    reflexivity.
  - destruct (project_nonempty axis (a :: A') ltac:(easy)) as (mA & MA & -> & HmA & _).
    destruct pointsB as [|b B'].
    + rewrite project_empty. reflexivity.
    + destruct (project_nonempty axis (b :: B') ltac:(easy)) as (mB & MB & -> & HmB & _).
      cbn [num_lt num_min num_max num_sub].
      destruct (Rltb (Rmin MA MB - Rmax mA mB) 0) eqn:E;
        [apply Rltb_true in E|apply Rltb_false in E].
      * apply orb_true_iff.
        destruct (Rlt_le_dec MA mB); [left; now apply Rltb_true|right].
        apply Rltb_true. split_minmax; lra.
      * apply orb_false_iff. split; apply Rltb_false; split_minmax; lra.
  Qed.

Variables centerA centerB : Pt.t.

Lemma mtvLoop_separating (axes : list Pt.t) (best : option (R * Pt.t)) :
  (exists axis, In axis axes /\
                num_le (overlapOn pointsA pointsB axis) (Fin 0) = true) ->
  mtvLoop pointsA pointsB centerA centerB axes best = Hit.mk false None.
Proof.
  revert best. induction axes as [|a axes IH]; intros best (axis & Hin & Hle).
  - contradiction.
  - cbn [mtvLoop].
    destruct (num_le (overlapOn pointsA pointsB a) (Fin 0)) eqn:E; [reflexivity|].
    destruct Hin as [->|Hin]; [congruence|].
    assert (exists axis, In axis axes /\
              num_le (overlapOn pointsA pointsB axis) (Fin 0) = true) as Hex
        by (exists axis; auto).
    destruct (overlapOn pointsA pointsB a) as [r| | |];
      [destruct best as [[s b]|]; [destruct (Rltb r s)|]|..];
      apply IH; exact Hex.
Qed.

Lemma mtvLoop_overlapping (axes : list Pt.t) (best : option (R * Pt.t)) :
  (forall axis, In axis axes -> exists o,
        overlapOn pointsA pointsB axis = Fin o /\ 0 < o) ->
  exists best',
    mtvLoop pointsA pointsB centerA centerB axes best =
      Hit.mk true (Some (mtvOf best')) /\
    (best' = best \/
     exists axis o, In axis axes /\ overlapOn pointsA pointsB axis = Fin o /\
                    best' = Some (o, orient centerA centerB axis)) /\
    (forall axis o, In axis axes -> overlapOn pointsA pointsB axis = Fin o ->
                    exists s a, best' = Some (s, a) /\ s <= o) /\
    (forall s a, best = Some (s, a) -> exists s' a', best' = Some (s', a') /\ s' <= s).
Proof.
  revert best. induction axes as [|a axes IH]; intros best Hall.
  - exists best. split; [reflexivity|]. split; [now left|]. split.
    + intros axis o [].
    + intros s b ->. exists s, b. split; [reflexivity|lra].
  - destruct (Hall a (or_introl eq_refl)) as (o & Eo & Ho).
    assert (forall axis, In axis axes -> exists o,
                 overlapOn pointsA pointsB axis = Fin o /\ 0 < o) as Hrest
        by (intros axis Hin; apply Hall; now right).
    cbn [mtvLoop]. rewrite Eo. cbn [num_le].
    assert (Rleb o 0 = false) as -> by (apply Rleb_false; lra).
    set (smaller := match best with
                    | Some (smallestOverlap, _) => Rltb o smallestOverlap
                    | None => true
                    end).
    destruct smaller eqn:Es; subst smaller.
    + destruct (IH (Some (o, orient centerA centerB a)) Hrest)
        as (best' & -> & Hfrom & Hmin & Hle).
      destruct (Hle o _ eq_refl) as (s' & a' & -> & Hs').
      exists (Some (s', a')). split; [reflexivity|]. split; [|split].
      * right. destruct Hfrom as [[= -> ->]|(axis & o' & Hin & Eo' & E)].
        -- exists a, o. cbn; auto.
        -- exists axis, o'. cbn; auto.
      * intros axis o' [<-|Hin] Eo'.
        -- rewrite Eo in Eo'. injection Eo' as <-. now exists s', a'.
        -- now apply (Hmin axis).
      * intros s b ->. apply Rltb_true in Es. exists s', a'.
        split; [reflexivity|lra].
    + destruct best as [[s b]|]; [|discriminate]. apply Rltb_false in Es.
      destruct (IH (Some (s, b)) Hrest) as (best' & -> & Hfrom & Hmin & Hle).
      destruct (Hle s b eq_refl) as (s' & a' & -> & Hs').
      exists (Some (s', a')). split; [reflexivity|]. split; [|split].
      * destruct Hfrom as [->|(axis & o' & Hin & Eo' & E)]; [now left|right].
        exists axis, o'. cbn; auto.
      * intros axis o' [<-|Hin] Eo'.
        -- rewrite Eo in Eo'. injection Eo' as <-. exists s', a'.
           split; [reflexivity|lra].
        -- now apply (Hmin axis).
      * intros s0 b0 [= <- <-]. now exists s', a'.
Qed.

End Overlap.

(** ** The two collision predicates *)

Lemma polygonCollision_true (pointsA pointsB : polygon) :
  polygonCollision pointsA pointsB = true <->
  forall axis, In axis (getAxes pointsA ++ getAxes pointsB) ->
               separatedOn pointsA pointsB axis = false.
Proof.
  unfold polygonCollision. rewrite forallb_forall.
  split; intros H axis Hin; specialize (H axis Hin);
    now destruct (separatedOn pointsA pointsB axis).
Qed.

Lemma polygonCollision_false (pointsA pointsB : polygon) :
  (exists axis, In axis (getAxes pointsA ++ getAxes pointsB) /\
                separatedOn pointsA pointsB axis = true) ->
  polygonCollision pointsA pointsB = false.
Proof.
  intros (axis & Hin & Hs).
  destruct (polygonCollision pointsA pointsB) eqn:E; [|reflexivity].
  rewrite polygonCollision_true in E. rewrite (E axis Hin) in Hs. discriminate.
Qed.

Lemma mtvLoop_collides (pointsA pointsB : polygon) (centerA centerB : Pt.t)
    (axes : list Pt.t) (best : option (R * Pt.t)) :
  (forall axis, In axis axes ->
                num_le (overlapOn pointsA pointsB axis) (Fin 0) = false) ->
  Hit.collides (mtvLoop pointsA pointsB centerA centerB axes best) = true.
Proof.
  revert best. induction axes as [|a axes IH]; intros best Hall; [reflexivity|].
  cbn [mtvLoop]. rewrite (Hall a (or_introl eq_refl)).
  assert (forall axis, In axis axes ->
            num_le (overlapOn pointsA pointsB axis) (Fin 0) = false) as Hrest
      by (intros axis Hin; apply Hall; now right).
  destruct (overlapOn pointsA pointsB a) as [r| | |];
    [destruct best as [[s b]|]; [destruct (Rltb r s)|]|..]; now apply IH.
Qed.

(** C10.  [polygonCollision] and [polygonCollisionMTV] agree except at
    exact touching.  If some axis of the union has a negative overlap both
    report no collision; if every axis has a positive overlap both report a
    collision; if no axis has a negative overlap but one has overlap exactly
    0 (touching polygons, or the zero axis of a zero-length edge),
    [polygonCollision] returns true and [polygonCollisionMTV] returns
    [collides = false]. *)
Theorem predicates_differ_only_at_touching (pointsA pointsB : polygon) :
  let axes := getAxes pointsA ++ getAxes pointsB in
  let overlap := overlapOn pointsA pointsB in
  ((exists axis, In axis axes /\ num_lt (overlap axis) (Fin 0) = true) ->
   polygonCollision pointsA pointsB = false /\
   Hit.collides (polygonCollisionMTV pointsA pointsB) = false) /\
  ((forall axis, In axis axes -> num_lt (Fin 0) (overlap axis) = true) ->
   polygonCollision pointsA pointsB = true /\
   Hit.collides (polygonCollisionMTV pointsA pointsB) = true) /\
  ((forall axis, In axis axes -> num_le (Fin 0) (overlap axis) = true) ->
   (exists axis, In axis axes /\ overlap axis = Fin 0) ->
   polygonCollision pointsA pointsB = true /\
   Hit.collides (polygonCollisionMTV pointsA pointsB) = false).
Proof.
  intros axes overlap. subst overlap. split; [|split].
  - intros (axis & Hin & Hneg). split.
    + apply polygonCollision_false. exists axis. split; [exact Hin|].
      now rewrite separated_negative.
    + unfold polygonCollisionMTV. rewrite mtvLoop_separating; [reflexivity|].
      exists axis. split; [exact Hin|].
      destruct (overlapOn pointsA pointsB axis) as [o| | |]; try discriminate.
      * cbn in *. apply Rltb_true in Hneg. apply Rleb_true. lra.
      * reflexivity.
  - intros Hpos. split.
    + apply polygonCollision_true. intros axis Hin. rewrite separated_negative.
      specialize (Hpos axis Hin).
      destruct (overlapOn pointsA pointsB axis) as [o| | |]; try discriminate.
      * cbn in *. apply Rltb_true in Hpos. apply Rltb_false. lra.
      * reflexivity.
    + apply mtvLoop_collides. intros axis Hin. specialize (Hpos axis Hin).
      destruct (overlapOn pointsA pointsB axis) as [o| | |]; try discriminate.
      * cbn in *. apply Rltb_true in Hpos. apply Rleb_false. lra.
      * reflexivity.
  - intros Hnn (axis0 & Hin0 & Hzero). split.
    + apply polygonCollision_true. intros axis Hin. rewrite separated_negative.
      specialize (Hnn axis Hin).
      destruct (overlapOn pointsA pointsB axis) as [o| | |]; try discriminate.
      * cbn in *. apply Rleb_true in Hnn. apply Rltb_false. lra.
      * reflexivity.
    + unfold polygonCollisionMTV. rewrite mtvLoop_separating; [reflexivity|].
      exists axis0. split; [exact Hin0|]. rewrite Hzero. cbn.
      apply Rleb_true. lra.
Qed.

(** ** The minimum-translation vector *)

Lemma fold_left_sum (f : Pt.t -> R) (points : polygon) (a : R) :
  fold_left (fun s p => s + f p) points a =
  a + fold_right (fun p s => f p + s) 0 points.
Proof.
  revert a. induction points as [|p points IH]; intros a; cbn; [lra|].
  rewrite IH. lra.
Qed.

(** The centre of a non-empty polygon is the mean of its vertices. *)
Lemma getPolygonCenter_mean (points : polygon) :
  points <> [] ->
  getPolygonCenter points =
    Pt.mk (sumX points / INR (length points)) (sumY points / INR (length points)).
Proof.
  intros Hne. unfold getPolygonCenter.
  rewrite (fold_left_sum Pt.x), (fold_left_sum Pt.y).
  fold (sumX points) (sumY points).
  assert (1 <= INR (length points)) as Hn.
  { destruct points as [|p points]; [easy|].
    cbn [length]. rewrite S_INR. pose proof (pos_INR (length points)). lra. }
  rewrite Rmax_left by exact Hn.
  f_equal; unfold Rdiv; ring.
Qed.

Lemma getAxes_length (points : polygon) : length (getAxes points) = length points.
Proof. unfold getAxes. now rewrite length_map, length_seq. Qed.

Lemma or_one_nonzero (v : R) : or_one v <> 0.
Proof. unfold or_one. destruct (Req_dec_T v 0); lra. Qed.

(** The axis of an edge is perpendicular to it, and a unit vector unless the
    edge is degenerate. *)
Lemma edgeAxis_normal (p1 p2 : Pt.t) :
  let axis := edgeAxis p1 p2 in
  (Pt.x p2 - Pt.x p1) * Pt.x axis + (Pt.y p2 - Pt.y p1) * Pt.y axis = 0 /\
  (Pt.x axis * Pt.x axis + Pt.y axis * Pt.y axis = 1 \/
   axis = origin /\ Pt.x p1 = Pt.x p2 /\ Pt.y p1 = Pt.y p2).
Proof.
  unfold edgeAxis. cbv zeta. cbn [Pt.x Pt.y].
  set (dx := Pt.x p2 - Pt.x p1). set (dy := Pt.y p2 - Pt.y p1).
  pose proof (or_one_nonzero (hypot (- dy) dx)) as Hnz.
  split; [field; exact Hnz|].
  unfold or_one in *. destruct (Req_dec_T (hypot (- dy) dx) 0) as [Hz|Hz].
  - right. unfold hypot in Hz. apply sqrt_eq_0 in Hz; [|nra].
    assert (dx = 0) by nra. assert (dy = 0) by nra.
    subst dx dy. repeat split; try lra. unfold origin. f_equal; lra.
  - left. assert (hypot (- dy) dx * hypot (- dy) dx = dy * dy + dx * dx) as Hsq.
    { unfold hypot. rewrite sqrt_sqrt; nra. }
    set (h := hypot (- dy) dx) in *.
    replace (- dy / h * (- dy / h) + dx / h * (dx / h))
      with ((dy * dy + dx * dx) / (h * h)) by (field; exact Hz).
    rewrite <- Hsq. field. exact Hz.
Qed.

Lemma getAxes_normals (points : polygon) (axis : Pt.t) :
  In axis (getAxes points) <-> edgeNormal points axis.
Proof.
  unfold getAxes, edgeNormal. rewrite in_map_iff. split.
  - intros (i & <- & Hi). apply in_seq in Hi. exists i. split; [lia|].
    cbv zeta. split; [reflexivity|]. apply edgeAxis_normal.
  - intros (i & Hi & -> & _). exists i. split; [reflexivity|].
    apply in_seq. lia.
Qed.

Lemma orient_cases (centerA centerB axis : Pt.t) :
  let d := orient centerA centerB axis in
  (d = axis \/ d = Pt.mk (- Pt.x axis) (- Pt.y axis)) /\
  0 <= (Pt.x centerB - Pt.x centerA) * Pt.x d +
       (Pt.y centerB - Pt.y centerA) * Pt.y d.
Proof.
  unfold orient. cbn [Pt.x Pt.y].
  destruct (Rltb _ 0) eqn:E; [apply Rltb_true in E|apply Rltb_false in E]; cbn.
  - split; [right; f_equal; lra|lra].
  - split; [left; destruct axis; cbn; f_equal; lra|lra].
Qed.

(** C1.  For non-empty vertex lists [A] and [B]: the axes examined are the
    edge normals of [A] and those of [B]; on every axis the projection of
    each polygon is the pair of the least and the greatest dot product of
    its vertices with the axis, and the overlap is the finite number
    [min(maxA, maxB) - max(minA, minB)] of these four; if it is [<= 0] on
    some axis the test reports no collision; otherwise it reports a
    collision whose vector is an axis of least overlap, flipped if need be
    so that it does not point against the vector from the centre of [A] to
    the centre of [B], times that least overlap; the centres are the means
    of the vertices. *)
Theorem mtv_is_least_overlap_axis (pointsA pointsB : polygon) :
  pointsA <> [] -> pointsB <> [] ->
  let axes := getAxes pointsA ++ getAxes pointsB in
  let centerA := getPolygonCenter pointsA in
  let centerB := getPolygonCenter pointsB in
  let result := polygonCollisionMTV pointsA pointsB in
  centerA = Pt.mk (sumX pointsA / INR (length pointsA))
                  (sumY pointsA / INR (length pointsA)) /\
  centerB = Pt.mk (sumX pointsB / INR (length pointsB))
                  (sumY pointsB / INR (length pointsB)) /\
  (forall axis, In axis axes <->
                edgeNormal pointsA axis \/ edgeNormal pointsB axis) /\
  (forall axis,
     exists minA maxA minB maxB,
       extent pointsA axis minA maxA /\
       extent pointsB axis minB maxB /\
       projectPointsOnAxis pointsA axis = (Fin minA, Fin maxA) /\
       projectPointsOnAxis pointsB axis = (Fin minB, Fin maxB) /\
       overlapOn pointsA pointsB axis = Fin (Rmin maxA maxB - Rmax minA minB)) /\
  ((exists axis o, In axis axes /\ overlapOn pointsA pointsB axis = Fin o /\ o <= 0) ->
   result = Hit.mk false None) /\
  ((forall axis o, In axis axes -> overlapOn pointsA pointsB axis = Fin o -> 0 < o) ->
   exists axis o,
     In axis axes /\ overlapOn pointsA pointsB axis = Fin o /\ 0 < o /\
     (forall axis' o', In axis' axes -> overlapOn pointsA pointsB axis' = Fin o' ->
                       o <= o') /\
     let d := orient centerA centerB axis in
     result = Hit.mk true (Some (Pt.mk (Pt.x d * o) (Pt.y d * o))) /\
     (d = axis \/ d = Pt.mk (- Pt.x axis) (- Pt.y axis)) /\
     0 <= (Pt.x centerB - Pt.x centerA) * Pt.x d +
          (Pt.y centerB - Pt.y centerA) * Pt.y d).
Proof.
  intros HA HB axes centerA centerB result.
  assert (forall axis,
             exists minA maxA minB maxB,
               extent pointsA axis minA maxA /\
               extent pointsB axis minB maxB /\
               projectPointsOnAxis pointsA axis = (Fin minA, Fin maxA) /\
               projectPointsOnAxis pointsB axis = (Fin minB, Fin maxB) /\
               overlapOn pointsA pointsB axis =
                 Fin (Rmin maxA maxB - Rmax minA minB)) as Hext.
  { intros axis.
    destruct (project_nonempty axis pointsA HA) as (mA & MA & EA & _ & HbA & HlA & HgA).
    destruct (project_nonempty axis pointsB HB) as (mB & MB & EB & _ & HbB & HlB & HgB).
    exists mA, MA, mB, MB.
    split; [exact (conj HbA (conj HlA HgA))|].
    split; [exact (conj HbB (conj HlB HgB))|].
    split; [exact EA|]. split; [exact EB|].
    unfold overlapOn. rewrite EA, EB. reflexivity. }
  assert (forall axis, exists o, overlapOn pointsA pointsB axis = Fin o) as Hfin.
  { intros axis.
    destruct (Hext axis) as (mA & MA & mB & MB & _ & _ & _ & _ & E).
    eexists; exact E. }
  split; [now apply getPolygonCenter_mean|].
  split; [now apply getPolygonCenter_mean|].
  split.
  { intros axis. subst axes. rewrite in_app_iff, !getAxes_normals. tauto. }
  split; [exact Hext|]. split.
  - intros (axis & o & Hin & Eo & Ho). subst result. unfold polygonCollisionMTV.
    apply mtvLoop_separating. exists axis. split; [exact Hin|].
    rewrite Eo. cbn. now apply Rleb_true.
  - intros Hpos.
    destruct (mtvLoop_overlapping pointsA pointsB centerA centerB axes None)
      as (best' & Eres & Hfrom & Hmin & _).
    { intros axis Hin. destruct (Hfin axis) as (o & Eo). exists o.
      split; [exact Eo|]. now apply (Hpos axis). }
    destruct Hfrom as [->|(axis & o & Hin & Eo & ->)].
    + exfalso. destruct pointsA as [|a A']; [easy|].
      destruct (Hfin (edgeAxis a (nth (1 mod length (a :: A')) (a :: A') origin)))
        as (o & Eo).
      destruct (Hmin _ o (or_introl eq_refl) Eo) as (s & b & [=] & _).
    + exists axis, o. split; [exact Hin|]. split; [exact Eo|].
      split; [now apply (Hpos axis)|]. split.
      * intros axis' o' Hin' Eo'.
        destruct (Hmin axis' o' Hin' Eo') as (s & b & [= <- <-] & Hle). exact Hle.
      * split; [exact Eres|]. apply orient_cases.
Qed.

(** ** Collision ticks *)

Lemma onCollision_fields (prevX prevY n1 n2 : R) (g : Game.t) :
  let g' := onCollision prevX prevY n1 n2 g in
  Game.car g' =
    Car.set_collided true (Car.set_speed 0 (moved prevX prevY (Game.car g))) /\
  Game.collisionBounceUntilMs g' = n2 + Game.collisionBounceDurationMs g /\
  Game.collisionBounceDir g' =
    bounceDirOf (Game.collisionMTV g) (Car.angle (Game.car g)) /\
  Game.collisionBounceSpeed g' = Game.collisionBounceSpeed g /\
  Game.collisionBounceDurationMs g' = Game.collisionBounceDurationMs g /\
  Game.canvasWidth g' = Game.canvasWidth g /\
  Game.canvasHeight g' = Game.canvasHeight g.
Proof. repeat split. Qed.

Lemma wrapAndClamp_frame (dt now : R) (g : Game.t) :
  Game.collisionBounceUntilMs (wrapAndClamp g) = Game.collisionBounceUntilMs g /\
  Game.collisionBounceDir (wrapAndClamp g) = Game.collisionBounceDir g /\
  bounceTravel dt now (wrapAndClamp g) = bounceTravel dt now g.
Proof.
  destruct (wrapAndClamp_moved g) as (x & y & ->). repeat split.
Qed.

Lemma bounded_car_moved (dt now : R) (g : Game.t) :
  exists x y,
    Game.car (applyBounce dt now (wrapAndClamp g)) = moved x y (Game.car g).
Proof.
  destruct (wrapAndClamp_moved g) as (x3 & y3 & ->).
  match goal with
  | |- context [applyBounce ?dt ?n ?g] =>
      destruct (applyBounce_moved dt n g) as (x4 & y4 & ->)
  end.
  exists x4, y4. now destruct g as [? ? ? ? []].
Qed.

(** The state after the collision check of a tick in which it reports a
    contact. *)
Lemma resolveCollision_hit (prevX prevY n1 n2 : R) (g : Game.t) :
  fst (checkCollisions g) = true ->
  let g2 := resolveCollision prevX prevY n1 n2 g in
  Game.car g2 =
    Car.set_collided true (Car.set_speed 0 (moved prevX prevY (Game.car g))) /\
  Game.collisionBounceUntilMs g2 = n2 + Game.collisionBounceDurationMs g /\
  Game.collisionBounceDir g2 =
    bounceDirOf (Game.collisionMTV (snd (checkCollisions g))) (Car.angle (Game.car g)) /\
  Game.collisionBounceSpeed g2 = Game.collisionBounceSpeed g /\
  Game.collisionBounceDurationMs g2 = Game.collisionBounceDurationMs g /\
  Game.canvasWidth g2 = Game.canvasWidth g /\
  Game.canvasHeight g2 = Game.canvasHeight g.
Proof.
  intros Hhit.
  destruct (resolveCollision_state prevX prevY n1 n2 g) as (m & l & Es & Er).
  cbv zeta in *. rewrite Er, Hhit, Es.
  exact (onCollision_fields prevX prevY n1 n2
           (Game.set_collisionMTV m (Game.set_lastCollision l g))).
Qed.

(** Boundary handling and bounce leave a position alone that lies within
    the bounds, when the impulse has expired or the tick has no duration. *)
Lemma bounce_inert (dt n3 W H w x0 y0 until : R) (g2 : Game.t) :
  Game.canvasWidth g2 = W -> Game.canvasHeight g2 = H ->
  Car.width (Game.car g2) = w ->
  Car.x (Game.car g2) = x0 -> Car.y (Game.car g2) = y0 ->
  Game.collisionBounceUntilMs g2 = until ->
  - (w / 2) <= x0 <= W + w / 2 -> 45 <= y0 <= H - 45 ->
  until <= n3 \/ dt = 0 ->
  Car.x (Game.car (applyBounce dt n3 (wrapAndClamp g2))) = x0 /\
  Car.y (Game.car (applyBounce dt n3 (wrapAndClamp g2))) = y0.
Proof.
  intros EW EH Ew Ex Ey Euntil Hx0 Hy0 Hoff.
  assert (0 <= Game.canvasWidth g2 + Car.width (Game.car g2)) as Hw2
      by (rewrite EW, Ew; lra).
  pose proof (wrapAndClamp_position g2 Hw2) as [(_ & _ & Hx3) Hy3].
  cbv zeta in Hx3, Hy3. rewrite EW, Ew, Ex in Hx3. rewrite EH, Ey in Hy3.
  specialize (Hx3 Hx0).
  rewrite Rmin_right, Rmax_right in Hy3 by (try rewrite Rmin_right; lra).
  destruct (wrapAndClamp_frame dt n3 g2) as (Eu3 & Ed3 & Ev3).
  assert (Car.width (Game.car (wrapAndClamp g2)) = w /\
          Game.canvasWidth (wrapAndClamp g2) = W /\
          Game.canvasHeight (wrapAndClamp g2) = H)
    as (Ew3 & EW3 & EH3).
  { destruct (wrapAndClamp_moved g2) as (x3 & y3 & ->). cbn. auto. }
  revert Hx3 Hy3 Eu3 Ed3 Ev3 Ew3 EW3 EH3.
  generalize (wrapAndClamp g2). intros g3 Hx3 Hy3 Eu3 Ed3 Ev3 Ew3 EW3 EH3.
  assert (0 <= Game.canvasWidth g3 + Car.width (Game.car g3)) as Hw3
      by (rewrite EW3, Ew3; lra).
  pose proof (applyBounce_position dt n3 g3 Hw3) as [Hexp Hact].
  cbv zeta in Hact. rewrite Eu3, Euntil in Hexp, Hact.
  rewrite EW3, Ew3, EH3, Hx3, Hy3 in Hact.
  destruct (Rlt_le_dec n3 until) as [Ha|Ha].
  - destruct Hoff as [Hoff|Hdt]; [lra|].
    destruct (Hact Ha) as [(_ & _ & Hx) Hy].
    assert (bounceTravel dt n3 g3 = 0) as Ev.
    { unfold bounceTravel. rewrite Hdt. ring. }
    rewrite Ev, Rmult_0_r, Rplus_0_r in Hx, Hy.
    split; [now apply Hx|]. rewrite Hy.
    rewrite Rmin_right, Rmax_right by (try rewrite Rmin_right; lra). reflexivity.
  - rewrite (Hexp Ha). now split.
Qed.

(** C2, as the code has it.  In a tick whose collision check reports a
    contact, the position is rolled back to the position at the start of
    the tick and the speed set to 0; at the end of the tick the speed is 0,
    [collided] is set, and heading and steer angle are those computed during
    the tick.  The rolled-back position then goes through the boundary
    handling and the bounce impulse armed by this very collision (until
    [nowHit + collisionBounceDurationMs]): the position at the end of the
    tick is the start position when that lies within the bounds and the
    impulse contributes nothing ([dtSeconds = 0], or the bounce reading is
    not before the end of the impulse). *)
Theorem collision_rolls_back_before_bounce (dt n1 n2 n3 : R) (g : Game.t) :
  Game.winResetAtMs g = None -> Game.isDragging g = false ->
  fst (checkCollisions (integrate dt g)) = true ->
  let gi := integrate dt g in
  let g2 := resolveCollision (Car.x (Game.car g)) (Car.y (Game.car g)) n1 n2 gi in
  let g' := updateCar dt n1 n2 n3 g in
  let x0 := Car.x (Game.car g) in
  let y0 := Car.y (Game.car g) in
  Car.x (Game.car g2) = x0 /\ Car.y (Game.car g2) = y0 /\
  Car.speed (Game.car g2) = 0 /\
  Car.speed (Game.car g') = 0 /\ Car.collided (Game.car g') = true /\
  Car.angle (Game.car g') = Car.angle (Game.car gi) /\
  Car.steerAngle (Game.car g') = Car.steerAngle (Game.car gi) /\
  g' = applyBounce dt n3 (wrapAndClamp g2) /\
  Game.collisionBounceUntilMs g2 = n2 + Game.collisionBounceDurationMs g /\
  (- (Car.width (Game.car g) / 2) <= x0 <=
     Game.canvasWidth g + Car.width (Game.car g) / 2 ->
   45 <= y0 <= Game.canvasHeight g - 45 ->
   n2 + Game.collisionBounceDurationMs g <= n3 \/ dt = 0 ->
   Car.x (Game.car g') = x0 /\ Car.y (Game.car g') = y0).
Proof.
  intros Hp Hd Hhit. cbv zeta.
  rewrite (updateCar_physics dt n1 n2 n3 g Hp Hd).
  pose proof (resolveCollision_hit (Car.x (Game.car g)) (Car.y (Game.car g)) n1 n2
                (integrate dt g) Hhit) as Hf.
  cbv zeta in Hf.
  destruct (integrate_frame dt g) as (Ew1 & EW1 & EH1).
  assert (Game.collisionBounceDurationMs (integrate dt g) =
          Game.collisionBounceDurationMs g) as Edur1 by reflexivity.
  revert Hf.
  generalize (resolveCollision (Car.x (Game.car g)) (Car.y (Game.car g)) n1 n2
                (integrate dt g)).
  intros g2 (Ecar & Euntil & _ & _ & _ & EW & EH).
  rewrite EW1 in EW. rewrite EH1 in EH. rewrite Edur1 in Euntil.
  revert Ew1 Ecar. generalize (Game.car (integrate dt g)). intros ci Ew1 Ecar.
  destruct (bounded_car_moved dt n3 g2) as (x4 & y4 & Ecar4).
  assert (Car.width (Game.car g2) = Car.width (Game.car g)) as Ew
      by (rewrite Ecar; exact Ew1).
  assert (Car.x (Game.car g2) = Car.x (Game.car g)) as Ex
      by (rewrite Ecar; reflexivity).
  assert (Car.y (Game.car g2) = Car.y (Game.car g)) as Ey
      by (rewrite Ecar; reflexivity).
  split; [exact Ex|]. split; [exact Ey|].
  split; [rewrite Ecar; reflexivity|].
  split; [rewrite Ecar4, Ecar; reflexivity|].
  split; [rewrite Ecar4, Ecar; reflexivity|].
  split; [rewrite Ecar4, Ecar; reflexivity|].
  split; [rewrite Ecar4, Ecar; reflexivity|].
  split; [reflexivity|]. split; [exact Euntil|].
  intros Hx0 Hy0 Hoff.
  now apply (bounce_inert dt n3 (Game.canvasWidth g) (Game.canvasHeight g)
               (Car.width (Game.car g)) _ _
               (n2 + Game.collisionBounceDurationMs g) g2).
Qed.

(** ** Evaluation on concrete polygons *)

Ltac pt_eq := apply f_equal2; lra.
Ltac poly_eq := repeat (apply f_equal2; [pt_eq|]); reflexivity.

Lemma getAxes4 (a b c d : Pt.t) :
  getAxes [a; b; c; d] = [edgeAxis a b; edgeAxis b c; edgeAxis c d; edgeAxis d a].
Proof. reflexivity. Qed.

Lemma getAxes8 (a b c d e f g h : Pt.t) :
  getAxes [a; b; c; d; e; f; g; h] =
  [edgeAxis a b; edgeAxis b c; edgeAxis c d; edgeAxis d e;
   edgeAxis e f; edgeAxis f g; edgeAxis g h; edgeAxis h a].
Proof. reflexivity. Qed.

Lemma hypot_eval (a b len : R) :
  0 <= len -> a * a + b * b = len * len -> hypot a b = len.
Proof. intros Hl He. unfold hypot. apply sqrt_lem_1; nra. Qed.

Lemma edgeAxis_eval (p1 p2 : Pt.t) (len ax ay : R) :
  0 < len ->
  (Pt.x p2 - Pt.x p1) * (Pt.x p2 - Pt.x p1) +
  (Pt.y p2 - Pt.y p1) * (Pt.y p2 - Pt.y p1) = len * len ->
  ax * len = - (Pt.y p2 - Pt.y p1) ->
  ay * len = Pt.x p2 - Pt.x p1 ->
  edgeAxis p1 p2 = Pt.mk ax ay.
Proof.
  intros Hl He Hx Hy. unfold edgeAxis.
  rewrite (hypot_eval _ _ len); [|lra|lra].
  unfold or_one. destruct (Req_dec_T len 0); [lra|].
  f_equal; apply Rmult_eq_reg_r with len; try lra; field_simplify; lra.
Qed.

(** A point of the list that attains the given projection. *)
Ltac attain l :=
  match l with
  | ?p :: ?l' =>
      first [ exists p; split; [cbn [In]; tauto|unfold dot; cbn [Pt.x Pt.y]; lra]
            | attain l' ]
  end.

(** The projection of an explicit polygon on an explicit axis. *)
Ltac eval_proj m M :=
  apply (project_eval _ _ m M);
  [ let q := fresh "q" in
    let Hq := fresh "Hq" in
    intros q Hq; cbn [In] in Hq;
    repeat (destruct Hq as [<-|Hq]; [unfold dot; cbn [Pt.x Pt.y]; lra|]);
    contradiction
  | match goal with |- exists q, In q ?l /\ _ => attain l end
  | match goal with |- exists q, In q ?l /\ _ => attain l end ].

Section Stepping.

Variables (pointsA pointsB : polygon) (centerA centerB : Pt.t).

Lemma overlap_eval (axis : Pt.t) (mA MA mB MB o : R) :
  projectPointsOnAxis pointsA axis = (Fin mA, Fin MA) ->
  projectPointsOnAxis pointsB axis = (Fin mB, Fin MB) ->
  Rmin MA MB - Rmax mA mB = o ->
  overlapOn pointsA pointsB axis = Fin o.
Proof. intros EA EB <-. unfold overlapOn. now rewrite EA, EB. Qed.

Lemma mtvLoop_first (a : Pt.t) (rest : list Pt.t) (o : R) :
  overlapOn pointsA pointsB a = Fin o -> 0 < o ->
  mtvLoop pointsA pointsB centerA centerB (a :: rest) None =
  mtvLoop pointsA pointsB centerA centerB rest
    (Some (o, orient centerA centerB a)).
Proof.
  intros E Ho. cbn [mtvLoop]. rewrite E. cbn [num_le].
  now rewrite (proj2 (Rleb_false o 0)) by lra.
Qed.

Lemma mtvLoop_keep (a : Pt.t) (rest : list Pt.t) (o s : R) (b : Pt.t) :
  overlapOn pointsA pointsB a = Fin o -> 0 < o -> s <= o ->
  mtvLoop pointsA pointsB centerA centerB (a :: rest) (Some (s, b)) =
  mtvLoop pointsA pointsB centerA centerB rest (Some (s, b)).
Proof.
  intros E Ho Hs. cbn [mtvLoop]. rewrite E. cbn [num_le].
  rewrite (proj2 (Rleb_false o 0)) by lra.
  now rewrite (proj2 (Rltb_false o s)) by lra.
Qed.

Lemma mtvLoop_better (a : Pt.t) (rest : list Pt.t) (o s : R) (b : Pt.t) :
  overlapOn pointsA pointsB a = Fin o -> 0 < o -> o < s ->
  mtvLoop pointsA pointsB centerA centerB (a :: rest) (Some (s, b)) =
  mtvLoop pointsA pointsB centerA centerB rest
    (Some (o, orient centerA centerB a)).
Proof.
  intros E Ho Hs. cbn [mtvLoop]. rewrite E. cbn [num_le].
  rewrite (proj2 (Rleb_false o 0)) by lra.
  now rewrite (proj2 (Rltb_true o s)) by lra.
Qed.

End Stepping.

(** *** The player's car on top of the first parked car *)

(** The footprint of the player's car (90 by 45, insets 8 and 6) at heading 0. *)
Lemma car_footprint (x y : R) :
  getChamferedRectPolygon x y 90 45 0 8 6 =
  [Pt.mk (x - 37) (y - 45 / 2); Pt.mk (x + 37) (y - 45 / 2);
   Pt.mk (x + 45) (y - 33 / 2); Pt.mk (x + 45) (y + 33 / 2);
   Pt.mk (x + 37) (y + 45 / 2); Pt.mk (x - 37) (y + 45 / 2);
   Pt.mk (x - 45) (y + 33 / 2); Pt.mk (x - 45) (y - 33 / 2)].
Proof.
  unfold getChamferedRectPolygon.
  replace (Rmin (Rmax 8 0) (Rmax 0 (90 / 2 - 1))) with 8 by (split_minmax; lra).
  replace (Rmin (Rmax 6 0) (Rmax 0 (45 / 2 - 1))) with 6 by (split_minmax; lra).
  cbn [map]. unfold place. cbn [Pt.x Pt.y]. rewrite cos_0, sin_0. poly_eq.
Qed.

Lemma chamfer_oct : getChamferedRectPolygon 255 420 90 45 0 8 6 = oct.
Proof. rewrite car_footprint. unfold oct. poly_eq. Qed.

Lemma oct_axes : getAxes oct = octAxes.
Proof.
  unfold oct, octAxes. rewrite getAxes8.
  repeat (apply f_equal2; [|try reflexivity]).
  - apply (edgeAxis_eval _ _ 74); cbn; lra.
  - apply (edgeAxis_eval _ _ 10); cbn; lra.
  - apply (edgeAxis_eval _ _ 33); cbn; lra.
  - apply (edgeAxis_eval _ _ 10); cbn; lra.
  - apply (edgeAxis_eval _ _ 74); cbn; lra.
  - apply (edgeAxis_eval _ _ 10); cbn; lra.
  - apply (edgeAxis_eval _ _ 33); cbn; lra.
  - apply (edgeAxis_eval _ _ 10); cbn; lra.
Qed.

Lemma oct_proj :
  projectPointsOnAxis oct (Pt.mk 0 1) = (Fin (795 / 2), Fin (885 / 2)) /\
  projectPointsOnAxis oct (Pt.mk (-3 / 5) (4 / 5)) = (Fin (714 / 5), Fin (1116 / 5)) /\
  projectPointsOnAxis oct (Pt.mk (-1) 0) = (Fin (-300), Fin (-210)) /\
  projectPointsOnAxis oct (Pt.mk (-3 / 5) (-4 / 5)) = (Fin (-2646 / 5), Fin (-2244 / 5)) /\
  projectPointsOnAxis oct (Pt.mk 0 (-1)) = (Fin (-885 / 2), Fin (-795 / 2)) /\
  projectPointsOnAxis oct (Pt.mk (3 / 5) (-4 / 5)) = (Fin (-1116 / 5), Fin (-714 / 5)) /\
  projectPointsOnAxis oct (Pt.mk 1 0) = (Fin 210, Fin 300) /\
  projectPointsOnAxis oct (Pt.mk (3 / 5) (4 / 5)) = (Fin (2244 / 5), Fin (2646 / 5)).
Proof.
  unfold oct. repeat split.
  - eval_proj (795 / 2) (885 / 2).
  - eval_proj (714 / 5) (1116 / 5).
  - eval_proj (-300) (-210).
  - eval_proj (-2646 / 5) (-2244 / 5).
  - eval_proj (-885 / 2) (-795 / 2).
  - eval_proj (-1116 / 5) (-714 / 5).
  - eval_proj 210 300.
  - eval_proj (2244 / 5) (2646 / 5).
Qed.

Lemma oct_overlaps :
  Forall2 (fun axis o => overlapOn oct oct axis = Fin o) octAxes
    [45; 402 / 5; 90; 402 / 5; 45; 402 / 5; 90; 402 / 5].
Proof.
  destruct oct_proj as (P0 & P1 & P2 & P3 & P4 & P5 & P6 & P7).
  unfold octAxes.
  repeat constructor;
    (eapply overlap_eval; [eassumption|eassumption|split_minmax; lra]).
Qed.

Lemma oct_center : getPolygonCenter oct = Pt.mk 255 420.
Proof.
  rewrite getPolygonCenter_mean by discriminate.
  unfold sumX, sumY, oct. cbn. f_equal; lra.
Qed.

(** Two coincident footprints collide; the least overlap, 45, is first met
    on the axis (0, 1). *)
Lemma oct_self_hit :
  polygonCollisionMTV oct oct = Hit.mk true (Some (Pt.mk 0 45)).
Proof.
  unfold polygonCollisionMTV. rewrite oct_axes, oct_center.
  pose proof oct_overlaps as H. unfold octAxes in *.
  repeat match type of H with
         | Forall2 _ (_ :: _) _ =>
             let E := fresh "E" in
             apply Forall2_cons_iff in H; destruct H as [E H]
         end.
  cbn [app].
  rewrite (mtvLoop_first _ _ _ _ _ _ 45 E) by lra.
  rewrite (mtvLoop_keep _ _ _ _ _ _ _ _ _ E0) by lra.
  rewrite (mtvLoop_keep _ _ _ _ _ _ _ _ _ E1) by lra.
  rewrite (mtvLoop_keep _ _ _ _ _ _ _ _ _ E2) by lra.
  rewrite (mtvLoop_keep _ _ _ _ _ _ _ _ _ E3) by lra.
  rewrite (mtvLoop_keep _ _ _ _ _ _ _ _ _ E4) by lra.
  rewrite (mtvLoop_keep _ _ _ _ _ _ _ _ _ E5) by lra.
  rewrite (mtvLoop_keep _ _ _ _ _ _ _ _ _ E6) by lra.
  rewrite (mtvLoop_keep _ _ _ _ _ _ _ _ _ E) by lra.
  rewrite (mtvLoop_keep _ _ _ _ _ _ _ _ _ E0) by lra.
  rewrite (mtvLoop_keep _ _ _ _ _ _ _ _ _ E1) by lra.
  rewrite (mtvLoop_keep _ _ _ _ _ _ _ _ _ E2) by lra.
  rewrite (mtvLoop_keep _ _ _ _ _ _ _ _ _ E3) by lra.
  rewrite (mtvLoop_keep _ _ _ _ _ _ _ _ _ E4) by lra.
  rewrite (mtvLoop_keep _ _ _ _ _ _ _ _ _ E5) by lra.
  rewrite (mtvLoop_keep _ _ _ _ _ _ _ _ _ E6) by lra.
  cbn [mtvLoop]. unfold orient. cbn [Pt.x Pt.y].
  rewrite (proj2 (Rltb_false _ _)) by lra.
  do 2 f_equal. f_equal; lra.
Qed.

Lemma advance_at_rest (dt : R) (c : Car.t) : Car.speed c = 0 -> advance dt c = c.
Proof.
  intros Hs. destruct c. cbn in Hs. subst. unfold advance, Car.set_x, Car.set_y.
  cbn. f_equal; lra.
Qed.

(** With no key held a car at rest stays as it is. *)
Lemma integrate_at_rest (dt : R) (g : Game.t) :
  Game.keys g = Keys.mk false false false false ->
  Car.speed (Game.car g) = 0 ->
  integrate dt g = g.
Proof.
  intros Hk Hs. unfold integrate, accelerate, steer, turn. rewrite Hk.
  cbn [Keys.up Keys.down Keys.left Keys.right].
  rewrite Hs. rewrite (proj2 (Rltb_false 0 0)) by lra. cbv iota.
  rewrite Hs, Rabs_R0. rewrite (proj2 (Rltb_false (5 / 100) 0)) by lra.
  cbn [andb]. rewrite advance_at_rest by exact Hs.
  symmetry. apply set_car_same.
Qed.

Lemma onParkedCar_parkedCars :
  Game.parkedCars onParkedCar =
  (Npc.mk 255 420 90 45 0 8 6, Npc.mk 545 420 90 45 0 8 6).
Proof.
  unfold onParkedCar, newGame, recomputeParkingLayout, Npc.set_x, Npc.set_y.
  cbn. f_equal; f_equal; lra.
Qed.

Lemma onParkedCar_hit :
  checkCollisions onParkedCar =
  (true, Game.set_collisionMTV (Some (Pt.mk 0 45))
           (Game.set_lastCollision (Some (HitCar (Npc.mk 255 420 90 45 0 8 6)))
              onParkedCar)).
Proof.
  unfold checkCollisions, parkedCarList.
  rewrite onParkedCar_parkedCars. cbn [fst snd firstParkedHit].
  change (playerPolygon (Game.car onParkedCar))
    with (getChamferedRectPolygon 255 420 90 45 0 8 6).
  change (npcPolygon (Npc.mk 255 420 90 45 0 8 6))
    with (getChamferedRectPolygon 255 420 90 45 0 8 6).
  rewrite chamfer_oct, oct_self_hit. reflexivity.
Qed.

(** The tick of [onParkedCar] with [dtSeconds = 0.05] and every clock
    reading at 1000 ms: the collision is detected, and the car ends the tick
    11 pixels above where it started. *)
Lemma onParkedCar_tick :
  let g' := updateCar (1 / 20) 1000 1000 1000 onParkedCar in
  fst (checkCollisions (integrate (1 / 20) onParkedCar)) = true /\
  Car.x (Game.car g') = 255 /\ Car.y (Game.car g') = 409 /\
  Car.speed (Game.car g') = 0.
Proof.
  cbv zeta. rewrite updateCar_physics by reflexivity.
  rewrite integrate_at_rest by reflexivity.
  split; [now rewrite onParkedCar_hit|].
  unfold resolveCollision. rewrite onParkedCar_hit.
  pose proof (onCollision_fields (Car.x (Game.car onParkedCar))
                (Car.y (Game.car onParkedCar)) 1000 1000
                (Game.set_collisionMTV (Some (Pt.mk 0 45))
                   (Game.set_lastCollision
                      (Some (HitCar (Npc.mk 255 420 90 45 0 8 6))) onParkedCar)))
    as Hf.
  cbv zeta in Hf. revert Hf.
  generalize (onCollision (Car.x (Game.car onParkedCar))
                (Car.y (Game.car onParkedCar)) 1000 1000
                (Game.set_collisionMTV (Some (Pt.mk 0 45))
                   (Game.set_lastCollision
                      (Some (HitCar (Npc.mk 255 420 90 45 0 8 6))) onParkedCar))).
  intros g2 (Ecar & Euntil & Edir & Espeed & Edur & EW & EH).
  cbn in Euntil, Edir, Espeed, Edur, EW, EH.
  assert (Car.width (Game.car g2) = 90 /\ Car.x (Game.car g2) = 255 /\
          Car.y (Game.car g2) = 420 /\ Car.speed (Game.car g2) = 0)
    as (Ew & Ex & Ey & Es) by (rewrite Ecar; repeat split).
  clear Ecar.
  rewrite (hypot_eval 0 45 45) in Edir by lra.
  unfold or_one in Edir. destruct (Req_dec_T 45 0) as [Hz|_]; [lra|].
  pose proof (boundary_then_bounce (1 / 20) 1000 800 600 90 g2 EW EH Ew) as Hb.
  destruct (wrapAndClamp_frame (1 / 20) 1000 g2) as (Eu3 & Ed3 & Ev3).
  destruct (bounded_car_moved (1 / 20) 1000 g2) as (x4 & y4 & Ecar4).
  cbv zeta in Hb. revert Hb Eu3 Ed3 Ev3 Ecar4.
  generalize (wrapAndClamp g2). intros g3.
  generalize (applyBounce (1 / 20) 1000 g3). intros g' Hb Eu3 Ed3 Ev3 Ecar4.
  destruct Hb as (Hx3 & Hy3 & _ & Hon & _); try lra.
  rewrite Eu3, Ed3, Ev3, Euntil in Hon.
  destruct (Hon ltac:(lra)) as [Hx Hy].
  rewrite Edir in Hx, Hy. cbn [Pt.x Pt.y] in Hx, Hy.
  assert (bounceTravel (1 / 20) 1000 g2 = 11) as Ev.
  { unfold bounceTravel. rewrite Euntil, Edur, Espeed.
    replace ((1000 + 140 - 1000) / 140) with 1 by lra.
    rewrite (Rmin_left 1 1), (Rmax_right 0 1) by lra. lra. }
  rewrite Ev in Hx, Hy. rewrite Ex in Hx3. rewrite Ey in Hy3.
  destruct Hx3 as (_ & _ & Hx3). rewrite Hx3 in Hx by lra.
  rewrite Hy3 in Hy.
  destruct Hx as (_ & _ & Hx).
  split; [rewrite Hx; lra|]. split.
  - rewrite Hy. split_minmax; lra.
  - rewrite Ecar4. exact Es.
Qed.

(** Settle the comparisons of literals in the goal. *)
Ltac eval_cmp :=
  repeat match goal with
         | |- context [Rltb ?a ?b] =>
             first [ rewrite (proj2 (Rltb_true a b)) by lra
                   | rewrite (proj2 (Rltb_false a b)) by lra ]
         end.

(** Where the constructor puts the player's car on an 800 by 600 canvas. *)
Lemma newGame_car : Game.car (newGame 800 600) = moved 110 355 initialCar.
Proof.
  unfold newGame, recomputeParkingLayout.
  cbv beta iota zeta delta
    [setInitialCarPosition moved initialCar Game.car Game.set_car
     Game.set_parkingSpace Game.set_parkedCars Game.centerX Game.centerY
     Game.curbOffsetY Game.laneGapFromCurb Game.gapBetweenCars
     Car.set_x Car.set_y Car.set_speed Car.set_steerAngle
     Car.set_lastDirection Car.set_angle
     Car.x Car.y Car.width Car.height Car.angle Car.speed Car.maxSpeed
     Car.acceleration Car.friction Car.steerAngle Car.maxSteerAngle
     Car.wheelbase Car.steerChangeRate Car.collisionInsetX Car.collisionInsetY
     Car.collided Car.lastDirection].
  f_equal; lra.
Qed.

(** A press on the centre of the car starts a drag. *)
Lemma pointer_on_initial_car : isPointerOnCar 110 355 (newGame 800 600) = true.
Proof.
  unfold isPointerOnCar. rewrite newGame_car.
  change (playerPolygon (moved 110 355 initialCar))
    with (getChamferedRectPolygon 110 355 90 45 0 8 6).
  rewrite car_footprint. unfold pointInPolygon.
  cbn [length seq fold_left nth Nat.sub Pt.x Pt.y].
  eval_cmp. reflexivity.
Qed.

Lemma dragged_car :
  Car.set_collided false
    (Car.set_y (clamp45 600 (420 + (Car.y (moved 110 355 initialCar) - 355)))
       (Car.set_x (clamp45 800 (255 + (Car.x (moved 110 355 initialCar) - 110)))
          (Car.set_speed 0 (moved 110 355 initialCar)))) =
  moved 255 420 initialCar.
Proof.
  cbv beta iota zeta delta
    [moved initialCar clamp45
     Car.set_x Car.set_y Car.set_speed Car.set_collided
     Car.x Car.y Car.width Car.height Car.angle Car.speed Car.maxSpeed
     Car.acceleration Car.friction Car.steerAngle Car.maxSteerAngle
     Car.wheelbase Car.steerChangeRate Car.collisionInsetX Car.collisionInsetY
     Car.collided Car.lastDirection].
  f_equal; split_minmax; lra.
Qed.

Lemma drag_and_drop (g : Game.t) (c c' : Car.t) :
  Game.isDragging g = false ->
  Game.dragOffsetX g = 0 -> Game.dragOffsetY g = 0 ->
  Game.set_isDragging false
    (Game.set_car c
       (Game.set_car c'
          (Game.set_dragOffsetY 0
             (Game.set_dragOffsetX 0 (Game.set_isDragging true g))))) =
  Game.set_car c g.
Proof. intros Hd Hx Hy. destruct g. cbn in Hd, Hx, Hy. subst. reflexivity. Qed.

Lemma drag_onto_parked_car (g : Game.t) :
  isPointerOnCar 110 355 g = true ->
  Game.isDragging g = false ->
  Game.dragOffsetX g = 0 -> Game.dragOffsetY g = 0 ->
  Game.canvasWidth g = 800 -> Game.canvasHeight g = 600 ->
  Game.car g = moved 110 355 initialCar ->
  endDrag (mousemove 255 420 (mousedown 110 355 g)) =
  Game.set_car (moved 255 420 initialCar) g.
Proof.
  intros Hp Hd Hx Hy HW HH Hc.
  unfold mousedown. rewrite Hp.
  unfold mousemove. cbn [Game.isDragging Game.set_isDragging Game.set_car
                           Game.set_dragOffsetX Game.set_dragOffsetY negb].
  unfold endDrag.
  cbn [Game.car Game.set_car Game.set_isDragging Game.set_dragOffsetX
         Game.set_dragOffsetY Game.dragOffsetX Game.dragOffsetY
         Game.canvasWidth Game.canvasHeight].
  rewrite Hc, HW, HH, dragged_car.
  change (Car.x (moved 110 355 initialCar)) with 110.
  change (Car.y (moved 110 355 initialCar)) with 355.
  replace (110 - 110) with 0 by lra. replace (355 - 355) with 0 by lra.
  now apply drag_and_drop.
Qed.

(** [onParkedCar] is the state after pressing on the car, moving the pointer
    to (255, 420) and releasing. *)
Lemma onParkedCar_dragged :
  endDrag (mousemove 255 420 (mousedown 110 355 (newGame 800 600))) = onParkedCar.
Proof.
  apply drag_onto_parked_car; try reflexivity.
  - apply pointer_on_initial_car.
  - apply newGame_car.
Qed.

Lemma onParkedCar_reachable : reachable 800 600 onParkedCar.
Proof.
  rewrite <- onParkedCar_dragged.
  eapply reach_step; [eapply reach_step; [eapply reach_step; [apply reach_new|]|]|].
  - apply step_mousedown.
  - apply step_mousemove.
  - apply step_endDrag.
Qed.

(** C2, as stated, fails.  The state [onParkedCar] is reached by dragging
    the car onto the first parked car; in the next tick the collision is
    detected, and the car, which starts the tick at (255, 420), is rolled
    back and then pushed by the bounce impulse this collision arms: it ends
    the tick at (255, 409). *)
Lemma rollback_position_is_not_final :
  let g' := updateCar (1 / 20) 1000 1000 1000 onParkedCar in
  reachable 800 600 onParkedCar /\
  Game.winResetAtMs onParkedCar = None /\
  Game.isDragging onParkedCar = false /\
  fst (checkCollisions (integrate (1 / 20) onParkedCar)) = true /\
  Car.y (Game.car onParkedCar) = 420 /\
  Car.y (Game.car g') = 409 /\
  Car.y (Game.car g') <> Car.y (Game.car onParkedCar).
Proof.
  destruct onParkedCar_tick as (Hhit & _ & Hy & _).
  cbv zeta. split; [exact onParkedCar_reachable|].
  split; [reflexivity|]. split; [reflexivity|]. split; [exact Hhit|].
  split; [reflexivity|]. split; [exact Hy|].
  rewrite Hy. change (Car.y (Game.car onParkedCar)) with 420. lra.
Qed.

Lemma collision_rolls_back_before_bounce_witness :
  let g := onParkedCar in
  let g' := updateCar 0 1000 1000 1000 g in
  Car.speed (Game.car g') = 0 /\ Car.collided (Game.car g') = true /\
  Car.x (Game.car g') = Car.x (Game.car g) /\
  Car.y (Game.car g') = Car.y (Game.car g).
Proof.
  intros g g'.
  assert (fst (checkCollisions (integrate 0 g)) = true) as Hhit.
  { subst g. rewrite integrate_at_rest by reflexivity. now rewrite onParkedCar_hit. }
  destruct (collision_rolls_back_before_bounce 0 1000 1000 1000 g
              eq_refl eq_refl Hhit)
    as (_ & _ & _ & Hs & Hc & _ & _ & _ & _ & Hpos).
  split; [exact Hs|]. split; [exact Hc|].
  apply Hpos; [subst g; cbn; lra|subst g; cbn; lra|now right].
Defined.

(** ** Zero insets *)

Lemma chamfer_zero_inset (cx cy width height angle : R) :
  exists r0 r1 r2 r3,
    getRectangleCorners cx cy width height angle = [r0; r1; r2; r3] /\
    getChamferedRectPolygon cx cy width height angle 0 0 = doubled r0 r1 r2 r3.
Proof.
  unfold getRectangleCorners, getChamferedRectPolygon. cbn [map].
  do 4 eexists. split; [reflexivity|].
  replace (Rmin (Rmax 0 0) (Rmax 0 (width / 2 - 1))) with 0 by (split_minmax; lra).
  replace (Rmin (Rmax 0 0) (Rmax 0 (height / 2 - 1))) with 0 by (split_minmax; lra).
  unfold doubled, place. cbn [Pt.x Pt.y].
  repeat (apply f_equal2; [apply f_equal2; ring|]); reflexivity.
Qed.

(** A zero-length edge gives the zero axis. *)
Lemma edgeAxis_same (p : Pt.t) : edgeAxis p p = origin.
Proof.
  unfold edgeAxis, hypot, origin.
  replace (Pt.x p - Pt.x p) with 0 by lra.
  replace (Pt.y p - Pt.y p) with 0 by lra.
  replace (- 0 * - 0 + 0 * 0) with 0 by lra.
  rewrite sqrt_0. unfold or_one. destruct (Req_dec_T 0 0) as [_|Hn]; [|lra].
  f_equal; lra.
Qed.

Lemma project_origin (points : polygon) :
  points <> [] -> projectPointsOnAxis points origin = (Fin 0, Fin 0).
Proof.
  intros Hne. destruct points as [|p points]; [easy|].
  apply project_eval.
  - intros q _. unfold dot, origin. cbn. lra.
  - exists p. split; [now left|]. unfold dot, origin. cbn. lra.
  - exists p. split; [now left|]. unfold dot, origin. cbn. lra.
Qed.

(** On the zero axis every overlap is [<= 0], whatever the polygons. *)
Lemma overlap_origin (pointsA pointsB : polygon) :
  getAxes pointsA ++ getAxes pointsB <> [] ->
  num_le (overlapOn pointsA pointsB origin) (Fin 0) = true.
Proof.
  intros Hax. unfold overlapOn.
  destruct pointsA as [|a A']; destruct pointsB as [|b B'].
  - now contradiction Hax.
  - rewrite project_empty, project_origin by easy. reflexivity.
  - rewrite project_empty, project_origin by easy. reflexivity.
  - rewrite !project_origin by easy. cbn.
    rewrite Rmin_left, Rmax_left by lra. apply Rleb_true. lra.
Qed.

Lemma getAxes_doubled (r0 r1 r2 r3 : Pt.t) :
  getAxes (doubled r0 r1 r2 r3) =
  [edgeAxis r0 r1; origin; edgeAxis r1 r2; origin;
   edgeAxis r2 r3; origin; edgeAxis r3 r0; origin].
Proof. unfold doubled. rewrite getAxes8, !edgeAxis_same. reflexivity. Qed.

(** A polygon with a repeated vertex never collides under
    [polygonCollisionMTV], on either side. *)
Lemma doubled_never_hits (r0 r1 r2 r3 : Pt.t) (other : polygon) :
  polygonCollisionMTV (doubled r0 r1 r2 r3) other = Hit.mk false None /\
  polygonCollisionMTV other (doubled r0 r1 r2 r3) = Hit.mk false None.
Proof.
  unfold polygonCollisionMTV. split; apply mtvLoop_separating; exists origin.
  - split.
    + apply in_or_app. left. rewrite getAxes_doubled. cbn. auto.
    + apply overlap_origin. rewrite getAxes_doubled. discriminate.
  - split.
    + apply in_or_app. right. rewrite getAxes_doubled. cbn. auto.
    + apply overlap_origin. rewrite getAxes_doubled.
      intros H. apply app_eq_nil in H. destruct H as [_ H]. discriminate.
Qed.

(** [polygonCollisionMTV] on zero-inset footprints: never a collision. *)
Lemma zero_inset_never_hits (cx cy w h a : R) (other : polygon) :
  Hit.collides
    (polygonCollisionMTV (getChamferedRectPolygon cx cy w h a 0 0) other) = false /\
  Hit.collides
    (polygonCollisionMTV other (getChamferedRectPolygon cx cy w h a 0 0)) = false.
Proof.
  destruct (chamfer_zero_inset cx cy w h a) as (r0 & r1 & r2 & r3 & _ & ->).
  destruct (doubled_never_hits r0 r1 r2 r3 other) as [-> ->]. now split.
Qed.

Lemma doubled_points (r0 r1 r2 r3 q : Pt.t) :
  In q (doubled r0 r1 r2 r3) <-> In q [r0; r1; r2; r3].
Proof. unfold doubled. cbn. tauto. Qed.

Lemma separated_doubled (a0 a1 a2 a3 b0 b1 b2 b3 axis : Pt.t) :
  separatedOn (doubled a0 a1 a2 a3) (doubled b0 b1 b2 b3) axis =
  separatedOn [a0; a1; a2; a3] [b0; b1; b2; b3] axis.
Proof.
  unfold separatedOn.
  rewrite (project_same_points axis _ _ (doubled_points a0 a1 a2 a3)).
  rewrite (project_same_points axis _ _ (doubled_points b0 b1 b2 b3)).
  reflexivity.
Qed.

Lemma separated_origin (pointsA pointsB : polygon) :
  pointsA <> [] -> pointsB <> [] -> separatedOn pointsA pointsB origin = false.
Proof.
  intros HA HB. unfold separatedOn. rewrite !project_origin by assumption.
  cbn. rewrite (proj2 (Rltb_false 0 0)) by lra. reflexivity.
Qed.

(** The sibling predicate [polygonCollision] on two zero-inset footprints
    is the plain-rectangle test on the same two rectangles. *)
Lemma zero_inset_polygonCollision (x1 y1 w1 h1 a1 x2 y2 w2 h2 a2 : R) :
  polygonCollision (getChamferedRectPolygon x1 y1 w1 h1 a1 0 0)
                   (getChamferedRectPolygon x2 y2 w2 h2 a2 0 0) =
  rectangleCollision x1 y1 w1 h1 a1 x2 y2 w2 h2 a2.
Proof.
  unfold rectangleCollision, polygonCollision.
  destruct (chamfer_zero_inset x1 y1 w1 h1 a1) as (p0 & p1 & p2 & p3 & -> & ->).
  destruct (chamfer_zero_inset x2 y2 w2 h2 a2) as (q0 & q1 & q2 & q3 & -> & ->).
  rewrite !getAxes_doubled, !getAxes4.
  cbn [app forallb]. rewrite !separated_doubled.
  rewrite (separated_origin [p0; p1; p2; p3] [q0; q1; q2; q3]) by discriminate.
  cbn [negb andb]. reflexivity.
Qed.

(** Any polygon collides with itself under the strict separation test. *)
Lemma polygonCollision_self (points : polygon) : polygonCollision points points = true.
Proof.
  apply polygonCollision_true. intros axis Hin. unfold separatedOn.
  destruct points as [|p points].
  - apply in_app_or in Hin. cbn in Hin. tauto.
  - destruct (project_nonempty axis (p :: points) ltac:(easy))
      as (m & M & -> & Hm & _).
    cbn. rewrite (proj2 (Rltb_false M m)) by lra. reflexivity.
Qed.

(** C5 at its failing input.  The zero-inset footprint of the 90 by 45
    rectangle at (255, 420), heading 0, is the rectangle's corners with each
    corner doubled; the plain-rectangle test and [polygonCollision] report
    that the footprint collides with itself, and [polygonCollisionMTV]
    reports no collision. *)
Theorem zero_inset_self_collision_missed :
  let rect := getRectangleCorners 255 420 90 45 0 in
  let footprint := getChamferedRectPolygon 255 420 90 45 0 0 0 in
  rect = [Pt.mk 210 (795 / 2); Pt.mk 300 (795 / 2);
          Pt.mk 300 (885 / 2); Pt.mk 210 (885 / 2)] /\
  footprint = [Pt.mk 210 (795 / 2); Pt.mk 300 (795 / 2); Pt.mk 300 (795 / 2);
               Pt.mk 300 (885 / 2); Pt.mk 300 (885 / 2); Pt.mk 210 (885 / 2);
               Pt.mk 210 (885 / 2); Pt.mk 210 (795 / 2)] /\
  rectangleCollision 255 420 90 45 0 255 420 90 45 0 = true /\
  polygonCollision footprint footprint = true /\
  polygonCollisionMTV footprint footprint = Hit.mk false None.
Proof.
  cbv zeta. split; [|split; [|split; [|split]]].
  - unfold getRectangleCorners. cbn [map]. unfold place. cbn [Pt.x Pt.y].
    rewrite cos_0, sin_0. poly_eq.
  - unfold getChamferedRectPolygon.
    replace (Rmin (Rmax 0 0) (Rmax 0 (90 / 2 - 1))) with 0 by (split_minmax; lra).
    replace (Rmin (Rmax 0 0) (Rmax 0 (45 / 2 - 1))) with 0 by (split_minmax; lra).
    cbn [map]. unfold place. cbn [Pt.x Pt.y]. rewrite cos_0, sin_0. poly_eq.
  - rewrite <- zero_inset_polygonCollision. apply polygonCollision_self.
  - apply polygonCollision_self.
  - destruct (chamfer_zero_inset 255 420 90 45 0) as (r0 & r1 & r2 & r3 & _ & ->).
    apply doubled_never_hits.
Qed.

(** ** Squares *)

Lemma square_points (x : R) :
  square x = [Pt.mk (x - 1) (-1); Pt.mk (x + 1) (-1);
              Pt.mk (x + 1) 1; Pt.mk (x - 1) 1].
Proof.
  unfold square, getRectangleCorners. cbn [map]. unfold place. cbn [Pt.x Pt.y].
  rewrite cos_0, sin_0. poly_eq.
Qed.

Lemma square_axes (x : R) : getAxes (square x) = squareAxes.
Proof.
  rewrite square_points, getAxes4. unfold squareAxes.
  repeat (apply f_equal2; [|try reflexivity]);
    apply (edgeAxis_eval _ _ 2); cbn; lra.
Qed.

Lemma square_proj (x : R) :
  projectPointsOnAxis (square x) (Pt.mk 0 1) = (Fin (-1), Fin 1) /\
  projectPointsOnAxis (square x) (Pt.mk (-1) 0) = (Fin (- x - 1), Fin (- x + 1)) /\
  projectPointsOnAxis (square x) (Pt.mk 0 (-1)) = (Fin (-1), Fin 1) /\
  projectPointsOnAxis (square x) (Pt.mk 1 0) = (Fin (x - 1), Fin (x + 1)).
Proof.
  rewrite square_points. repeat split.
  - eval_proj (-1) 1.
  - eval_proj (- x - 1) (- x + 1).
  - eval_proj (-1) 1.
  - eval_proj (x - 1) (x + 1).
Qed.

(** The overlaps of the square at 0 and the square at [x], for [0 <= x]. *)
Lemma square_overlaps (x : R) :
  0 <= x ->
  Forall2 (fun axis o => overlapOn (square 0) (square x) axis = Fin o)
    squareAxes [2; 2 - x; 2; 2 - x].
Proof.
  intros Hx.
  destruct (square_proj 0) as (A0 & A1 & A2 & A3).
  destruct (square_proj x) as (B0 & B1 & B2 & B3).
  unfold squareAxes.
  repeat constructor;
    (eapply overlap_eval; [eassumption|eassumption|split_minmax; lra]).
Qed.

Lemma square_center (x : R) : getPolygonCenter (square x) = Pt.mk x 0.
Proof.
  rewrite getPolygonCenter_mean by (rewrite square_points; discriminate).
  rewrite square_points. unfold sumX, sumY. cbn. f_equal; lra.
Qed.

Lemma square_axis_overlap (x : R) (axis : Pt.t) :
  0 <= x -> In axis (getAxes (square 0) ++ getAxes (square x)) ->
  overlapOn (square 0) (square x) axis = Fin 2 \/
  overlapOn (square 0) (square x) axis = Fin (2 - x).
Proof.
  intros Hx Hin. rewrite !square_axes in Hin.
  pose proof (square_overlaps x Hx) as H. unfold squareAxes in *.
  repeat match type of H with
         | Forall2 _ (_ :: _) _ =>
             let E := fresh "E" in
             apply Forall2_cons_iff in H; destruct H as [E H]
         end.
  cbn [In app] in Hin.
  repeat (destruct Hin as [<-|Hin]; [auto|]). contradiction.
Qed.

(** Two squares overlapping by 1: the vector is (1, 0), from the first
    square into the second. *)
Lemma overlapping_squares_hit :
  polygonCollisionMTV (square 0) (square 1) = Hit.mk true (Some (Pt.mk 1 0)).
Proof.
  unfold polygonCollisionMTV. rewrite !square_axes, !square_center.
  pose proof (square_overlaps 1 ltac:(lra)) as H. unfold squareAxes in *.
  repeat match type of H with
         | Forall2 _ (_ :: _) _ =>
             let E := fresh "E" in
             apply Forall2_cons_iff in H; destruct H as [E H]
         end.
  cbn [app].
  rewrite (mtvLoop_first _ _ _ _ _ _ _ E) by lra.
  rewrite (mtvLoop_better _ _ _ _ _ _ _ _ _ E0) by lra.
  rewrite (mtvLoop_keep _ _ _ _ _ _ _ _ _ E1) by lra.
  rewrite (mtvLoop_keep _ _ _ _ _ _ _ _ _ E2) by lra.
  rewrite (mtvLoop_keep _ _ _ _ _ _ _ _ _ E) by lra.
  rewrite (mtvLoop_keep _ _ _ _ _ _ _ _ _ E0) by lra.
  rewrite (mtvLoop_keep _ _ _ _ _ _ _ _ _ E1) by lra.
  rewrite (mtvLoop_keep _ _ _ _ _ _ _ _ _ E2) by lra.
  cbn [mtvLoop]. unfold orient. cbn [Pt.x Pt.y].
  rewrite (proj2 (Rltb_true _ _)) by lra.
  do 2 f_equal. f_equal; lra.
Qed.

Lemma mtv_is_least_overlap_axis_witness :
  exists axis o,
    In axis (getAxes (square 0) ++ getAxes (square 1)) /\
    overlapOn (square 0) (square 1) axis = Fin o /\ 0 < o /\
    (forall axis' o',
        In axis' (getAxes (square 0) ++ getAxes (square 1)) ->
        overlapOn (square 0) (square 1) axis' = Fin o' -> o <= o') /\
    polygonCollisionMTV (square 0) (square 1) =
      Hit.mk true
        (Some (Pt.mk
                 (Pt.x (orient (getPolygonCenter (square 0))
                               (getPolygonCenter (square 1)) axis) * o)
                 (Pt.y (orient (getPolygonCenter (square 0))
                               (getPolygonCenter (square 1)) axis) * o))) /\
    exists minA maxA minB maxB,
      extent (square 0) axis minA maxA /\
      extent (square 1) axis minB maxB /\
      o = Rmin maxA maxB - Rmax minA minB.
Proof.
  destruct (mtv_is_least_overlap_axis (square 0) (square 1))
    as (_ & _ & _ & Hext & _ & Hyes).
  - rewrite square_points. discriminate.
  - rewrite square_points. discriminate.
  - destruct Hyes as (axis & o & Hin & Eo & Ho & Hmin & Eres & _).
    + intros axis o Hin Eo.
      destruct (square_axis_overlap 1 axis ltac:(lra) Hin) as [E|E];
        rewrite E in Eo; injection Eo as <-; lra.
    + exists axis, o.
      destruct (Hext axis) as (mA & MA & mB & MB & HA & HB & _ & _ & E).
      rewrite Eo in E. injection E as E.
      repeat (split; [assumption|]).
      exists mA, MA, mB, MB. auto.
Defined.

(** Two squares sharing an edge: an example of the touching case of C10. *)
Lemma predicates_differ_only_at_touching_witness :
  polygonCollision (square 0) (square 2) = true /\
  Hit.collides (polygonCollisionMTV (square 0) (square 2)) = false.
Proof.
  destruct (predicates_differ_only_at_touching (square 0) (square 2))
    as (_ & _ & Htouch).
  apply Htouch.
  - intros axis Hin.
    destruct (square_axis_overlap 2 axis ltac:(lra) Hin) as [-> | ->];
      cbn; apply Rleb_true; lra.
  - exists (Pt.mk 1 0). split.
    + rewrite !square_axes. cbn. auto 10.
    + pose proof (square_overlaps 2 ltac:(lra)) as H. unfold squareAxes in H.
      repeat match type of H with
             | Forall2 _ (_ :: _) _ =>
                 let E := fresh "E" in
                 apply Forall2_cons_iff in H; destruct H as [E H]
             end.
      rewrite E2. f_equal. lra.
Defined.

(** ** Further properties of the collision tests *)

Lemma num_min_comm (a b : num) : num_min a b = num_min b a.
Proof. destruct a, b; cbn; try reflexivity. now rewrite Rmin_comm. Qed.

Lemma num_max_comm (a b : num) : num_max a b = num_max b a.
Proof. destruct a, b; cbn; try reflexivity. now rewrite Rmax_comm. Qed.

Lemma overlapOn_sym (A B : polygon) (axis : Pt.t) :
  overlapOn A B axis = overlapOn B A axis.
Proof.
  unfold overlapOn.
  destruct (projectPointsOnAxis A axis) as [mA MA].
  destruct (projectPointsOnAxis B axis) as [mB MB].
  now rewrite (num_min_comm MA), (num_max_comm mA).
Qed.

Lemma separatedOn_sym (A B : polygon) (axis : Pt.t) :
  separatedOn A B axis = separatedOn B A axis.
Proof. now rewrite !separated_negative, overlapOn_sym. Qed.

Lemma mtv_collides_iff (A B : polygon) :
  Hit.collides (polygonCollisionMTV A B) = true <->
  forall axis, In axis (getAxes A ++ getAxes B) ->
               num_le (overlapOn A B axis) (Fin 0) = false.
Proof.
  split.
  - intros Hc axis Hin.
    destruct (num_le (overlapOn A B axis) (Fin 0)) eqn:E; [|reflexivity].
    unfold polygonCollisionMTV in Hc.
    rewrite mtvLoop_separating in Hc; [discriminate|].
    exists axis. auto.
  - intros H. now apply mtvLoop_collides.
Qed.

(** X1.  Both collision tests are symmetric: exchanging the two polygons
    changes neither the answer of [polygonCollision] nor whether
    [polygonCollisionMTV] reports a collision, for any two vertex lists. *)
Theorem collision_tests_symmetric (A B : polygon) :
  polygonCollision A B = polygonCollision B A /\
  Hit.collides (polygonCollisionMTV A B) = Hit.collides (polygonCollisionMTV B A).
Proof.
  split; apply eq_true_iff_eq.
  - rewrite !polygonCollision_true.
    split; intros H axis Hin; rewrite separatedOn_sym; apply H;
      apply in_app_iff; apply in_app_iff in Hin; tauto.
  - rewrite !mtv_collides_iff.
    split; intros H axis Hin; rewrite overlapOn_sym; apply H;
      apply in_app_iff; apply in_app_iff in Hin; tauto.
Qed.

Lemma hull_nonempty (points : polygon) (q : Pt.t) : hull points q -> points <> [].
Proof. induction 1 as [p Hin| ]; [intros ->; contradiction | assumption]. Qed.

Lemma hull_projection (points : polygon) (axis : Pt.t) (m M : R) (q : Pt.t) :
  projectPointsOnAxis points axis = (Fin m, Fin M) ->
  hull points q -> m <= dot q axis <= M.
Proof.
  intros E Hq.
  assert (forall p, In p points -> m <= dot p axis <= M) as Hb.
  { pose proof (hull_nonempty _ _ Hq) as Hne.
    destruct (project_nonempty axis points Hne) as (m' & M' & E' & _ & Hb & _).
    rewrite E in E'. injection E' as -> ->. exact Hb. }
  induction Hq as [p Hin|p q t _ IHp _ IHq Ht].
  - now apply Hb.
  - unfold dot in *. cbn [Pt.x Pt.y].
    replace (((1 - t) * Pt.x p + t * Pt.x q) * Pt.x axis +
             ((1 - t) * Pt.y p + t * Pt.y q) * Pt.y axis)
      with ((1 - t) * (Pt.x p * Pt.x axis + Pt.y p * Pt.y axis) +
            t * (Pt.x q * Pt.x axis + Pt.y q * Pt.y axis)) by ring.
    split; nra.
Qed.

Lemma far_squares_miss : polygonCollision (square 0) (square 3) = false.
Proof.
  apply polygonCollision_false. exists (Pt.mk 1 0). split.
  - rewrite !square_axes. unfold squareAxes. cbn [app In]. tauto.
  - destruct (square_proj 0) as (_ & _ & _ & A3).
    destruct (square_proj 3) as (_ & _ & _ & B3).
    unfold separatedOn. rewrite A3, B3. cbn [num_lt].
    apply orb_true_iff. left. apply Rltb_true. lra.
Qed.

(** X2.  The separating-axis test is sound: when [polygonCollision] answers
    false, no point lies in the convex hulls of both vertex lists. *)
Theorem no_collision_means_disjoint (A B : polygon) (q : Pt.t) :
  polygonCollision A B = false -> hull A q -> ~ hull B q.
Proof.
  intros Hno HA HB.
  assert (exists axis, separatedOn A B axis = true) as (axis & Hs).
  { unfold polygonCollision in Hno.
    destruct (forallb_forall (fun axis => negb (separatedOn A B axis))
                (getAxes A ++ getAxes B)) as [_ Hall].
    destruct (existsb (fun axis => separatedOn A B axis) (getAxes A ++ getAxes B)) eqn:E.
    - apply existsb_exists in E as (axis & _ & Hs). now exists axis.
    - rewrite Hall in Hno; [discriminate|].
      intros axis Hin. destruct (separatedOn A B axis) eqn:Hs; [|reflexivity].
      assert (existsb (fun axis => separatedOn A B axis) (getAxes A ++ getAxes B) = true)
        by (apply existsb_exists; eauto).
      congruence. }
  destruct (overlap_nonempty A B axis (hull_nonempty _ _ HA) (hull_nonempty _ _ HB))
    as (mA & MA & mB & MB & EA & EB & _ & _ & _ & Hsep).
  pose proof (hull_projection _ _ _ _ _ EA HA).
  pose proof (hull_projection _ _ _ _ _ EB HB).
  rewrite Hs in Hsep. symmetry in Hsep. apply orb_true_iff in Hsep as [H1|H1];
    apply Rltb_true in H1; lra.
Qed.

Lemma no_collision_means_disjoint_witness :
  hull (square 0) (Pt.mk (0 - 1) (-1)) /\ ~ hull (square 3) (Pt.mk (0 - 1) (-1)).
Proof.
  assert (hull (square 0) (Pt.mk (0 - 1) (-1))) as Hin
      by (apply hull_vertex; rewrite square_points; now left).
  split; [exact Hin|].
  exact (no_collision_means_disjoint (square 0) (square 3) (Pt.mk (0 - 1) (-1))
           far_squares_miss Hin).
Defined.

(** ** What a session never changes *)

Lemma accelerate_build dt keys c : build (accelerate dt keys c) = build c.
Proof.
  unfold accelerate.
  destruct (Keys.up keys); [|destruct (Keys.down keys)]; try reflexivity.
  destruct (Rltb 0 _); [|destruct (Rltb _ 0)]; reflexivity.
Qed.

Lemma steer_build dt keys c : build (steer dt keys c) = build c.
Proof.
  unfold steer. destruct (Keys.left keys); [|destruct (Keys.right keys)]; reflexivity.
Qed.

Lemma turn_build dt c : build (turn dt c) = build c.
Proof.
  unfold turn. destruct (_ && _); [|reflexivity]. cbv zeta.
  destruct (Rltb 0 _); reflexivity.
Qed.

Lemma integrate_build dt g : build (Game.car (integrate dt g)) = build (Game.car g).
Proof.
  unfold integrate.
  change (build (advance dt (turn dt (steer dt (Game.keys g)
            (accelerate dt (Game.keys g) (Game.car g))))) = build (Game.car g)).
  transitivity (build (turn dt (steer dt (Game.keys g)
            (accelerate dt (Game.keys g) (Game.car g))))); [reflexivity|].
  now rewrite turn_build, steer_build, accelerate_build.
Qed.

Lemma integrate_rest dt g :
  fixture (integrate dt g) = fixture g /\ layout (integrate dt g) = layout g.
Proof. split; reflexivity. Qed.

(** A tick changes neither the fixtures, nor the lane, nor the car's build. *)
Lemma updateCar_frame (dt n1 n2 n3 : R) (g : Game.t) :
  fixture (updateCar dt n1 n2 n3 g) = fixture g /\
  layout (updateCar dt n1 n2 n3 g) = layout g /\
  build (Game.car (updateCar dt n1 n2 n3 g)) = build (Game.car g).
Proof.
  unfold updateCar.
  destruct (Game.winResetAtMs g); [repeat split|].
  destruct (Game.isDragging g); [repeat split|].
  cbv zeta.
  destruct (integrate_rest dt g) as [<- <-].
  rewrite <- (integrate_build dt g).
  generalize (integrate dt g) as G. generalize (Car.x (Game.car g)) as px.
  generalize (Car.y (Game.car g)) as py. intros py px G.
  destruct (resolveCollision_state px py n1 n2 G) as (m & l & _ & ->).
  match goal with
  | |- context [applyBounce _ _ (wrapAndClamp ?g2)] => set (G2 := g2)
  end.
  destruct (wrapAndClamp_moved G2) as (x1 & y1 & ->).
  destruct (applyBounce_moved dt n3
              (Game.set_car (moved x1 y1 (Game.car G2)) G2)) as (x2 & y2 & ->).
  subst G2.
  destruct (fst (checkCollisions G)); repeat split.
Qed.

Lemma latchWin_frame (now : R) (g : Game.t) :
  fixture (latchWin now g) = fixture g /\
  layout (latchWin now g) = layout g /\
  Game.car (latchWin now g) = Game.car g.
Proof.
  unfold latchWin.
  destruct (winCondition g); [destruct (negb _)|destruct (Game.winResetAtMs g)];
    repeat split.
Qed.

(** Laying the lane out again for any gap gives the lane of that gap. *)
Lemma relayout (W H v : R) (g : Game.t) :
  laidOut W H g ->
  laidOut W H (recomputeParkingLayout (Game.set_gapBetweenCars v g)) /\
  Game.gapBetweenCars (recomputeParkingLayout (Game.set_gapBetweenCars v g)) = v /\
  Game.car (recomputeParkingLayout (Game.set_gapBetweenCars v g)) = Game.car g.
Proof.
  intros (Hf & Hb & Hl). split; [|split; reflexivity].
  split; [exact Hf|split; [exact Hb|]].
  unfold layout, laneFor in *.
  injection Hf as HW HH Hcx Hcy _ _ Hoff Hlane _ _ _ _.
  injection Hl as Hcars Hspace.
  unfold recomputeParkingLayout.
  cbn [Game.parkedCars Game.parkingSpace Game.gapBetweenCars
       Game.set_parkingSpace Game.set_parkedCars Game.set_gapBetweenCars
       Game.centerX Game.centerY Game.curbOffsetY Game.laneGapFromCurb].
  rewrite Hcars, Hspace, Hcx, Hcy, Hoff, Hlane.
  unfold Npc.set_y, Npc.set_x, Space.set_width, Space.set_y, Space.set_x.
  cbn [fst snd Npc.width Space.height Space.x Space.y Space.width Npc.x Npc.y
       Npc.height Npc.angle Npc.collisionInsetX Npc.collisionInsetY].
  replace (H / 2 + 160 - 10 - 60 / 2) with (H / 2 + 120) by lra. reflexivity.
Qed.

Lemma setInitialCarPosition_frame (g : Game.t) :
  fixture (setInitialCarPosition g) = fixture g /\
  layout (setInitialCarPosition g) = layout g /\
  build (Game.car (setInitialCarPosition g)) = build (Game.car g).
Proof. repeat split. Qed.

Lemma nextLevel_laidOut (W H : R) (g : Game.t) :
  laidOut W H g -> laidOut W H (nextLevel g).
Proof.
  intros Hl.
  assert (laidOut W H (Game.set_winCount (Game.winCount g + 1) g)) as Hl1
      by exact Hl.
  destruct (relayout W H
              (Rmax (Game.minGap g) (Game.gapBetweenCars g - Game.gapStep g))
              _ Hl1) as ((Hf & Hb & Hlay) & _).
  unfold nextLevel. cbv zeta.
  repeat split; [exact Hf|exact Hb|exact Hlay].
Qed.

Lemma checkParking_laidOut (W H n1 n2 : R) (g : Game.t) :
  laidOut W H g -> laidOut W H (checkParking n1 n2 g).
Proof.
  intros (Hf & Hb & Hl).
  assert (laidOut W H (latchWin n1 g)) as Hl1.
  { destruct (latchWin_frame n1 g) as (Ef & El & Ec).
    unfold laidOut. rewrite Ef, Ec. repeat split; try assumption.
    rewrite El.
    replace (Game.gapBetweenCars (latchWin n1 g)) with (Game.gapBetweenCars g);
      [exact Hl|].
    now injection El. }
  unfold checkParking. cbv zeta.
  destruct (Game.winResetAtMs _); [destruct (Rleb _ _)|]; auto using nextLevel_laidOut.
Qed.

Lemma newGame_laidOut (W H : R) : laidOut W H (newGame W H).
Proof.
  unfold laidOut. repeat split.
  unfold layout, laneFor, newGame, recomputeParkingLayout.
  cbn [Game.parkedCars Game.parkingSpace Game.gapBetweenCars
       Game.set_parkingSpace Game.set_parkedCars Game.set_gapBetweenCars
       Game.centerX Game.centerY Game.curbOffsetY Game.laneGapFromCurb
       setInitialCarPosition Game.set_car].
  unfold Npc.set_y, Npc.set_x, Space.set_width, Space.set_y, Space.set_x.
  cbn [fst snd Npc.width Space.height Space.x Space.y Space.width Npc.x Npc.y
       Npc.height Npc.angle Npc.collisionInsetX Npc.collisionInsetY].
  replace (H / 2 + 160 - 10 - 60 / 2) with (H / 2 + 120) by lra. reflexivity.
Qed.

Lemma step_laidOut (W H : R) (g g' : Game.t) :
  step g g' -> laidOut W H g -> laidOut W H g'.
Proof.
  intros Hs Hl. destruct Hs.
  - unfold gameLoop. cbv zeta. apply checkParking_laidOut.
    destruct Hl as (Hf & Hb & Hlay).
    match goal with
    | |- laidOut _ _ (updateCar ?dt ?a ?b ?c ?g0) =>
        destruct (updateCar_frame dt a b c g0) as (Ef & El & Eb)
    end.
    unfold laidOut. rewrite Ef, Eb, El.
    replace (Game.gapBetweenCars (updateCar _ _ _ _ _)) with (Game.gapBetweenCars g);
      [repeat split; assumption|].
    now injection El.
  - destruct code; exact Hl.
  - destruct code; exact Hl.
  - unfold mousedown. destruct (isPointerOnCar x y g); exact Hl.
  - unfold mousemove. destruct (negb _); exact Hl.
  - exact Hl.
  - unfold sliderInput. now apply relayout.
Qed.

Lemma reachable_laidOut (W H : R) (g : Game.t) :
  reachable W H g -> laidOut W H g.
Proof. induction 1; eauto using newGame_laidOut, step_laidOut. Qed.

(** X9.  In every reachable state the lane is determined by the canvas and
    the current gap alone: the target space is centred at (W/2, H/2 + 120),
    60 high and as wide as the gap; the two parked cars are 90 by 45 at
    heading 0 in the same lane, their inner edges exactly the gap apart and
    symmetric about the space; the curb is the 30 high strip whose top is 40
    below the lane's centre line; and the player's car keeps its 90 by 45
    box. *)
Theorem layout_follows_gap (W H : R) (g : Game.t) :
  reachable W H g ->
  let gap := Game.gapBetweenCars g in
  Game.parkingSpace g = Space.mk (W / 2) (H / 2 + 120) gap 60 /\
  Game.parkedCars g =
    (Npc.mk (W / 2 - (gap + 90) / 2) (H / 2 + 120) 90 45 0 8 6,
     Npc.mk (W / 2 + (gap + 90) / 2) (H / 2 + 120) 90 45 0 8 6) /\
  (Npc.x (snd (Game.parkedCars g)) - 45) - (Npc.x (fst (Game.parkedCars g)) + 45) = gap /\
  curbOf g = Npc.mk (W / 2) (H / 2 + 160 + 30 / 2) W 30 0 0 0 /\
  Car.width (Game.car g) = 90 /\ Car.height (Game.car g) = 45.
Proof.
  intros Hr. cbv zeta.
  destruct (reachable_laidOut W H g Hr) as (Hf & Hb & Hl).
  unfold layout, laneFor in Hl. injection Hl as Hcars Hspace.
  injection Hf as HW HH Hcx Hcy Hcw Hch Hoff _ _ _ _ _.
  injection Hb as Hw Hh _ _ _.
  split; [exact Hspace|]. split; [exact Hcars|].
  split; [rewrite Hcars; cbn [fst snd Npc.x]; lra|].
  split; [unfold curbOf; now rewrite Hcx, Hcy, Hoff, Hch, Hcw|].
  split; assumption.
Qed.

Lemma layout_follows_gap_witness :
  let g := sliderInput 100 (newGame 800 600) in
  let gap := Game.gapBetweenCars g in
  Game.parkingSpace g = Space.mk (800 / 2) (600 / 2 + 120) gap 60 /\
  Game.parkedCars g =
    (Npc.mk (800 / 2 - (gap + 90) / 2) (600 / 2 + 120) 90 45 0 8 6,
     Npc.mk (800 / 2 + (gap + 90) / 2) (600 / 2 + 120) 90 45 0 8 6) /\
  (Npc.x (snd (Game.parkedCars g)) - 45) - (Npc.x (fst (Game.parkedCars g)) + 45) = gap /\
  curbOf g = Npc.mk (800 / 2) (600 / 2 + 160 + 30 / 2) 800 30 0 0 0 /\
  Car.width (Game.car g) = 90 /\ Car.height (Game.car g) = 45.
Proof.
  apply (layout_follows_gap 800 600 (sliderInput 100 (newGame 800 600))).
  eapply reach_step; [apply reach_new|].
  apply step_slider. lra.
Defined.

(** ** The chamfered footprint against the full rectangle *)

Lemma num_le_of_lt (a b : num) : num_lt a b = true -> num_le a b = true.
Proof.
  destruct a, b; cbn; try easy.
  intros H. apply Rltb_true in H. apply Rleb_true. lra.
Qed.

(** A hit of the contact test is a hit of the plain test. *)
Lemma mtv_hit_is_plain_hit (A B : polygon) :
  Hit.collides (polygonCollisionMTV A B) = true -> polygonCollision A B = true.
Proof.
  rewrite mtv_collides_iff, polygonCollision_true.
  intros H axis Hin. specialize (H axis Hin).
  rewrite separated_negative.
  destruct (num_lt _ _) eqn:E; [|reflexivity].
  apply num_le_of_lt in E. congruence.
Qed.

Lemma hypot_scale (k a b : R) : 0 <= k -> hypot (k * a) (k * b) = k * hypot a b.
Proof.
  intros Hk. unfold hypot.
  replace (k * a * (k * a) + k * b * (k * b)) with (k * k * (a * a + b * b)) by ring.
  rewrite sqrt_mult; [|nra|nra]. now rewrite sqrt_square.
Qed.

Lemma hypot_zero (a b : R) : hypot a b = 0 -> a = 0 /\ b = 0.
Proof.
  unfold hypot. intros H. apply sqrt_eq_0 in H; [|nra]. split; nra.
Qed.

(** The axis of an edge depends on its direction only. *)
Lemma edgeAxis_scale (p1 p2 q1 q2 : Pt.t) (k : R) :
  0 < k ->
  Pt.x q2 - Pt.x q1 = k * (Pt.x p2 - Pt.x p1) ->
  Pt.y q2 - Pt.y q1 = k * (Pt.y p2 - Pt.y p1) ->
  edgeAxis q1 q2 = edgeAxis p1 p2.
Proof.
  intros Hk Ex Ey. unfold edgeAxis. cbv zeta. rewrite Ex, Ey.
  set (a := Pt.x p2 - Pt.x p1). set (b := Pt.y p2 - Pt.y p1).
  replace (- (k * b)) with (k * - b) by ring.
  rewrite hypot_scale by lra.
  unfold or_one.
  destruct (Req_dec_T (hypot (- b) a) 0) as [E|E].
  - destruct (hypot_zero _ _ E) as [Eb Ea].
    rewrite E, Rmult_0_r. destruct (Req_dec_T 0 0); [|lra].
    f_equal; rewrite ?Ea, ?Eb; lra.
  - destruct (Req_dec_T (k * hypot (- b) a) 0) as [E'|E'];
      [exfalso; apply Rmult_integral in E'; lra|].
    f_equal; field; lra.
Qed.

(** Bounds of the clamped insets. *)
Lemma inset_range (inset half : R) :
  let i := Rmin (Rmax inset 0) (Rmax 0 (half - 1)) in
  0 <= i /\ (i = 0 \/ i < half).
Proof.
  cbv zeta. split_minmax; lra.
Qed.

Lemma hull_place_between (pts : polygon) (cx cy a : R) (p q r : Pt.t) (t : R) :
  In (place cx cy a p) pts -> In (place cx cy a q) pts ->
  0 <= t <= 1 ->
  Pt.x r = (1 - t) * Pt.x p + t * Pt.x q ->
  Pt.y r = (1 - t) * Pt.y p + t * Pt.y q ->
  hull pts (place cx cy a r).
Proof.
  intros Hp Hq Ht Ex Ey.
  replace (place cx cy a r)
    with (Pt.mk ((1 - t) * Pt.x (place cx cy a p) + t * Pt.x (place cx cy a q))
                ((1 - t) * Pt.y (place cx cy a p) + t * Pt.y (place cx cy a q))).
  - apply hull_between; [now apply hull_vertex|now apply hull_vertex|exact Ht].
  - unfold place. cbn [Pt.x Pt.y]. rewrite Ex, Ey. f_equal; ring.
Qed.

(** Every vertex of the chamfered polygon lies on an edge of the rectangle. *)
Lemma chamfer_within_rectangle (cx cy w h a ix iy : R) (q : Pt.t) :
  In q (getChamferedRectPolygon cx cy w h a ix iy) ->
  hull (getRectangleCorners cx cy w h a) q.
Proof.
  unfold getChamferedRectPolygon, getRectangleCorners. cbv zeta.
  destruct (inset_range ix (w / 2)) as [Hx0 Hx1].
  destruct (inset_range iy (h / 2)) as [Hy0 Hy1].
  cbv zeta in Hx0, Hx1, Hy0, Hy1.
  set (i := Rmin (Rmax ix 0) (Rmax 0 (w / 2 - 1))) in *.
  set (j := Rmin (Rmax iy 0) (Rmax 0 (h / 2 - 1))) in *.
  set (hw := w / 2) in *. set (hh := h / 2) in *.
  set (r0 := Pt.mk (- hw) (- hh)). set (r1 := Pt.mk hw (- hh)).
  set (r2 := Pt.mk hw hh). set (r3 := Pt.mk (- hw) hh).
  assert (exists t, 0 <= t <= 1 /\ i = t * (2 * hw)) as (t & Ht & Et).
  { destruct Hx1 as [->|Hlt]; [exists 0; lra|].
    exists (i / (2 * hw)). split; [|field; lra].
    split; [apply Rmult_le_pos; [lra|left; apply Rinv_0_lt_compat; lra]|].
    apply Rmult_le_reg_r with (2 * hw); [lra|].
    replace (i / (2 * hw) * (2 * hw)) with i by (field; lra). lra. }
  assert (exists s, 0 <= s <= 1 /\ j = s * (2 * hh)) as (s & Hs & Es).
  { destruct Hy1 as [->|Hlt]; [exists 0; lra|].
    exists (j / (2 * hh)). split; [|field; lra].
    split; [apply Rmult_le_pos; [lra|left; apply Rinv_0_lt_compat; lra]|].
    apply Rmult_le_reg_r with (2 * hh); [lra|].
    replace (j / (2 * hh) * (2 * hh)) with j by (field; lra). lra. }
  cbn [map In].
  intros [<-|[<-|[<-|[<-|[<-|[<-|[<-|[<-|[]]]]]]]]].
  - apply (hull_place_between _ _ _ _ r0 r1 _ t); cbn; try tauto; try lra.
  - apply (hull_place_between _ _ _ _ r1 r0 _ t); cbn; try tauto; try lra.
  - apply (hull_place_between _ _ _ _ r1 r2 _ s); cbn; try tauto; try lra.
  - apply (hull_place_between _ _ _ _ r2 r1 _ s); cbn; try tauto; try lra.
  - apply (hull_place_between _ _ _ _ r2 r3 _ t); cbn; try tauto; try lra.
  - apply (hull_place_between _ _ _ _ r3 r2 _ t); cbn; try tauto; try lra.
  - apply (hull_place_between _ _ _ _ r3 r0 _ s); cbn; try tauto; try lra.
  - apply (hull_place_between _ _ _ _ r0 r3 _ s); cbn; try tauto; try lra.
Qed.

(** Every edge axis of the rectangle is an edge axis of the chamfered polygon. *)
Lemma rectangle_axes_in_chamfer (cx cy w h a ix iy : R) (axis : Pt.t) :
  In axis (getAxes (getRectangleCorners cx cy w h a)) ->
  In axis (getAxes (getChamferedRectPolygon cx cy w h a ix iy)).
Proof.
  unfold getChamferedRectPolygon, getRectangleCorners. cbv zeta.
  destruct (inset_range ix (w / 2)) as [Hx0 Hx1].
  destruct (inset_range iy (h / 2)) as [Hy0 Hy1].
  cbv zeta in Hx0, Hx1, Hy0, Hy1.
  set (i := Rmin (Rmax ix 0) (Rmax 0 (w / 2 - 1))) in *.
  set (j := Rmin (Rmax iy 0) (Rmax 0 (h / 2 - 1))) in *.
  set (hw := w / 2) in *. set (hh := h / 2) in *.
  cbn [map]. rewrite getAxes4, getAxes8. cbn [In].
  assert (forall p1 p2 q1 q2 : Pt.t,
             (Pt.x q2 - Pt.x q1 = Pt.x p2 - Pt.x p1 /\
              Pt.y q2 - Pt.y q1 = Pt.y p2 - Pt.y p1) \/
             (exists k, 0 < k /\
                Pt.x q2 - Pt.x q1 = k * (Pt.x p2 - Pt.x p1) /\
                Pt.y q2 - Pt.y q1 = k * (Pt.y p2 - Pt.y p1)) ->
             edgeAxis q1 q2 = edgeAxis p1 p2) as Hscale.
  { intros p1 p2 q1 q2 [[Ex Ey]|(k & Hk & Ex & Ey)].
    - apply (edgeAxis_scale _ _ _ _ 1); lra.
    - now apply (edgeAxis_scale _ _ _ _ k). }
  assert (i = 0 \/ exists k, 0 < k /\ 2 * hw - 2 * i = k * (2 * hw)) as Hi.
  { destruct Hx1 as [E|E]; [now left|right].
    exists ((2 * hw - 2 * i) / (2 * hw)). split; [|field; lra].
    apply Rmult_lt_0_compat; [lra|apply Rinv_0_lt_compat; lra]. }
  assert (j = 0 \/ exists k, 0 < k /\ 2 * hh - 2 * j = k * (2 * hh)) as Hj.
  { destruct Hy1 as [E|E]; [now left|right].
    exists ((2 * hh - 2 * j) / (2 * hh)). split; [|field; lra].
    apply Rmult_lt_0_compat; [lra|apply Rinv_0_lt_compat; lra]. }
  intros [<-|[<-|[<-|[<-|[]]]]].
  - left. apply Hscale. unfold place; cbn [Pt.x Pt.y].
    destruct Hi as [->|(k & Hk & E)]; [left; split; ring|right; exists k].
    split; [exact Hk|]. split.
    + replace (k * _) with (k * (2 * hw) * cos a) by ring. rewrite <- E. ring.
    + replace (k * _) with (k * (2 * hw) * sin a) by ring. rewrite <- E. ring.
  - right; right; left. apply Hscale. unfold place; cbn [Pt.x Pt.y].
    destruct Hj as [->|(k & Hk & E)]; [left; split; ring|right; exists k].
    split; [exact Hk|]. split.
    + replace (k * _) with (- (k * (2 * hh)) * sin a) by ring. rewrite <- E. ring.
    + replace (k * _) with (k * (2 * hh) * cos a) by ring. rewrite <- E. ring.
  - do 4 right; left. apply Hscale. unfold place; cbn [Pt.x Pt.y].
    destruct Hi as [->|(k & Hk & E)]; [left; split; ring|right; exists k].
    split; [exact Hk|]. split.
    + replace (k * _) with (- (k * (2 * hw)) * cos a) by ring. rewrite <- E. ring.
    + replace (k * _) with (- (k * (2 * hw)) * sin a) by ring. rewrite <- E. ring.
  - do 6 right; left. apply Hscale. unfold place; cbn [Pt.x Pt.y].
    destruct Hj as [->|(k & Hk & E)]; [left; split; ring|right; exists k].
    split; [exact Hk|]. split.
    + replace (k * _) with (k * (2 * hh) * sin a) by ring. rewrite <- E. ring.
    + replace (k * _) with (- (k * (2 * hh)) * cos a) by ring. rewrite <- E. ring.
Qed.

(** Two polygons inside two others are separated wherever those are. *)
Lemma separated_inside (A B A' B' : polygon) (axis : Pt.t) :
  A' <> [] -> B' <> [] ->
  (forall q, In q A' -> hull A q) -> (forall q, In q B' -> hull B q) ->
  separatedOn A B axis = true -> separatedOn A' B' axis = true.
Proof.
  intros HA' HB' HinA HinB Hsep.
  assert (A <> []) as HA.
  { destruct A' as [|p ?]; [easy|]. apply (hull_nonempty _ p), HinA. now left. }
  assert (B <> []) as HB.
  { destruct B' as [|p ?]; [easy|]. apply (hull_nonempty _ p), HinB. now left. }
  destruct (overlap_nonempty A B axis HA HB)
    as (mA & MA & mB & MB & EA & EB & _ & _ & _ & Hs).
  destruct (project_nonempty axis A' HA')
    as (mA' & MA' & EA' & _ & _ & (p1 & Hp1 & E1) & (p2 & Hp2 & E2)).
  destruct (project_nonempty axis B' HB')
    as (mB' & MB' & EB' & _ & _ & (q1 & Hq1 & F1) & (q2 & Hq2 & F2)).
  pose proof (hull_projection _ _ _ _ _ EA (HinA _ Hp1)).
  pose proof (hull_projection _ _ _ _ _ EA (HinA _ Hp2)).
  pose proof (hull_projection _ _ _ _ _ EB (HinB _ Hq1)).
  pose proof (hull_projection _ _ _ _ _ EB (HinB _ Hq2)).
  unfold separatedOn. rewrite EA', EB'. cbn [num_lt].
  rewrite Hsep in Hs. symmetry in Hs. apply orb_true_iff in Hs.
  apply orb_true_iff.
  destruct Hs as [Hs|Hs]; apply Rltb_true in Hs; [left|right];
    apply Rltb_true; lra.
Qed.

Lemma plain_hit_inside (A B A' B' : polygon) :
  A' <> [] -> B' <> [] ->
  (forall q, In q A' -> hull A q) -> (forall q, In q B' -> hull B q) ->
  (forall axis, In axis (getAxes A) -> In axis (getAxes A')) ->
  (forall axis, In axis (getAxes B) -> In axis (getAxes B')) ->
  polygonCollision A' B' = true -> polygonCollision A B = true.
Proof.
  intros HA' HB' HinA HinB HaxA HaxB Hhit.
  rewrite polygonCollision_true in *.
  intros axis Hin.
  destruct (separatedOn A B axis) eqn:Hsep; [|reflexivity].
  rewrite <- (Hhit axis).
  - symmetry. now apply (separated_inside A B).
  - apply in_app_iff. apply in_app_iff in Hin.
    destruct Hin as [Hin|Hin]; [left|right]; auto.
Qed.

(** X3.  Chamfering only forgives: whenever [polygonCollision] finds the
    chamfered polygons of two placed rectangles colliding, for any sizes,
    angles and insets, [rectangleCollision] finds the full rectangles
    colliding. *)
Theorem chamfered_hit_is_rectangle_hit
    (x1 y1 w1 h1 a1 ix1 iy1 x2 y2 w2 h2 a2 ix2 iy2 : R) :
  polygonCollision (getChamferedRectPolygon x1 y1 w1 h1 a1 ix1 iy1)
    (getChamferedRectPolygon x2 y2 w2 h2 a2 ix2 iy2) = true ->
  rectangleCollision x1 y1 w1 h1 a1 x2 y2 w2 h2 a2 = true.
Proof.
  intros Hhit.
  change (polygonCollision (getRectangleCorners x1 y1 w1 h1 a1)
            (getRectangleCorners x2 y2 w2 h2 a2) = true).
  apply (plain_hit_inside _ _ _ _) with (7 := Hhit); try discriminate.
  - apply chamfer_within_rectangle.
  - apply chamfer_within_rectangle.
  - apply rectangle_axes_in_chamfer.
  - apply rectangle_axes_in_chamfer.
Qed.

Lemma chamfered_hit_is_rectangle_hit_witness :
  rectangleCollision 255 420 90 45 0 255 420 90 45 0 = true.
Proof.
  apply (chamfered_hit_is_rectangle_hit 255 420 90 45 0 8 6 255 420 90 45 0 8 6).
  apply polygonCollision_self.
Defined.

(** ** Rigid placement *)

Lemma rectangle_center (cx cy w h a : R) :
  getPolygonCenter (getRectangleCorners cx cy w h a) = Pt.mk cx cy.
Proof.
  rewrite getPolygonCenter_mean by discriminate.
  unfold getRectangleCorners, sumX, sumY, place.
  cbn [map fold_right length Pt.x Pt.y INR].
  f_equal; field.
Qed.

Lemma chamfer_center (cx cy w h a ix iy : R) :
  getPolygonCenter (getChamferedRectPolygon cx cy w h a ix iy) = Pt.mk cx cy.
Proof.
  rewrite getPolygonCenter_mean by discriminate.
  unfold getChamferedRectPolygon, sumX, sumY, place. cbv zeta.
  set (i := Rmin (Rmax ix 0) (Rmax 0 (w / 2 - 1))).
  set (j := Rmin (Rmax iy 0) (Rmax 0 (h / 2 - 1))).
  cbn [map fold_right length Pt.x Pt.y INR].
  f_equal; field.
Qed.

(** X6.  The centre [getPolygonCenter] computes for the corners of a placed
    rectangle, and for its chamfered polygon with any insets, is the
    placement point (cx, cy), whatever the size and the angle. *)
Theorem polygon_centre_is_placement (cx cy w h a ix iy : R) :
  getPolygonCenter (getRectangleCorners cx cy w h a) = Pt.mk cx cy /\
  getPolygonCenter (getChamferedRectPolygon cx cy w h a ix iy) = Pt.mk cx cy.
Proof. split; [apply rectangle_center|apply chamfer_center]. Qed.

Lemma hypot_rotate (a b angle : R) :
  hypot (a * cos angle - b * sin angle) (a * sin angle + b * cos angle) = hypot a b.
Proof.
  unfold hypot. f_equal.
  pose proof (sin2_cos2 angle) as Hsc. unfold Rsqr in Hsc.
  replace ((a * cos angle - b * sin angle) * (a * cos angle - b * sin angle) +
           (a * sin angle + b * cos angle) * (a * sin angle + b * cos angle))
    with ((a * a + b * b) * (sin angle * sin angle + cos angle * cos angle)) by ring.
  rewrite Hsc. ring.
Qed.

(** Placing is a rigid motion. *)
Lemma place_rigid (cx cy angle : R) (p q : Pt.t) :
  dist (place cx cy angle p) (place cx cy angle q) = dist p q.
Proof.
  unfold dist, place. cbn [Pt.x Pt.y].
  rewrite <- (hypot_rotate (Pt.x q - Pt.x p) (Pt.y q - Pt.y p) angle).
  f_equal; ring.
Qed.

Lemma hypot_axis (d : R) : hypot d 0 = Rabs d /\ hypot 0 d = Rabs d.
Proof.
  assert (Rabs d * Rabs d = d * d) as E
      by (unfold Rabs; destruct (Rcase_abs d); ring).
  split; (apply hypot_eval; [apply Rabs_pos|rewrite E; ring]).
Qed.

(** X7.  [getRectangleCorners] is a rigid placement: at every angle the four
    corners it returns have sides of length |width| and |height| in turn and
    two diagonals of length hypot(width, height). *)
Theorem rectangle_keeps_its_size (cx cy w h a : R) :
  exists r0 r1 r2 r3,
    getRectangleCorners cx cy w h a = [r0; r1; r2; r3] /\
    dist r0 r1 = Rabs w /\ dist r1 r2 = Rabs h /\
    dist r2 r3 = Rabs w /\ dist r3 r0 = Rabs h /\
    dist r0 r2 = hypot w h /\ dist r1 r3 = hypot w h.
Proof.
  unfold getRectangleCorners. cbv zeta. cbn [map].
  eexists _, _, _, _. split; [reflexivity|].
  rewrite !place_rigid. unfold dist. cbn [Pt.x Pt.y].
  destruct (hypot_axis w) as [Hw _]. destruct (hypot_axis h) as [_ Hh].
  destruct (hypot_axis (- w)) as [Hw' _]. destruct (hypot_axis (- h)) as [_ Hh'].
  rewrite Rabs_Ropp in Hw', Hh'.
  repeat split.
  - rewrite <- Hw. f_equal; field.
  - rewrite <- Hh. f_equal; field.
  - rewrite <- Hw'. f_equal; field.
  - rewrite <- Hh'. f_equal; field.
  - f_equal; field.
  - unfold hypot. f_equal. field.
Qed.

Lemma box_points (cx cy w h : R) :
  getRectangleCorners cx cy w h 0 =
  [Pt.mk (cx - w / 2) (cy - h / 2); Pt.mk (cx + w / 2) (cy - h / 2);
   Pt.mk (cx + w / 2) (cy + h / 2); Pt.mk (cx - w / 2) (cy + h / 2)].
Proof.
  unfold getRectangleCorners, place. cbn [map Pt.x Pt.y].
  rewrite cos_0, sin_0. poly_eq.
Qed.

Lemma box_axes (cx cy w h : R) :
  0 < w -> 0 < h ->
  getAxes (getRectangleCorners cx cy w h 0) = squareAxes.
Proof.
  intros Hw Hh. rewrite box_points, getAxes4. unfold squareAxes.
  repeat (apply f_equal2; [|try reflexivity]).
  - apply (edgeAxis_eval _ _ w); cbn; nra.
  - apply (edgeAxis_eval _ _ h); cbn; nra.
  - apply (edgeAxis_eval _ _ w); cbn; nra.
  - apply (edgeAxis_eval _ _ h); cbn; nra.
Qed.

Lemma box_proj (cx cy w h : R) :
  0 < w -> 0 < h ->
  let box := getRectangleCorners cx cy w h 0 in
  projectPointsOnAxis box (Pt.mk 0 1) = (Fin (cy - h / 2), Fin (cy + h / 2)) /\
  projectPointsOnAxis box (Pt.mk (-1) 0) = (Fin (- cx - w / 2), Fin (- cx + w / 2)) /\
  projectPointsOnAxis box (Pt.mk 0 (-1)) = (Fin (- cy - h / 2), Fin (- cy + h / 2)) /\
  projectPointsOnAxis box (Pt.mk 1 0) = (Fin (cx - w / 2), Fin (cx + w / 2)).
Proof.
  intros Hw Hh. cbv zeta. rewrite box_points. repeat split.
  - eval_proj (cy - h / 2) (cy + h / 2).
  - eval_proj (- cx - w / 2) (- cx + w / 2).
  - eval_proj (- cy - h / 2) (- cy + h / 2).
  - eval_proj (cx - w / 2) (cx + w / 2).
Qed.

(** X8.  For two rectangles of positive size at angle 0 the rectangle test
    is the box test: they collide exactly when the centres are at most half
    the summed widths apart in x and at most half the summed heights apart
    in y (touching counts). *)
Theorem upright_rectangles_collide_as_boxes (x1 y1 w1 h1 x2 y2 w2 h2 : R) :
  0 < w1 -> 0 < h1 -> 0 < w2 -> 0 < h2 ->
  rectangleCollision x1 y1 w1 h1 0 x2 y2 w2 h2 0 =
  Rleb (Rabs (x2 - x1)) ((w1 + w2) / 2) && Rleb (Rabs (y2 - y1)) ((h1 + h2) / 2).
Proof.
  intros Hw1 Hh1 Hw2 Hh2. unfold rectangleCollision. cbv zeta.
  rewrite !box_axes by assumption.
  destruct (box_proj x1 y1 w1 h1 Hw1 Hh1) as (A0 & A1 & A2 & A3).
  destruct (box_proj x2 y2 w2 h2 Hw2 Hh2) as (B0 & B1 & B2 & B3).
  cbv zeta in *.
  unfold squareAxes. cbn [app forallb]. unfold separatedOn.
  rewrite A0, A1, A2, A3, B0, B1, B2, B3. cbn [num_lt].
  destruct (Rleb (Rabs (x2 - x1)) ((w1 + w2) / 2)) eqn:Ex;
    [apply Rleb_true, Rabs_bound in Ex
    |apply Rleb_false in Ex; unfold Rabs in Ex; destruct (Rcase_abs _) in Ex];
  (destruct (Rleb (Rabs (y2 - y1)) ((h1 + h2) / 2)) eqn:Ey;
    [apply Rleb_true, Rabs_bound in Ey
    |apply Rleb_false in Ey; unfold Rabs in Ey; destruct (Rcase_abs _) in Ey]);
  cases_cmp; cbn [negb orb andb]; try reflexivity; exfalso; lra.
Qed.

Lemma upright_rectangles_collide_as_boxes_witness :
  rectangleCollision 0 0 2 2 0 3 0 2 2 0 =
  Rleb (Rabs (3 - 0)) ((2 + 2) / 2) && Rleb (Rabs (0 - 0)) ((2 + 2) / 2).
Proof. apply (upright_rectangles_collide_as_boxes 0 0 2 2 3 0 2 2); lra. Defined.

(** ** What the collision check records *)

(** What a hit returns: the least overlap along a unit axis that points from
    the first polygon's centre to the second's. *)
Lemma mtv_hit_vector (A B : polygon) :
  A <> [] -> B <> [] ->
  Hit.collides (polygonCollisionMTV A B) = true ->
  exists v,
    Hit.mtv (polygonCollisionMTV A B) = Some v /\
    0 < hypot (Pt.x v) (Pt.y v) /\
    0 <= (Pt.x (getPolygonCenter B) - Pt.x (getPolygonCenter A)) * Pt.x v +
         (Pt.y (getPolygonCenter B) - Pt.y (getPolygonCenter A)) * Pt.y v.
Proof.
  intros HA HB Hc.
  pose proof (proj1 (mtv_collides_iff A B) Hc) as Hall.
  assert (forall axis, In axis (getAxes A ++ getAxes B) ->
            exists o, overlapOn A B axis = Fin o /\ 0 < o) as Hpos.
  { intros axis Hin. specialize (Hall axis Hin).
    destruct (overlap_nonempty A B axis HA HB) as (mA & MA & mB & MB & _ & _ & _ & _ & Eo & _).
    rewrite Eo in *. eexists; split; [reflexivity|].
    cbn in Hall. apply Rleb_false in Hall. exact Hall. }
  unfold polygonCollisionMTV in *. cbv zeta in *.
  destruct (mtvLoop_overlapping A B (getPolygonCenter A) (getPolygonCenter B)
              (getAxes A ++ getAxes B) None Hpos)
    as (best' & -> & Hfrom & Hmin & _).
  exists (mtvOf best'). split; [reflexivity|].
  assert (exists a, In a (getAxes A ++ getAxes B)) as (a0 & Ha0).
  { destruct A as [|p A']; [easy|].
    pose proof (getAxes_length (p :: A')) as Hlen.
    destruct (getAxes (p :: A')) as [|a ?]; [discriminate|].
    exists a. now left. }
  destruct Hfrom as [->|(axis & o & Hin & Eo & ->)].
  { destruct (Hpos a0 Ha0) as (o0 & Eo0 & _).
    destruct (Hmin a0 o0 Ha0 Eo0) as (s & a & Habs & _). discriminate. }
  destruct (Hpos axis Hin) as (o' & Eo' & Ho).
  rewrite Eo in Eo'. injection Eo' as <-.
  assert (Pt.x axis * Pt.x axis + Pt.y axis * Pt.y axis = 1) as Hunit.
  { assert (edgeNormal A axis \/ edgeNormal B axis) as Hn.
    { apply in_app_iff in Hin.
      destruct Hin as [Hin|Hin]; [left|right]; now apply getAxes_normals. }
    assert (axis <> origin) as Hnz.
    { intros ->.
      assert (getAxes A ++ getAxes B <> []) as Hne by (intros E; rewrite E in Hin; easy).
      pose proof (overlap_origin A B Hne) as Hle.
      rewrite Eo in Hle. cbn in Hle. apply Rleb_true in Hle. lra. }
    destruct Hn as [(i & _ & _ & _ & [H|[H _]])|(i & _ & _ & _ & [H|[H _]])];
      try exact H; contradiction. }
  destruct (orient_cases (getPolygonCenter A) (getPolygonCenter B) axis)
    as [Hd Hdot]. cbv zeta in Hd, Hdot.
  set (d := orient (getPolygonCenter A) (getPolygonCenter B) axis) in *.
  assert (Pt.x d * Pt.x d + Pt.y d * Pt.y d = 1) as Hdu
      by (destruct Hd as [->| ->]; cbn [Pt.x Pt.y]; lra).
  unfold mtvOf. cbn [Pt.x Pt.y]. split.
  - rewrite (hypot_eval _ _ o); [exact Ho|lra|].
    replace (Pt.x d * o * (Pt.x d * o) + Pt.y d * o * (Pt.y d * o))
      with (o * o * (Pt.x d * Pt.x d + Pt.y d * Pt.y d)) by ring.
    rewrite Hdu. ring.
  - replace (_ * (Pt.x d * o) + _ * (Pt.y d * o))
      with (o * ((Pt.x (getPolygonCenter B) - Pt.x (getPolygonCenter A)) * Pt.x d +
                 (Pt.y (getPolygonCenter B) - Pt.y (getPolygonCenter A)) * Pt.y d))
      by ring.
    apply Rmult_le_pos; lra.
Qed.

(** The direction opposite to a non-zero vector has length one. *)
Lemma bounceDirOf_unit (v : Pt.t) (angle : R) :
  0 < hypot (Pt.x v) (Pt.y v) ->
  let d := bounceDirOf (Some v) angle in
  Pt.x d * hypot (Pt.x v) (Pt.y v) = - Pt.x v /\
  Pt.y d * hypot (Pt.x v) (Pt.y v) = - Pt.y v /\
  Pt.x d * Pt.x d + Pt.y d * Pt.y d = 1.
Proof.
  intros Hpos. cbv zeta. unfold bounceDirOf. cbv zeta.
  unfold or_one. destruct (Req_dec_T _ 0) as [E|_]; [lra|].
  cbn [Pt.x Pt.y].
  assert (hypot (Pt.x v) (Pt.y v) * hypot (Pt.x v) (Pt.y v) =
          Pt.x v * Pt.x v + Pt.y v * Pt.y v) as Hsq.
  { unfold hypot. apply sqrt_sqrt. nra. }
  set (len := hypot (Pt.x v) (Pt.y v)) in *.
  repeat split; try (field; lra).
  replace (- Pt.x v / len * (- Pt.x v / len) + - Pt.y v / len * (- Pt.y v / len))
    with ((Pt.x v * Pt.x v + Pt.y v * Pt.y v) / (len * len)) by (field; lra).
  rewrite <- Hsq. field. lra.
Qed.

(** The outcomes of the collision check. *)
Lemma checkCollisions_outcome (g : Game.t) :
  (fst (checkCollisions g) = false /\ snd (checkCollisions g) = g /\
   (forall p, In p (parkedCarList g) ->
      Hit.collides (polygonCollisionMTV (playerPolygon (Game.car g)) (npcPolygon p)) = false) /\
   Hit.collides (polygonCollisionMTV (playerPolygon (Game.car g)) (curbPolygon g)) = false) \/
  (exists p B,
     fst (checkCollisions g) = true /\
     (In p (parkedCarList g) /\ B = npcPolygon p /\
      Game.lastCollision (snd (checkCollisions g)) = Some (HitCar p) \/
      p = curbOf g /\ B = curbPolygon g /\
      Game.lastCollision (snd (checkCollisions g)) = Some (HitCurb p)) /\
     Hit.collides (polygonCollisionMTV (playerPolygon (Game.car g)) B) = true /\
     Game.collisionMTV (snd (checkCollisions g)) =
       Hit.mtv (polygonCollisionMTV (playerPolygon (Game.car g)) B)).
Proof.
  unfold checkCollisions, parkedCarList. cbv zeta.
  generalize (playerPolygon (Game.car g)) as P. intros P.
  destruct (Game.parkedCars g) as [p0 p1]. cbn [fst snd firstParkedHit].
  destruct (polygonCollisionMTV P (npcPolygon p0)) as [c0 m0] eqn:E0.
  cbn [Hit.collides Hit.mtv]. destruct c0.
  { right. exists p0, (npcPolygon p0). rewrite E0. cbn [fst snd Hit.collides Hit.mtv].
    split; [reflexivity|]. split; [left|split; reflexivity].
    split; [now left|]. split; reflexivity. }
  destruct (polygonCollisionMTV P (npcPolygon p1)) as [c1 m1] eqn:E1.
  cbn [Hit.collides Hit.mtv]. destruct c1.
  { right. exists p1, (npcPolygon p1). rewrite E1. cbn [fst snd Hit.collides Hit.mtv].
    split; [reflexivity|]. split; [left|split; reflexivity].
    split; [right; now left|]. split; reflexivity. }
  destruct (polygonCollisionMTV P (curbPolygon g)) as [c2 m2] eqn:E2.
  cbn [Hit.collides Hit.mtv]. destruct c2.
  { right. exists (curbOf g), (curbPolygon g). rewrite E2.
    cbn [fst snd Hit.collides Hit.mtv].
    split; [reflexivity|]. split; [right|split; reflexivity].
    split; [reflexivity|]. split; reflexivity. }
  left. cbn [fst snd]. split; [reflexivity|]. split; [reflexivity|].
  split; [|reflexivity].
  intros p [<-|[<-|[]]]; [rewrite E0|rewrite E1]; reflexivity.
Qed.

Lemma resolveCollision_record (px py n1 n2 : R) (g : Game.t) :
  fst (checkCollisions g) = true ->
  Game.collisionMTV (resolveCollision px py n1 n2 g) =
    Game.collisionMTV (snd (checkCollisions g)) /\
  Game.lastCollision (resolveCollision px py n1 n2 g) =
    Game.lastCollision (snd (checkCollisions g)).
Proof.
  intros Hhit.
  destruct (resolveCollision_state px py n1 n2 g) as (m & l & Es & ->).
  cbv zeta in Es. rewrite Hhit, Es. split; reflexivity.
Qed.

(** X5.  When the collision check reports a hit, the state after
    [updateCar]'s collision branch holds a non-zero [collisionMTV] and the
    obstacle in [lastCollision], and the bounce direction it arms is the
    unit vector opposite to the MTV (the heading fallback is never used); it
    never points towards the obstacle's centre. *)
Theorem hit_arms_unit_bounce (px py n1 n2 : R) (g : Game.t) :
  fst (checkCollisions g) = true ->
  let g' := resolveCollision px py n1 n2 g in
  let d := Game.collisionBounceDir g' in
  exists v k,
    Game.collisionMTV g' = Some v /\ Game.lastCollision g' = Some k /\
    0 < hypot (Pt.x v) (Pt.y v) /\
    Pt.x d * hypot (Pt.x v) (Pt.y v) = - Pt.x v /\
    Pt.y d * hypot (Pt.x v) (Pt.y v) = - Pt.y v /\
    Pt.x d * Pt.x d + Pt.y d * Pt.y d = 1 /\
    (Npc.x (obstacle k) - Car.x (Game.car g)) * Pt.x d +
    (Npc.y (obstacle k) - Car.y (Game.car g)) * Pt.y d <= 0.
Proof.
  intros Hhit. cbv zeta.
  destruct (resolveCollision_record px py n1 n2 g Hhit) as [-> ->].
  destruct (resolveCollision_hit px py n1 n2 g Hhit) as (_ & _ & -> & _).
  destruct (checkCollisions_outcome g) as [(Hno & _)|(p & B & _ & Hk & Hc & ->)];
    [congruence|].
  assert (B <> [] /\ getPolygonCenter B = Pt.mk (Npc.x p) (Npc.y p)) as [HB HcB].
  { destruct Hk as [(_ & -> & _)|(-> & -> & _)]; (split; [discriminate|]).
    - apply chamfer_center.
    - apply rectangle_center. }
  destruct (mtv_hit_vector (playerPolygon (Game.car g)) B ltac:(discriminate) HB Hc)
    as (v & -> & Hpos & Hdot).
  assert (getPolygonCenter (playerPolygon (Game.car g)) =
          Pt.mk (Car.x (Game.car g)) (Car.y (Game.car g))) as HcA
      by apply chamfer_center.
  rewrite HcA, HcB in Hdot. cbn [Pt.x Pt.y] in Hdot.
  destruct (bounceDirOf_unit v (Car.angle (Game.car g)) Hpos) as (Dx & Dy & Du).
  cbv zeta in Dx, Dy, Du.
  set (d := bounceDirOf (Some v) (Car.angle (Game.car g))) in *.
  assert (exists k, Game.lastCollision (snd (checkCollisions g)) = Some k /\
                    obstacle k = p) as (k & Ek & Eobs).
  { destruct Hk as [(_ & _ & ->)|(_ & _ & ->)]; eexists; split; reflexivity. }
  exists v, k.
  split; [reflexivity|]. split; [exact Ek|].
  split; [exact Hpos|]. split; [exact Dx|]. split; [exact Dy|]. split; [exact Du|].
  rewrite Eobs.
  set (len := hypot (Pt.x v) (Pt.y v)) in *.
  apply Rmult_le_reg_r with len; [exact Hpos|].
  rewrite Rmult_0_l.
  replace (((Npc.x p - Car.x (Game.car g)) * Pt.x d +
            (Npc.y p - Car.y (Game.car g)) * Pt.y d) * len)
    with ((Npc.x p - Car.x (Game.car g)) * (Pt.x d * len) +
          (Npc.y p - Car.y (Game.car g)) * (Pt.y d * len)) by ring.
  rewrite Dx, Dy. lra.
Qed.

Lemma onParkedCar_hits : fst (checkCollisions onParkedCar) = true.
Proof. now rewrite onParkedCar_hit. Qed.

Lemma hit_arms_unit_bounce_witness :
  let g' := resolveCollision 255 420 1000 1000 onParkedCar in
  let d := Game.collisionBounceDir g' in
  exists v k,
    Game.collisionMTV g' = Some v /\ Game.lastCollision g' = Some k /\
    0 < hypot (Pt.x v) (Pt.y v) /\
    Pt.x d * hypot (Pt.x v) (Pt.y v) = - Pt.x v /\
    Pt.y d * hypot (Pt.x v) (Pt.y v) = - Pt.y v /\
    Pt.x d * Pt.x d + Pt.y d * Pt.y d = 1 /\
    (Npc.x (obstacle k) - Car.x (Game.car onParkedCar)) * Pt.x d +
    (Npc.y (obstacle k) - Car.y (Game.car onParkedCar)) * Pt.y d <= 0.
Proof.
  apply (hit_arms_unit_bounce 255 420 1000 1000 onParkedCar).
  apply onParkedCar_hits.
Defined.

(** X4.  A hit reported by [checkCollisions], which tests the chamfered
    footprints with [polygonCollisionMTV], is always a hit of the plain
    rectangle test on the full boxes: the player's rectangle collides with
    the rectangle of a parked car or of the curb. *)
Theorem reported_hit_is_box_hit (g : Game.t) :
  fst (checkCollisions g) = true ->
  exists p, (In p (parkedCarList g) \/ p = curbOf g) /\
            boxesCollide (Game.car g) p = true.
Proof.
  intros Hhit.
  destruct (checkCollisions_outcome g) as [(Hno & _)|(p & B & _ & Hk & Hc & _)];
    [congruence|].
  apply mtv_hit_is_plain_hit in Hc.
  exists p. split; [destruct Hk as [(? & _)|(? & _)]; tauto|].
  unfold boxesCollide.
  change (polygonCollision
            (getRectangleCorners (Car.x (Game.car g)) (Car.y (Game.car g))
               (Car.width (Game.car g)) (Car.height (Game.car g))
               (Car.angle (Game.car g)))
            (getRectangleCorners (Npc.x p) (Npc.y p) (Npc.width p) (Npc.height p)
               (Npc.angle p)) = true).
  destruct Hk as [(_ & -> & _)|(-> & -> & _)].
  - apply (plain_hit_inside _ _ _ _) with (7 := Hc); try discriminate.
    + apply chamfer_within_rectangle.
    + apply chamfer_within_rectangle.
    + apply rectangle_axes_in_chamfer.
    + apply rectangle_axes_in_chamfer.
  - apply (plain_hit_inside _ _ _ _) with (7 := Hc); try discriminate.
    + apply chamfer_within_rectangle.
    + intros q Hq. now apply hull_vertex.
    + apply rectangle_axes_in_chamfer.
    + auto.
Qed.

Lemma reported_hit_is_box_hit_witness :
  exists p, (In p (parkedCarList onParkedCar) \/ p = curbOf onParkedCar) /\
            boxesCollide (Game.car onParkedCar) p = true.
Proof. apply (reported_hit_is_box_hit onParkedCar). apply onParkedCar_hits. Defined.

Lemma footprint_proj (x y : R) :
  projectPointsOnAxis (getChamferedRectPolygon x y 90 45 0 8 6) (Pt.mk 0 1) =
  (Fin (y - 45 / 2), Fin (y + 45 / 2)).
Proof. rewrite car_footprint. eval_proj (y - 45 / 2) (y + 45 / 2). Qed.

(** A car at heading 0 does not touch what lies wholly below it. *)
Lemma footprint_clear_below (x y : R) (B : polygon) (mB MB : R) :
  projectPointsOnAxis B (Pt.mk 0 1) = (Fin mB, Fin MB) ->
  y + 45 / 2 <= mB ->
  Hit.collides (polygonCollisionMTV (getChamferedRectPolygon x y 90 45 0 8 6) B) = false.
Proof.
  intros EB Hy. unfold polygonCollisionMTV. cbv zeta.
  rewrite mtvLoop_separating; [reflexivity|].
  exists (Pt.mk 0 1). split.
  - apply in_app_iff. left. rewrite car_footprint, getAxes8. left.
    apply (edgeAxis_eval _ _ 74); cbn; lra.
  - rewrite (overlap_eval _ _ _ _ _ _ _ _ (footprint_proj x y) EB eq_refl).
    cbn [num_le]. apply Rleb_true.
    pose proof (Rmin_l (y + 45 / 2) MB). pose proof (Rmax_r (y - 45 / 2) mB). lra.
Qed.

(** The start pose is clear of the parked cars and of the curb. *)
Lemma spawn_clear (W H : R) (g : Game.t) :
  laidOut W H g ->
  Car.angle (Game.car g) = 0 -> Car.y (Game.car g) = H / 2 + 55 ->
  fst (checkCollisions g) = false.
Proof.
  intros (Hf & Hb & Hl) Ha Hy.
  injection Hf as HW HH Hcx Hcy Hcw Hch Hoff _ _ _ _ _.
  injection Hb as Hw Hh _ Hix Hiy.
  unfold layout, laneFor in Hl. injection Hl as Hcars _.
  assert (playerPolygon (Game.car g) =
          getChamferedRectPolygon (Car.x (Game.car g)) (H / 2 + 55) 90 45 0 8 6) as EP
      by (unfold playerPolygon; now rewrite Hw, Hh, Ha, Hy, Hix, Hiy).
  destruct (checkCollisions_outcome g) as [(Hno & _)|(p & B & _ & Hk & Hc & _)];
    [exact Hno|exfalso].
  rewrite EP in Hc.
  destruct Hk as [(Hin & -> & _)|(-> & -> & _)].
  - unfold parkedCarList in Hin. rewrite Hcars in Hin. cbn [fst snd In] in Hin.
    assert (forall X, Hit.collides
              (polygonCollisionMTV
                 (getChamferedRectPolygon (Car.x (Game.car g)) (H / 2 + 55) 90 45 0 8 6)
                 (getChamferedRectPolygon X (H / 2 + 120) 90 45 0 8 6)) = false) as Hclear.
    { intros X.
      apply (footprint_clear_below _ _ _ _ _ (footprint_proj X (H / 2 + 120))). lra. }
    destruct Hin as [<-|[<-|[]]]; unfold npcPolygon in Hc;
      cbn [Npc.x Npc.y Npc.width Npc.height Npc.angle Npc.collisionInsetX
           Npc.collisionInsetY] in Hc;
      rewrite Hclear in Hc; discriminate.
  - unfold curbPolygon, curbOf in Hc. cbv zeta in Hc. cbn [Npc.x Npc.y Npc.width Npc.height Npc.angle] in Hc.
    rewrite box_points in Hc.
    rewrite (footprint_clear_below _ _ _
               (Game.centerY g + Game.curbOffsetY g + Game.curbHeight g / 2
                - Game.curbHeight g / 2)
               (Game.centerY g + Game.curbOffsetY g + Game.curbHeight g / 2
                + Game.curbHeight g / 2)) in Hc; [discriminate| |lra].
    rewrite Hch, Hcy, Hoff.
    eval_proj (H / 2 + 160 + 30 / 2 - 30 / 2) (H / 2 + 160 + 30 / 2 + 30 / 2).
Qed.

Lemma nextLevel_pose (g : Game.t) :
  Car.angle (Game.car (nextLevel g)) = 0 /\
  Car.y (Game.car (nextLevel g)) =
    Game.centerY g + Game.curbOffsetY g - Game.laneGapFromCurb g
    - Car.height (Game.car g) - 50 /\
  Car.speed (Game.car (nextLevel g)) = 0 /\
  Car.steerAngle (Game.car (nextLevel g)) = 0.
Proof. repeat split. Qed.

Lemma newGame_pose (W H : R) :
  Car.angle (Game.car (newGame W H)) = 0 /\
  Car.y (Game.car (newGame W H)) = H / 2 + 160 - 10 - 45 - 50.
Proof. split; reflexivity. Qed.

(** X10.  Every level starts clear: the state the constructor builds, and
    the state after the level transition from any reachable state, report
    no collision of the player's car with the parked cars or the curb. *)
Theorem level_starts_clear (W H : R) (g : Game.t) :
  reachable W H g ->
  fst (checkCollisions (newGame W H)) = false /\
  fst (checkCollisions (nextLevel g)) = false.
Proof.
  intros Hr. split.
  - destruct (newGame_pose W H) as [Ha Hy].
    apply (spawn_clear W H); [apply newGame_laidOut|exact Ha|rewrite Hy; lra].
  - pose proof (reachable_laidOut W H g Hr) as Hl.
    destruct (nextLevel_pose g) as (Ha & Hy & _).
    apply (spawn_clear W H); [now apply nextLevel_laidOut|exact Ha|].
    rewrite Hy. destruct Hl as (Hf & Hb & _).
    injection Hf as _ _ _ Hcy _ _ Hoff Hlane _ _ _ _.
    injection Hb as _ Hh _ _ _.
    rewrite Hcy, Hoff, Hlane, Hh. lra.
Qed.

Lemma level_starts_clear_witness :
  fst (checkCollisions (newGame 800 600)) = false /\
  fst (checkCollisions (nextLevel (newGame 800 600))) = false.
Proof. apply (level_starts_clear 800 600 (newGame 800 600)). apply reach_new. Defined.

(** ** Further properties of the kinematics *)

(** Throttle, steering and the heading update leave the position alone. *)
Lemma driven_position (dt : R) (keys : Keys.t) (c : Car.t) :
  let c' := turn dt (steer dt keys (accelerate dt keys c)) in
  Car.x c' = Car.x c /\ Car.y c' = Car.y c /\
  Car.speed c' = Car.speed (accelerate dt keys c) /\
  Car.steerAngle c' = Car.steerAngle (steer dt keys (accelerate dt keys c)).
Proof.
  cbv zeta.
  assert (forall c0, Car.x (turn dt c0) = Car.x c0 /\ Car.y (turn dt c0) = Car.y c0 /\
                     Car.speed (turn dt c0) = Car.speed c0 /\
                     Car.steerAngle (turn dt c0) = Car.steerAngle c0) as Ht.
  { intros c0. unfold turn. destruct (_ && _); [|now repeat split].
    cbv zeta. destruct (Rltb 0 _); now repeat split. }
  assert (forall c0, Car.x (steer dt keys c0) = Car.x c0 /\
                     Car.y (steer dt keys c0) = Car.y c0 /\
                     Car.speed (steer dt keys c0) = Car.speed c0) as Hs.
  { intros c0. unfold steer.
    destruct (Keys.left keys); [|destruct (Keys.right keys)]; now repeat split. }
  assert (Car.x (accelerate dt keys c) = Car.x c /\
          Car.y (accelerate dt keys c) = Car.y c) as [Hax Hay].
  { unfold accelerate.
    destruct (Keys.up keys); [|destruct (Keys.down keys)]; try now split.
    destruct (Rltb 0 _); [|destruct (Rltb _ 0)]; now split. }
  destruct (Ht (steer dt keys (accelerate dt keys c))) as (-> & -> & -> & ->).
  destruct (Hs (accelerate dt keys c)) as (-> & -> & ->).
  now rewrite Hax, Hay.
Qed.

(** Where the kinematic step puts the car. *)
Lemma integrate_position (dt : R) (g : Game.t) :
  let c := Game.car g in
  let c' := Game.car (integrate dt g) in
  Car.x c' = Car.x c + cos (Car.angle c') * Car.speed c' * dt /\
  Car.y c' = Car.y c + sin (Car.angle c') * Car.speed c' * dt /\
  Car.speed c' = Car.speed (accelerate dt (Game.keys g) c) /\
  Car.steerAngle c' = Car.steerAngle (driven dt g) /\
  Car.angle c' = Car.angle (turn dt (driven dt g)).
Proof.
  cbv zeta. unfold integrate, driven. cbv zeta.
  destruct (driven_position dt (Game.keys g) (Game.car g)) as (Ex & Ey & Es & Ea).
  cbv zeta in Ex, Ey, Es, Ea.
  set (c1 := turn dt (steer dt (Game.keys g)
                        (accelerate dt (Game.keys g) (Game.car g)))) in *.
  change (Game.car (Game.set_car (advance dt c1) g)) with (advance dt c1).
  unfold advance. cbv zeta.
  change (Car.x (Car.set_y ?v ?c)) with (Car.x c).
  cbn [Car.x Car.y Car.speed Car.angle Car.steerAngle Car.set_x Car.set_y].
  rewrite Ex, Ey, Es, Ea. repeat split.
Qed.

(** X11.  From any reachable state the kinematic step of a frame, whose
    time step is clamped to 0.05 s, moves the car's centre by at most 18
    pixels (360 px/s for 0.05 s), in each coordinate and in distance. *)
Theorem frame_moves_at_most_18px (W H ts : R) (g : Game.t) :
  reachable W H g ->
  let c := Game.car g in
  let c' := Game.car (integrate (frameDelta ts g) g) in
  Rabs (Car.x c' - Car.x c) <= 18 /\ Rabs (Car.y c' - Car.y c) <= 18 /\
  hypot (Car.x c' - Car.x c) (Car.y c' - Car.y c) <= 18.
Proof.
  intros Hr. cbv zeta.
  pose proof (frameDelta_range ts g) as Hdt.
  destruct (reachable_inv W H g Hr) as [Hc Hb _ _].
  destruct (integrate_car (frameDelta ts g) (proj1 Hdt) g Hc Hb)
    as [(Hm & _) (_ & Hs)].
  destruct (integrate_position (frameDelta ts g) g) as (Ex & Ey & _).
  cbv zeta in Ex, Ey.
  set (c' := Game.car (integrate (frameDelta ts g) g)) in *.
  set (dt := frameDelta ts g) in *.
  rewrite Hm in Hs. apply Rabs_bound in Hs.
  assert (Rabs (Car.speed c' * dt) <= 18) as Hd by (apply Rabs_bound; split; nra).
  pose proof (COS_bound (Car.angle c')) as Hcos.
  pose proof (SIN_bound (Car.angle c')) as Hsin.
  pose proof (sin2_cos2 (Car.angle c')) as Hsc. unfold Rsqr in Hsc.
  apply Rabs_bound in Hd.
  set (d := Car.speed c' * dt) in *.
  replace (Car.x c' - Car.x (Game.car g)) with (cos (Car.angle c') * d)
    by (rewrite Ex; unfold d; ring).
  replace (Car.y c' - Car.y (Game.car g)) with (sin (Car.angle c') * d)
    by (rewrite Ey; unfold d; ring).
  repeat split.
  - apply Rabs_bound. split; nra.
  - apply Rabs_bound. split; nra.
  - replace (cos (Car.angle c') * d)
      with (d * cos (Car.angle c') - 0 * sin (Car.angle c')) by ring.
    replace (sin (Car.angle c') * d)
      with (d * sin (Car.angle c') + 0 * cos (Car.angle c')) by ring.
    rewrite hypot_rotate. rewrite (proj1 (hypot_axis d)). apply Rabs_bound. lra.
Qed.

Lemma frame_moves_at_most_18px_witness :
  let g := keydown ArrowUp (newGame 800 600) in
  let c := Game.car g in
  let c' := Game.car (integrate (frameDelta 16 g) g) in
  Rabs (Car.x c' - Car.x c) <= 18 /\ Rabs (Car.y c' - Car.y c) <= 18 /\
  hypot (Car.x c' - Car.x c) (Car.y c' - Car.y c) <= 18.
Proof.
  apply (frame_moves_at_most_18px 800 600 16 (keydown ArrowUp (newGame 800 600))).
  eapply reach_step; [apply reach_new|apply step_keydown].
Defined.

(** The heading after a tick is the heading after its heading update. *)
Lemma updateCar_heading (dt n1 n2 n3 : R) (g : Game.t) :
  Car.angle (Game.car (updateCar dt n1 n2 n3 g)) = Car.angle (Game.car g) \/
  Game.winResetAtMs g = None /\ Game.isDragging g = false /\
  Car.angle (Game.car (updateCar dt n1 n2 n3 g)) = Car.angle (turn dt (driven dt g)).
Proof.
  unfold updateCar.
  destruct (Game.winResetAtMs g); [now left|].
  destruct (Game.isDragging g); [now left|].
  right. split; [reflexivity|]. split; [reflexivity|]. cbv zeta.
  destruct (integrate_position dt g) as (_ & _ & _ & _ & <-).
  generalize (integrate dt g) as G. generalize (Car.x (Game.car g)) as px.
  generalize (Car.y (Game.car g)) as py. intros py px G.
  destruct (bounded_car_moved dt n3 (resolveCollision px py n1 n2 G)) as (x & y & ->).
  destruct (resolveCollision_state px py n1 n2 G) as (m & l & _ & ->).
  destruct (fst (checkCollisions G)); reflexivity.
Qed.

(** With no key held a car at rest is left as it is by throttle, friction
    and steering. *)
Lemma driven_idle (dt : R) (g : Game.t) :
  Game.keys g = Keys.mk false false false false ->
  Car.speed (Game.car g) = 0 ->
  driven dt g = Game.car g.
Proof.
  intros Hk Hs. unfold driven, steer, accelerate. rewrite Hk, Hs.
  cbn [Keys.up Keys.down Keys.left Keys.right].
  rewrite (proj2 (Rltb_false 0 0)) by lra. reflexivity.
Qed.

(** X12.  The car cannot pivot: a tick leaves the heading unchanged whenever
    the speed after throttle and friction is at most 0.05 in magnitude, or
    the steer angle after the steering input is at most 0.01 in magnitude;
    a collision, the boundary handling and the bounce never turn the car. *)
Theorem no_turning_without_speed_and_steer (dt n1 n2 n3 : R) (g : Game.t) :
  Rabs (Car.speed (driven dt g)) <= 5 / 100 \/
  Rabs (Car.steerAngle (driven dt g)) <= 1 / 100 ->
  Car.angle (Game.car (updateCar dt n1 n2 n3 g)) = Car.angle (Game.car g).
Proof.
  intros Hslow.
  destruct (updateCar_heading dt n1 n2 n3 g) as [E|(_ & _ & ->)]; [exact E|].
  assert (Car.angle (driven dt g) = Car.angle (Game.car g)) as <-.
  { unfold driven, steer, accelerate.
    destruct (Keys.left _); [|destruct (Keys.right _)];
      (destruct (Keys.up _); [|destruct (Keys.down _)]); try reflexivity;
      (destruct (Rltb 0 _); [|destruct (Rltb _ 0)]); reflexivity. }
  unfold turn.
  destruct (Rltb (5 / 100) _) eqn:E1; [|reflexivity].
  destruct (Rltb (1 / 100) _) eqn:E2; [|reflexivity].
  apply Rltb_true in E1, E2. lra.
Qed.

Lemma no_turning_without_speed_and_steer_witness :
  Car.angle (Game.car (updateCar (1 / 20) 1000 1000 1000 (newGame 800 600))) =
  Car.angle (Game.car (newGame 800 600)).
Proof.
  apply (no_turning_without_speed_and_steer (1 / 20) 1000 1000 1000 (newGame 800 600)).
  left. rewrite driven_idle by reflexivity.
  rewrite newGame_car. change (Rabs 0 <= 5 / 100). rewrite Rabs_R0. lra.
Defined.

(** X13.  Coasting never reverses the car: with neither throttle key held,
    friction reduces the magnitude of the speed by [friction * dt], stopping
    at zero, and the speed keeps its sign. *)
Theorem friction_never_reverses (dt : R) (keys : Keys.t) (c : Car.t) :
  0 <= Car.friction c * dt ->
  Keys.up keys = false -> Keys.down keys = false ->
  let v := Car.speed c in
  let v' := Car.speed (accelerate dt keys c) in
  Rabs v' = Rmax 0 (Rabs v - Car.friction c * dt) /\ 0 <= v * v'.
Proof.
  intros Hf Hu Hd. cbv zeta. unfold accelerate. rewrite Hu, Hd.
  destruct (Rltb 0 (Car.speed c)) eqn:E1;
    [apply Rltb_true in E1
    |apply Rltb_false in E1; destruct (Rltb (Car.speed c) 0) eqn:E2;
     [apply Rltb_true in E2|apply Rltb_false in E2]];
    cbn [Car.speed Car.set_speed].
  - rewrite (Rabs_right (Car.speed c)) by lra.
    rewrite Rabs_right by (apply Rle_ge, Rmax_l).
    split; [reflexivity|]. apply Rmult_le_pos; [lra|apply Rmax_l].
  - rewrite (Rabs_left (Car.speed c)) by lra.
    rewrite Rabs_left1 by apply Rmin_l.
    split; [split_minmax; lra|].
    pose proof (Rmin_l 0 (Car.speed c + Car.friction c * dt)). nra.
  - assert (Car.speed c = 0) as -> by lra.
    rewrite Rabs_R0. split; [split_minmax; lra|lra].
Qed.

Lemma friction_never_reverses_witness :
  let c := steeringRight 10 in
  let v' := Car.speed (accelerate (1 / 100) (Keys.mk false false false false) c) in
  Rabs v' = Rmax 0 (Rabs (Car.speed c) - Car.friction c * (1 / 100)) /\
  0 <= Car.speed c * v'.
Proof.
  apply (friction_never_reverses (1 / 100) (Keys.mk false false false false)
           (steeringRight 10)); try reflexivity.
  change (0 <= 300 * (1 / 100)). lra.
Defined.

Lemma sqrt3_pos : 0 < sqrt 3.
Proof. apply sqrt_lt_R0. lra. Qed.

(** X14.  In every reachable state [getTurningRadius] returns null exactly
    when the steer angle is below 0.01 in magnitude, and otherwise a radius
    of at least 70 * sqrt 3 (about 121 px): the wheelbase 70 over the
    tangent of the largest steer angle, pi/6. *)
Theorem turning_radius_floor (W H : R) (g : Game.t) :
  reachable W H g ->
  match getTurningRadius g with
  | None => Rabs (Car.steerAngle (Game.car g)) < 1 / 100
  | Some r => 1 / 100 <= Rabs (Car.steerAngle (Game.car g)) /\ 70 * sqrt 3 <= r
  end.
Proof.
  intros Hr. unfold getTurningRadius. cbv zeta.
  destruct (Rltb _ _) eqn:E; [now apply Rltb_true in E|]. apply Rltb_false in E.
  split; [exact E|].
  destruct (reachable_inv W H g Hr) as [(_ & _ & _ & Hmax & _) (Hs & _) _ _].
  destruct (reachable_laidOut W H g Hr) as (_ & Hb & _).
  injection Hb as _ _ Hwb _ _. rewrite Hwb, Hmax in *.
  set (s := Rabs (Car.steerAngle (Game.car g))) in *.
  pose proof PI2_3_2. pose proof PI_4. pose proof sqrt3_pos as H3.
  assert (0 < tan s) as Hpos by (apply tan_gt_0; lra).
  assert (tan s <= 1 / sqrt 3) as Hle.
  { rewrite <- tan_PI6. destruct Hs as [Hlt|Heq]; [|rewrite Heq; lra].
    left. apply tan_increasing; lra. }
  assert (sqrt 3 * tan s <= 1) as Hprod.
  { replace 1 with (sqrt 3 * (1 / sqrt 3)) by (field; lra).
    apply Rmult_le_compat_l; lra. }
  apply Rmult_le_reg_r with (tan s); [exact Hpos|].
  replace (70 / tan s * tan s) with 70 by (field; lra). nra.
Qed.

Lemma turning_radius_floor_witness :
  match getTurningRadius (newGame 800 600) with
  | None => Rabs (Car.steerAngle (Game.car (newGame 800 600))) < 1 / 100
  | Some r =>
      1 / 100 <= Rabs (Car.steerAngle (Game.car (newGame 800 600))) /\
      70 * sqrt 3 <= r
  end.
Proof. apply (turning_radius_floor 800 600 (newGame 800 600)). apply reach_new. Defined.

(** X15.  In every reachable state the distance the bounce impulse moves
    the car in one frame is between 0 and 11 pixels (220 px/s for at most
    0.05 s), whatever the clock reading. *)
Theorem bounce_step_bounded (W H ts now : R) (g : Game.t) :
  reachable W H g ->
  0 <= bounceTravel (frameDelta ts g) now g <= 11.
Proof.
  intros Hr.
  destruct (reachable_laidOut W H g Hr) as (Hf & _).
  injection Hf as _ _ _ _ _ _ _ _ _ _ Hsp Hdur.
  pose proof (frameDelta_range ts g) as Hdt.
  unfold bounceTravel. cbv zeta. rewrite Hsp, Hdur.
  set (t := Rmax 0 (Rmin 1 ((Game.collisionBounceUntilMs g - now) / 140))).
  assert (0 <= t <= 1) as Ht by (unfold t; split_minmax; lra).
  set (dt := frameDelta ts g) in *.
  assert (0 <= t * t <= 1) by nra.
  split; nra.
Qed.

Lemma bounce_step_bounded_witness :
  0 <= bounceTravel (frameDelta 16 onParkedCar) 1000 onParkedCar <= 11.
Proof.
  apply (bounce_step_bounded 800 600 16 1000 onParkedCar).
  apply onParkedCar_reachable.
Defined.

(** ** The alignment test *)

Lemma Rtrunc_small (r : R) : -1 < r < 1 -> Rtrunc r = 0%Z.
Proof.
  intros Hr. unfold Rtrunc. destruct (Rle_dec 0 r) as [Hp|Hn].
  - symmetry. apply Int_part_spec. cbn. lra.
  - assert (Int_part (- r) = 0%Z) as ->; [|reflexivity].
    symmetry. apply Int_part_spec. cbn. lra.
Qed.

(** Within one turn either way the remainder is the angle itself. *)
Lemma js_rem_one_turn (a : R) : - (PI * 2) < a < PI * 2 -> js_rem a (PI * 2) = a.
Proof.
  intros Ha. unfold js_rem.
  pose proof PI_RGT_0 as Hpi.
  rewrite Rtrunc_small; [cbn; ring|].
  split.
  - apply Rmult_lt_reg_r with (PI * 2); [lra|].
    replace (a / (PI * 2) * (PI * 2)) with a by (field; lra). lra.
  - apply Rmult_lt_reg_r with (PI * 2); [lra|].
    replace (a / (PI * 2) * (PI * 2)) with a by (field; lra). lra.
Qed.

(** X16.  For a heading strictly within one full turn of zero either way,
    the alignment test of [checkParking] holds exactly when the heading is
    within 0.2 of zero or above 2 pi - 0.2.  Headings just above -2 pi, which
    point the same way, do not pass. *)
Theorem alignment_within_one_turn (g : Game.t) :
  let a := Car.angle (Game.car g) in
  - (PI * 2) < a < PI * 2 ->
  wellAligned g = Rltb (Rabs a) (2 / 10) || Rltb (PI * 2 - 2 / 10) a.
Proof.
  cbv zeta. intros Ha. unfold wellAligned. cbv zeta.
  rewrite js_rem_one_turn by exact Ha.
  f_equal.
  set (a := Car.angle (Game.car g)) in *.
  rewrite Rabs_left by lra.
  destruct (Rltb (PI * 2 - 2 / 10) a) eqn:E;
    [apply Rltb_true in E; apply Rltb_true|apply Rltb_false in E; apply Rltb_false];
    lra.
Qed.

Lemma alignment_within_one_turn_witness :
  let g := Game.set_car (Car.set_angle (1 / 10 - PI * 2) initialCar) (newGame 800 600) in
  wellAligned g =
  Rltb (Rabs (1 / 10 - PI * 2)) (2 / 10) || Rltb (PI * 2 - 2 / 10) (1 / 10 - PI * 2).
Proof.
  apply (alignment_within_one_turn
           (Game.set_car (Car.set_angle (1 / 10 - PI * 2) initialCar) (newGame 800 600))).
  change (- (PI * 2) < 1 / 10 - PI * 2 < PI * 2).
  pose proof PI2_3_2. lra.
Defined.

(** ** The pointer *)

(** The crossing count stays even while every vertex is on one side. *)
Lemma crossing_none (px py : R) (points : polygon) (side : bool) :
  (forall q, In q points -> Rltb py (Pt.y q) = side) ->
  pointInPolygon px py points = false.
Proof.
  intros Hside. unfold pointInPolygon.
  destruct points as [|p0 rest] eqn:Ep; [reflexivity|]. rewrite <- Ep in *.
  assert (forall i, (i < length points)%nat ->
            Rltb py (Pt.y (nth i points origin)) = side) as Hnth
      by (intros i Hi; apply Hside, nth_In, Hi).
  assert (forall l j,
             (forall i, In i l -> (i < length points)%nat) ->
             (j < length points)%nat ->
             fst (fold_left
                    (fun (st : bool * nat) (i : nat) =>
                       let '(inside, j) := st in
                       let xi := Pt.x (nth i points origin) in
                       let yi := Pt.y (nth i points origin) in
                       let xj := Pt.x (nth j points origin) in
                       let yj := Pt.y (nth j points origin) in
                       let intersect :=
                         xorb (Rltb py yi) (Rltb py yj) &&
                         Rltb px ((xj - xi) * (py - yi) / (yj - yi + 1 / 1000000000000) + xi) in
                       (if intersect then negb inside else inside, i))
                    l (false, j)) = false) as Hfold.
  { induction l as [|i l IH]; intros j Hl Hj; [reflexivity|].
    cbn [fold_left]. cbv zeta.
    rewrite (Hnth i) by (apply Hl; now left). rewrite (Hnth j Hj).
    rewrite xorb_nilpotent. cbn [andb].
    apply IH; [intros i' Hi'; apply Hl; now right|apply Hl; now left]. }
  apply Hfold.
  - intros i Hi. apply in_seq in Hi. lia.
  - rewrite Ep. cbn [length]. lia.
Qed.

(** X17.  [pointInPolygon] answers false for every point that is level with
    or below all vertices (y at least every vertex y), and for every point
    strictly above all of them, whatever its x; in particular for the empty
    polygon. *)
Theorem point_beyond_vertical_extent_is_outside (px py : R) (points : polygon) :
  (forall q, In q points -> Pt.y q <= py) \/ (forall q, In q points -> py < Pt.y q) ->
  pointInPolygon px py points = false.
Proof.
  intros [Hup|Hdown].
  - apply (crossing_none px py points false).
    intros q Hq. apply Rltb_false. now apply Hup.
  - apply (crossing_none px py points true).
    intros q Hq. apply Rltb_true. now apply Hdown.
Qed.

Lemma point_beyond_vertical_extent_is_outside_witness :
  pointInPolygon 0 5 (square 0) = false.
Proof.
  apply (point_beyond_vertical_extent_is_outside 0 5 (square 0)).
  left. intros q Hq. rewrite square_points in Hq. cbn [In] in Hq.
  destruct Hq as [<-|[<-|[<-|[<-|[]]]]]; cbn [Pt.y]; lra.
Defined.

(** Every vertex of the footprint is within the half diagonal of the centre. *)
Lemma footprint_vertical_extent (cx cy w h a ix iy : R) (q : Pt.t) :
  In q (getChamferedRectPolygon cx cy w h a ix iy) ->
  Rabs (Pt.y q - cy) <= hypot (w / 2) (h / 2).
Proof.
  intros Hq. apply chamfer_within_rectangle in Hq.
  set (rho := hypot (w / 2) (h / 2)).
  assert (forall p, In p (getRectangleCorners cx cy w h a) ->
            cy - rho <= dot p (Pt.mk 0 1) <= cy + rho) as Hcorner.
  { unfold getRectangleCorners. cbv zeta. cbn [map In].
    assert (forall l, hypot (Pt.x l) (Pt.y l) = rho ->
              cy - rho <= dot (place cx cy a l) (Pt.mk 0 1) <= cy + rho) as Hl.
    { intros l El. unfold dot, place. cbn [Pt.x Pt.y].
      pose proof (hypot_rotate (Pt.x l) (Pt.y l) a) as Hrot. rewrite El in Hrot.
      set (u := Pt.x l * cos a - Pt.y l * sin a) in *.
      set (v := Pt.x l * sin a + Pt.y l * cos a) in *.
      assert (0 <= rho) as Hrho by (unfold rho, hypot; apply sqrt_pos).
      assert (u * u + v * v = rho * rho) as Hsq.
      { rewrite <- Hrot. unfold hypot. rewrite sqrt_sqrt; [reflexivity|nra]. }
      assert (forall u0 v0 r0, 0 <= r0 -> u0 * u0 + v0 * v0 = r0 * r0 ->
                - r0 <= v0 <= r0) as Hleg
          by (intros u0 v0 r0 H0 H1; split; apply Rnot_lt_le; intro; nra).
      pose proof (Hleg u v rho Hrho Hsq) as Hb. unfold v in Hb. lra. }
    assert (forall s t, (s = 1 \/ s = -1) -> (t = 1 \/ t = -1) ->
              hypot (s * (w / 2)) (t * (h / 2)) = rho) as Hsign.
    { intros s t Hs Ht. unfold rho, hypot. f_equal.
      destruct Hs as [-> | ->], Ht as [-> | ->]; ring. }
    intros p [<-|[<-|[<-|[<-|[]]]]]; apply Hl; cbn [Pt.x Pt.y].
    - rewrite <- (Hsign (-1) (-1)) by tauto. f_equal; ring.
    - rewrite <- (Hsign 1 (-1)) by tauto. f_equal; ring.
    - rewrite <- (Hsign 1 1) by tauto. f_equal; ring.
    - rewrite <- (Hsign (-1) 1) by tauto. f_equal; ring. }
  assert (forall p, hull (getRectangleCorners cx cy w h a) p ->
            cy - rho <= Pt.y p <= cy + rho) as Hhull.
  { induction 1 as [p Hp|p1 p2 t _ IH1 _ IH2 Ht].
    - specialize (Hcorner p Hp). unfold dot in Hcorner. cbn [Pt.x Pt.y] in Hcorner. lra.
    - cbn [Pt.y]. split; nra. }
  apply Rabs_bound. specialize (Hhull q Hq). lra.
Qed.

(** X18.  A press whose y is farther from the car's centre than half the
    diagonal of its box is never on the car, at any heading and any x, and
    [mousedown] then changes nothing. *)
Theorem press_far_from_car_is_ignored (px py : R) (g : Game.t) :
  let c := Game.car g in
  hypot (Car.width c / 2) (Car.height c / 2) < Rabs (py - Car.y c) ->
  isPointerOnCar px py g = false /\ mousedown px py g = g.
Proof.
  cbv zeta. intros Hfar.
  assert (isPointerOnCar px py g = false) as Hoff.
  { unfold isPointerOnCar.
    assert (forall q, In q (playerPolygon (Game.car g)) ->
              Rabs (Pt.y q - Car.y (Game.car g)) <=
              hypot (Car.width (Game.car g) / 2) (Car.height (Game.car g) / 2)) as Hext
        by (intros q; apply footprint_vertical_extent).
    unfold Rabs in Hfar. destruct (Rcase_abs _) in Hfar.
    - apply (crossing_none px py _ true). intros q Hq. apply Rltb_true.
      specialize (Hext q Hq). apply Rabs_bound in Hext. lra.
    - apply (crossing_none px py _ false). intros q Hq. apply Rltb_false.
      specialize (Hext q Hq). apply Rabs_bound in Hext. lra. }
  split; [exact Hoff|]. unfold mousedown. now rewrite Hoff.
Qed.

Lemma hypot_le_sum (a b : R) : 0 <= a -> 0 <= b -> hypot a b <= a + b.
Proof.
  intros Ha Hb. unfold hypot.
  rewrite <- (sqrt_square (a + b)) by lra.
  apply sqrt_le_1_alt. nra.
Qed.

Lemma press_far_from_car_is_ignored_witness :
  isPointerOnCar 110 500 (newGame 800 600) = false /\
  mousedown 110 500 (newGame 800 600) = newGame 800 600.
Proof.
  apply (press_far_from_car_is_ignored 110 500 (newGame 800 600)).
  rewrite newGame_car.
  change (hypot (90 / 2) (45 / 2) < Rabs (500 - 355)).
  pose proof (hypot_le_sum (90 / 2) (45 / 2) ltac:(lra) ltac:(lra)).
  rewrite Rabs_right by lra. lra.
Defined.







(** ** The car factory and the turning guide *)

Lemma orElse_pos (a b : R) :
  0 <= a -> 0 <= b -> 0 < orElse (orElse a b) 1.
Proof.
  intros Ha Hb. unfold orElse.
  destruct (Req_dec_T a 0); destruct (Req_dec_T _ 0); lra.
Qed.

Lemma Rround_le (x : R) (n : Z) : x <= IZR n -> Rround x <= IZR n.
Proof.
  intros Hx. unfold Rround.
  destruct (base_Int_part (x + 1 / 2)) as [Hlo _].
  apply IZR_le. apply Z.lt_succ_r. apply lt_IZR.
  rewrite succ_IZR. lra.
Qed.

(** X20.  [createNpcCar] with a whole long side of at least 1 and an image
    of non-negative size fields (or none) returns a car centred where asked,
    whose width is the long side and whose height is between 1 and the
    width; an image turned by a quarter gives the same car. *)
Theorem createNpcCar_box (image : option Image.t) (cx cy : R)
    (options : NpcOptions.t) (n : Z) :
  withDefault (NpcOptions.longSidePx options) 90 = IZR n -> (1 <= n)%Z ->
  (forall i, image = Some i ->
     0 <= Image.naturalWidth i /\ 0 <= Image.width i /\
     0 <= Image.naturalHeight i /\ 0 <= Image.height i) ->
  let car := createNpcCar image cx cy options in
  Npc.x car = cx /\ Npc.y car = cy /\
  Npc.width car = IZR n /\ 1 <= Npc.height car <= Npc.width car /\
  createNpcCar (option_map transposed image) cx cy options = car.
Proof.
  intros HL Hn Himg. cbv zeta. unfold createNpcCar. cbv zeta. rewrite HL.
  set (iw := match image with
             | Some i => orElse (orElse (Image.naturalWidth i) (Image.width i)) 1
             | None => 1 end).
  set (ih := match image with
             | Some i => orElse (orElse (Image.naturalHeight i) (Image.height i)) 1
             | None => 1 end).
  assert (0 < iw /\ 0 < ih) as [Hiw Hih].
  { unfold iw, ih. destruct image as [i|]; [|lra].
    destruct (Himg i eq_refl) as (H1 & H2 & H3 & H4).
    split; now apply orElse_pos. }
  assert (match option_map transposed image with
          | Some i => orElse (orElse (Image.naturalWidth i) (Image.width i)) 1
          | None => 1 end = ih) as -> by now destruct image.
  assert (match option_map transposed image with
          | Some i => orElse (orElse (Image.naturalHeight i) (Image.height i)) 1
          | None => 1 end = iw) as -> by now destruct image.
  assert (1 <= IZR n) as HnR by (apply IZR_le in Hn; exact Hn).
  assert (forall a b, 0 < a -> a <= b ->
            1 <= Rmax 1 (Rround (IZR n * a / b)) <= IZR n) as Hshort.
  { intros a b Ha Hab. split; [apply Rmax_l|].
    apply Rmax_lub; [exact HnR|]. apply Rround_le.
    apply Rmult_le_reg_r with b; [lra|].
    replace (IZR n * a / b * b) with (IZR n * a) by (field; lra). nra. }
  destruct (Rleb ih iw) eqn:E1; [apply Rleb_true in E1|apply Rleb_false in E1];
    (destruct (Rleb iw ih) eqn:E2; [apply Rleb_true in E2|apply Rleb_false in E2]);
    cbn [Npc.x Npc.y Npc.width Npc.height];
    try (exfalso; lra).
  - assert (iw = ih) as E by lra. rewrite E.
    repeat split; try reflexivity; apply Hshort; lra.
  - repeat split; try reflexivity; apply Hshort; lra.
  - repeat split; try reflexivity; apply Hshort; lra.
Qed.

Lemma createNpcCar_box_witness :
  let image := Some (Image.mk 512 0 256 0) in
  let car := createNpcCar image 255 420 (NpcOptions.mk None None None None) in
  Npc.x car = 255 /\ Npc.y car = 420 /\
  Npc.width car = IZR 90 /\ 1 <= Npc.height car <= Npc.width car /\
  createNpcCar (option_map transposed image) 255 420
    (NpcOptions.mk None None None None) = car.
Proof.
  apply (createNpcCar_box (Some (Image.mk 512 0 256 0)) 255 420
           (NpcOptions.mk None None None None) 90).
  - reflexivity.
  - lia.
  - intros i [= <-]. cbn. lra.
Defined.

Lemma quarter_turn (a : R) (left : bool) :
  let p := a + (if left then PI / 2 else - PI / 2) in
  cos p * cos a + sin p * sin a = 0 /\ cos p * cos p + sin p * sin p = 1.
Proof.
  cbv zeta. split.
  - replace (cos _ * cos a + sin _ * sin a)
      with (cos ((a + (if left then PI / 2 else - PI / 2)) - a))
      by (rewrite cos_minus; ring).
    replace (a + (if left then PI / 2 else - PI / 2) - a)
      with (if left then PI / 2 else - (PI / 2)) by (destruct left; lra).
    destruct left; [apply cos_PI2|rewrite cos_neg; apply cos_PI2].
  - pose proof (sin2_cos2 (a + (if left then PI / 2 else - PI / 2))) as H.
    unfold Rsqr in H. lra.
Qed.

(** X21.  The path [drawTurningArc] strokes: a circle only when the steer
    angle is at least 0.01 in magnitude, and then one that passes through
    the anchor at the front of the car, whose centre lies on the
    perpendicular to the heading through the anchor, and whose radius is at
    least the turning radius; otherwise a 440 pixel segment along the
    heading with the anchor at its middle. *)
Theorem turning_guide_geometry (g : Game.t) :
  let c := Game.car g in
  let anchor := guideAnchor c in
  match turningGuide g with
  | GuideLine p q =>
      Pt.x q - Pt.x anchor = Pt.x anchor - Pt.x p /\
      Pt.y q - Pt.y anchor = Pt.y anchor - Pt.y p /\
      Pt.x q - Pt.x p = 440 * cos (Car.angle c) /\
      Pt.y q - Pt.y p = 440 * sin (Car.angle c)
  | GuideCircle center radius =>
      1 / 100 <= Rabs (Car.steerAngle c) /\
      dist center anchor = radius /\
      (Pt.x center - Pt.x anchor) * cos (Car.angle c) +
      (Pt.y center - Pt.y anchor) * sin (Car.angle c) = 0 /\
      exists r, getTurningRadius g = Some r /\ Rabs r <= radius
  end.
Proof.
  cbv zeta. unfold turningGuide. cbv zeta.
  assert (forall p q,
            p = Pt.mk (Pt.x (guideAnchor (Game.car g)) - cos (Car.angle (Game.car g)) * 220)
                      (Pt.y (guideAnchor (Game.car g)) - sin (Car.angle (Game.car g)) * 220) ->
            q = Pt.mk (Pt.x (guideAnchor (Game.car g)) + cos (Car.angle (Game.car g)) * 220)
                      (Pt.y (guideAnchor (Game.car g)) + sin (Car.angle (Game.car g)) * 220) ->
            Pt.x q - Pt.x (guideAnchor (Game.car g)) =
              Pt.x (guideAnchor (Game.car g)) - Pt.x p /\
            Pt.y q - Pt.y (guideAnchor (Game.car g)) =
              Pt.y (guideAnchor (Game.car g)) - Pt.y p /\
            Pt.x q - Pt.x p = 440 * cos (Car.angle (Game.car g)) /\
            Pt.y q - Pt.y p = 440 * sin (Car.angle (Game.car g))) as Hline
      by (intros p q -> ->; cbn [Pt.x Pt.y]; repeat split; ring).
  destruct (getTurningRadius g) as [r|] eqn:Er; [|now apply Hline].
  destruct (Req_dec_T r 0) as [E0|E0]; [now apply Hline|].
  destruct (Rltb _ _) eqn:Es; [now apply Hline|]. apply Rltb_false in Es.
  set (s := Car.wheelbase (Game.car g) / 2 + (Car.width (Game.car g) / 2 - 8)).
  set (R0 := hypot r s).
  assert (0 <= R0) as HR by (unfold R0, hypot; apply sqrt_pos).
  destruct (quarter_turn (Car.angle (Game.car g))
              (Rltb 0 (Car.steerAngle (Game.car g)))) as [Hperp Hunit].
  cbv zeta in Hperp, Hunit.
  set (p := Car.angle (Game.car g) +
            (if Rltb 0 (Car.steerAngle (Game.car g)) then PI / 2 else - PI / 2)) in *.
  split; [exact Es|]. split; [|split].
  - unfold dist. cbn [Pt.x Pt.y].
    apply hypot_eval; [exact HR|].
    replace (_ * _ + _ * _) with (R0 * R0 * (cos p * cos p + sin p * sin p)) by ring.
    rewrite Hunit. ring.
  - cbn [Pt.x Pt.y].
    replace (_ + _) with
      (R0 * (cos p * cos (Car.angle (Game.car g)) + sin p * sin (Car.angle (Game.car g))))
      by ring.
    rewrite Hperp. ring.
  - exists r. split; [reflexivity|].
    unfold R0, hypot. rewrite <- sqrt_Rsqr_abs. apply sqrt_le_1_alt.
    unfold Rsqr. nra.
Qed.

(** ** Winning *)

Lemma nextLevel_flags (g : Game.t) :
  Game.winCount (nextLevel g) = (Game.winCount g + 1)%Z /\
  Game.winLatched (nextLevel g) = false /\
  Game.winResetAtMs (nextLevel g) = None.
Proof. repeat split. Qed.

(** X22.  The win count changes only in a frame, and then by exactly one:
    keys, the mouse and the slider leave it alone, and a frame that counts
    a win ends unlatched with no reset pending and the car stopped with
    steer angle and heading zero. *)
Theorem wins_only_by_frames (g g' : Game.t) :
  step g g' ->
  Game.winCount g' = Game.winCount g \/
  (exists ts k, g' = gameLoop ts k g) /\
  Game.winCount g' = (Game.winCount g + 1)%Z /\
  Game.winLatched g' = false /\ Game.winResetAtMs g' = None /\
  Car.speed (Game.car g') = 0 /\ Car.steerAngle (Game.car g') = 0 /\
  Car.angle (Game.car g') = 0.
Proof.
  intros Hs. destruct Hs.
  - unfold gameLoop. cbv zeta.
    set (g1 := updateCar _ _ _ _ _).
    assert (Game.winCount g1 = Game.winCount g) as E1.
    { unfold g1.
      match goal with
      | |- Game.winCount (updateCar ?dt ?a ?b ?c ?g0) = _ =>
          destruct (updateCar_level dt a b c g0) as (_ & _ & _ & -> & _)
      end. reflexivity. }
    destruct (latchWin_level (Clock.latch k) g1) as (_ & _ & _ & E2).
    destruct (checkParking_cases (Clock.latch k) (Clock.timer k) g1)
      as [[-> _]|[E _]].
    + left. congruence.
    + right. split.
      * exists timestampMs, k. reflexivity.
      * rewrite E.
        destruct (nextLevel_flags (latchWin (Clock.latch k) g1)) as (-> & -> & ->).
        destruct (nextLevel_pose (latchWin (Clock.latch k) g1)) as (-> & _ & -> & ->).
        rewrite E2, E1. repeat split.
  - left. destruct code; reflexivity.
  - left. destruct code; reflexivity.
  - left. unfold mousedown. destruct (isPointerOnCar x y g); reflexivity.
  - left. unfold mousemove. destruct (negb _); reflexivity.
  - left. reflexivity.
  - left. reflexivity.
Qed.

Lemma wins_only_by_frames_witness :
  let g := newGame 800 600 in
  let g' := gameLoop 16 (Clock.mk 1000 1000 1000 1000 1000) g in
  Game.winCount g' = Game.winCount g \/
  (exists ts k, g' = gameLoop ts k g) /\
  Game.winCount g' = (Game.winCount g + 1)%Z /\
  Game.winLatched g' = false /\ Game.winResetAtMs g' = None /\
  Car.speed (Game.car g') = 0 /\ Car.steerAngle (Game.car g') = 0 /\
  Car.angle (Game.car g') = 0.
Proof.
  apply (wins_only_by_frames (newGame 800 600)
           (gameLoop 16 (Clock.mk 1000 1000 1000 1000 1000) (newGame 800 600))).
  apply step_frame.
Defined.

Lemma footprint_proj_x (x y : R) :
  projectPointsOnAxis (getChamferedRectPolygon x y 90 45 0 8 6) (Pt.mk (-1) 0) =
  (Fin (- x - 45), Fin (- x + 45)).
Proof. rewrite car_footprint. eval_proj (- x - 45) (- x + 45). Qed.

(** Two cars at heading 0 whose centres are 90 apart in x do not touch. *)
Lemma footprint_clear_beside (x y x' y' : R) :
  90 <= Rabs (x' - x) ->
  Hit.collides (polygonCollisionMTV (getChamferedRectPolygon x y 90 45 0 8 6)
                  (getChamferedRectPolygon x' y' 90 45 0 8 6)) = false.
Proof.
  intros Hx. unfold polygonCollisionMTV. cbv zeta.
  rewrite mtvLoop_separating; [reflexivity|].
  exists (Pt.mk (-1) 0). split.
  - apply in_app_iff. left. rewrite car_footprint, getAxes8. right; right; left.
    apply (edgeAxis_eval _ _ 33); cbn; lra.
  - rewrite (overlap_eval _ _ _ _ _ _ _ _ (footprint_proj_x x y)
               (footprint_proj_x x' y') eq_refl).
    cbn [num_le]. apply Rleb_true.
    unfold Rabs in Hx. destruct (Rcase_abs _) in Hx; split_minmax; lra.
Qed.

(** A car at heading 0 that fits between the parked cars and above the curb
    touches nothing. *)
Lemma fitting_car_clear (W H : R) (g : Game.t) :
  laidOut W H g ->
  Car.angle (Game.car g) = 0 ->
  Rabs (Car.x (Game.car g) - W / 2) <= Game.gapBetweenCars g / 2 - 45 ->
  Car.y (Game.car g) <= H / 2 + 275 / 2 ->
  fst (checkCollisions g) = false.
Proof.
  intros (Hf & Hb & Hl) Ha Hx Hy.
  injection Hf as HW HH Hcx Hcy Hcw Hch Hoff _ _ _ _ _.
  injection Hb as Hw Hh _ Hix Hiy.
  unfold layout, laneFor in Hl. injection Hl as Hcars _.
  assert (playerPolygon (Game.car g) =
          getChamferedRectPolygon (Car.x (Game.car g)) (Car.y (Game.car g))
            90 45 0 8 6) as EP
      by (unfold playerPolygon; now rewrite Hw, Hh, Ha, Hix, Hiy).
  destruct (checkCollisions_outcome g) as [(Hno & _)|(p & B & _ & Hk & Hc & _)];
    [exact Hno|exfalso].
  rewrite EP in Hc. apply Rabs_bound in Hx.
  destruct Hk as [(Hin & -> & _)|(-> & -> & _)].
  - unfold parkedCarList in Hin. rewrite Hcars in Hin. cbn [fst snd In] in Hin.
    destruct Hin as [<-|[<-|[]]]; unfold npcPolygon in Hc;
      cbn [Npc.x Npc.y Npc.width Npc.height Npc.angle Npc.collisionInsetX
           Npc.collisionInsetY] in Hc;
      rewrite footprint_clear_beside in Hc; try discriminate.
    + rewrite Rabs_left1 by lra. lra.
    + rewrite Rabs_right by lra. lra.
  - unfold curbPolygon, curbOf in Hc. cbv zeta in Hc.
    cbn [Npc.x Npc.y Npc.width Npc.height Npc.angle] in Hc.
    rewrite box_points in Hc.
    rewrite (footprint_clear_below _ _ _
               (Game.centerY g + Game.curbOffsetY g + Game.curbHeight g / 2
                - Game.curbHeight g / 2)
               (Game.centerY g + Game.curbOffsetY g + Game.curbHeight g / 2
                + Game.curbHeight g / 2)) in Hc; [discriminate| |lra].
    rewrite Hch, Hcy, Hoff.
    eval_proj (H / 2 + 160 + 30 / 2 - 30 / 2) (H / 2 + 160 + 30 / 2 + 30 / 2).
Qed.

(** A tick on a car at rest that touches nothing, with no key held and no
    bounce running, leaves the car where it is. *)
Lemma resting_tick (W H dt n1 n2 n3 : R) (g : Game.t) :
  laidOut W H g ->
  Game.keys g = Keys.mk false false false false ->
  Game.isDragging g = false -> Game.winResetAtMs g = None ->
  Game.collisionBounceUntilMs g <= n3 ->
  Car.speed (Game.car g) = 0 -> Car.angle (Game.car g) = 0 ->
  Rabs (Car.x (Game.car g) - W / 2) <= Game.gapBetweenCars g / 2 - 45 ->
  Car.y (Game.car g) <= H / 2 + 275 / 2 ->
  -45 <= Car.x (Game.car g) <= W + 45 ->
  45 <= Car.y (Game.car g) <= H - 45 ->
  let c' := Game.car (updateCar dt n1 n2 n3 g) in
  Car.x c' = Car.x (Game.car g) /\ Car.y c' = Car.y (Game.car g) /\
  Car.angle c' = 0 /\ Car.speed c' = 0.
Proof.
  intros Hl Hk Hd Hr Hb Hs Ha Hx Hy Hxr Hyr. cbv zeta.
  rewrite updateCar_physics by assumption.
  rewrite (integrate_at_rest dt g Hk Hs).
  pose proof (fitting_car_clear W H g Hl Ha Hx Hy) as Hclear.
  destruct (resolveCollision_state (Car.x (Game.car g)) (Car.y (Game.car g)) n1 n2 g)
    as (m & l & _ & ->).
  rewrite Hclear.
  destruct Hl as (Hf & Hbuild & _).
  injection Hf as HW HH _ _ _ _ _ _ _ _ _ _.
  injection Hbuild as Hw _ _ _ _.
  set (g2 := Game.set_car (Car.set_collided false (Game.car g))
               (Game.set_collisionMTV m (Game.set_lastCollision l g))).
  assert (- (90 / 2) <= Car.x (Game.car g) <= W + 90 / 2) as Hxr' by lra.
  destruct (bounce_inert dt n3 W H 90 (Car.x (Game.car g)) (Car.y (Game.car g))
              (Game.collisionBounceUntilMs g) g2 HW HH Hw eq_refl eq_refl eq_refl
              Hxr' Hyr (or_introl Hb)) as [Ex Ey].
  destruct (bounded_car_moved dt n3 g2) as (x & y & Ec).
  split; [exact Ex|]. split; [exact Ey|].
  rewrite Ec. split; [exact Ha|exact Hs].
Qed.

(** X23.  Parking wins: from a reachable state with no key held, no drag,
    no win latched or pending and no bounce running, a frame on a car at
    rest at heading 0 that fits between the parked cars, with its centre in
    the target space and clear of the curb, finds no collision, leaves the
    car in place, latches the win and schedules the reset 1200 ms after the
    latch reading; the win count is not yet changed. *)
Theorem parked_car_latches_win (W H ts : R) (k : Clock.t) (g : Game.t) :
  reachable W H g ->
  Game.keys g = Keys.mk false false false false ->
  Game.isDragging g = false ->
  Game.winLatched g = false -> Game.winResetAtMs g = None ->
  Game.collisionBounceUntilMs g <= Clock.bounce k ->
  let c := Game.car g in
  Car.speed c = 0 -> Car.angle c = 0 ->
  Rabs (Car.x c - W / 2) <= Game.gapBetweenCars g / 2 - 45 ->
  H / 2 + 90 < Car.y c <= H / 2 + 275 / 2 ->
  -45 <= Car.x c <= W + 45 -> 45 <= Car.y c <= H - 45 ->
  Clock.timer k < Clock.latch k + 1200 ->
  let g' := gameLoop ts k g in
  Game.winLatched g' = true /\
  Game.winResetAtMs g' = Some (Clock.latch k + 1200) /\
  Game.winCount g' = Game.winCount g /\
  Car.x (Game.car g') = Car.x c /\ Car.y (Game.car g') = Car.y c.
Proof.
  intros Hreach Hk Hd Hlat Hr Hb. cbv zeta. intros Hs Ha Hx Hy Hxr Hyr Ht.
  pose proof (reachable_laidOut W H g Hreach) as Hl.
  unfold gameLoop. cbv zeta.
  set (g0 := Game.set_lastFrameAtMs (Some ts) g).
  assert (laidOut W H g0) as Hl0 by exact Hl.
  destruct (resting_tick W H (frameDelta ts g) (Clock.flash k) (Clock.hit k)
              (Clock.bounce k) g0 Hl0 Hk Hd Hr Hb Hs Ha Hx (proj2 Hy) Hxr Hyr)
    as (Ex & Ey & Ea & Esp).
  destruct (updateCar_frame (frameDelta ts g) (Clock.flash k) (Clock.hit k)
              (Clock.bounce k) g0) as (Ef & Elay & _).
  destruct (updateCar_level (frameDelta ts g) (Clock.flash k) (Clock.hit k)
              (Clock.bounce k) g0) as (_ & _ & _ & Ewc & Ewl & Ewr).
  cbv zeta in Ex, Ey, Ea, Esp.
  revert Ex Ey Ea Esp Ef Elay Ewc Ewl Ewr.
  generalize (updateCar (frameDelta ts g) (Clock.flash k) (Clock.hit k)
                (Clock.bounce k) g0) as g1.
  intros g1 Ex Ey Ea Esp Ef Elay Ewc Ewl Ewr.
  change (Game.car g0) with (Game.car g) in *.
  change (Game.winCount g0) with (Game.winCount g) in *.
  change (Game.winLatched g0) with (Game.winLatched g) in *.
  change (Game.winResetAtMs g0) with (Game.winResetAtMs g) in *.
  change (fixture g0) with (fixture g) in *.
  change (layout g0) with (layout g) in *.
  destruct Hl as (Hf & _ & Hlay).
  rewrite Hf in Ef. rewrite Hlay in Elay.
  injection Ef as _ _ _ _ _ _ _ _ Hdelay _ _ _.
  unfold layout, laneFor in Elay. injection Elay as _ Hspace Hgap.
  assert (winCondition g1 = true) as Hwin.
  { unfold winCondition, inSpace, wellAligned. cbv zeta.
    rewrite Hspace, Ex, Ey, Ea, Esp.
    cbn [Space.x Space.y Space.width Space.height].
    rewrite js_rem_one_turn by (pose proof PI_RGT_0; lra).
    rewrite Rabs_R0. apply Rabs_bound in Hx.
    repeat (apply andb_true_iff; split); try (apply Rltb_true; lra).
    apply orb_true_iff. left. apply Rltb_true. lra. }
  assert (latchWin (Clock.latch k) g1 =
          Game.set_winResetAtMs (Some (Clock.latch k + 1200))
            (Game.set_winLatched true g1)) as Elatch.
  { unfold latchWin. rewrite Hwin, Ewl, Hlat, Hdelay. reflexivity. }
  unfold checkParking. cbv zeta. rewrite Elatch.
  cbn [Game.winResetAtMs Game.set_winResetAtMs].
  rewrite (proj2 (Rleb_false _ _)) by lra.
  repeat split; assumption.
Qed.

Lemma dragged_car_to (x y : R) :
  45 <= x <= 755 -> 45 <= y <= 555 ->
  Car.set_collided false
    (Car.set_y (clamp45 600 (y + (Car.y (moved 110 355 initialCar) - 355)))
       (Car.set_x (clamp45 800 (x + (Car.x (moved 110 355 initialCar) - 110)))
          (Car.set_speed 0 (moved 110 355 initialCar)))) =
  moved x y initialCar.
Proof.
  intros Hx Hy.
  cbv beta iota zeta delta
    [moved initialCar clamp45
     Car.set_x Car.set_y Car.set_speed Car.set_collided
     Car.x Car.y Car.width Car.height Car.angle Car.speed Car.maxSpeed
     Car.acceleration Car.friction Car.steerAngle Car.maxSteerAngle
     Car.wheelbase Car.steerChangeRate Car.collisionInsetX Car.collisionInsetY
     Car.collided Car.lastDirection].
  f_equal; split_minmax; lra.
Qed.

(** Pressing on the centre of the car, moving the pointer and releasing
    puts the car under the pointer and changes nothing else. *)
Lemma drag_by_centre (x y : R) (g : Game.t) :
  isPointerOnCar 110 355 g = true ->
  Game.isDragging g = false ->
  Game.dragOffsetX g = 0 -> Game.dragOffsetY g = 0 ->
  Game.canvasWidth g = 800 -> Game.canvasHeight g = 600 ->
  Game.car g = moved 110 355 initialCar ->
  45 <= x <= 755 -> 45 <= y <= 555 ->
  endDrag (mousemove x y (mousedown 110 355 g)) =
  Game.set_car (moved x y initialCar) g.
Proof.
  intros Hp Hd Hx Hy HW HH Hc Hxr Hyr.
  unfold mousedown. rewrite Hp.
  unfold mousemove. cbn [Game.isDragging Game.set_isDragging Game.set_car
                           Game.set_dragOffsetX Game.set_dragOffsetY negb].
  unfold endDrag.
  cbn [Game.car Game.set_car Game.set_isDragging Game.set_dragOffsetX
         Game.set_dragOffsetY Game.dragOffsetX Game.dragOffsetY
         Game.canvasWidth Game.canvasHeight].
  rewrite Hc, HW, HH, dragged_car_to by assumption.
  change (Car.x (moved 110 355 initialCar)) with 110.
  change (Car.y (moved 110 355 initialCar)) with 355.
  replace (110 - 110) with 0 by lra. replace (355 - 355) with 0 by lra.
  now apply drag_and_drop.
Qed.

Lemma droppedInSpace_state :
  droppedInSpace = Game.set_car (moved 400 420 initialCar) (newGame 800 600).
Proof.
  apply drag_by_centre; try reflexivity; try lra.
  - apply pointer_on_initial_car.
  - apply newGame_car.
Qed.

Lemma droppedInSpace_reachable : reachable 800 600 droppedInSpace.
Proof.
  unfold droppedInSpace.
  eapply reach_step; [eapply reach_step; [eapply reach_step; [apply reach_new|]|]|].
  - apply step_mousedown.
  - apply step_mousemove.
  - apply step_endDrag.
Qed.

Lemma parked_car_latches_win_witness :
  let g' := gameLoop 16 (Clock.mk 1000 1000 1000 1000 1000) droppedInSpace in
  Game.winLatched g' = true /\
  Game.winResetAtMs g' = Some (1000 + 1200) /\
  Game.winCount g' = Game.winCount droppedInSpace /\
  Car.x (Game.car g') = Car.x (Game.car droppedInSpace) /\
  Car.y (Game.car g') = Car.y (Game.car droppedInSpace).
Proof.
  apply (parked_car_latches_win 800 600 16 (Clock.mk 1000 1000 1000 1000 1000)
           droppedInSpace).
  all: try apply droppedInSpace_reachable.
  all: try rewrite droppedInSpace_state.
  all: try reflexivity.
  - change (0 <= 1000). lra.
  - change (Rabs (400 - 800 / 2) <= 200 / 2 - 45). apply Rabs_bound. lra.
  - change (600 / 2 + 90 < 420 <= 600 / 2 + 275 / 2). lra.
  - change (-45 <= 400 <= 800 + 45). lra.
  - change (45 <= 420 <= 600 - 45). lra.
  - change (1000 < 1000 + 1200). lra.
Defined.

(** ** Layout, spawn and the frame clock *)

(** X24.  Laying out the lane and placing the car at the start are
    independent: each is idempotent and the two commute, so the constructor
    (placing, then laying out) and the level transition (laying out, then
    placing) agree. *)
Theorem layout_and_spawn_commute (g : Game.t) :
  recomputeParkingLayout (recomputeParkingLayout g) = recomputeParkingLayout g /\
  setInitialCarPosition (setInitialCarPosition g) = setInitialCarPosition g /\
  recomputeParkingLayout (setInitialCarPosition g) =
  setInitialCarPosition (recomputeParkingLayout g).
Proof.
  destruct g as [? ? ? ? c ? [p0 p1] s]. destruct c, p0, p1, s.
  repeat split.
Qed.

Lemma updateCar_clock (dt n1 n2 n3 : R) (g : Game.t) :
  Game.lastFrameAtMs (updateCar dt n1 n2 n3 g) = Game.lastFrameAtMs g.
Proof.
  unfold updateCar.
  destruct (Game.winResetAtMs g); [reflexivity|].
  destruct (Game.isDragging g); [reflexivity|].
  cbv zeta.
  change (Game.lastFrameAtMs g) with (Game.lastFrameAtMs (integrate dt g)).
  generalize (integrate dt g) as G. generalize (Car.x (Game.car g)) as px.
  generalize (Car.y (Game.car g)) as py. intros py px G.
  destruct (resolveCollision_state px py n1 n2 G) as (m & l & _ & ->).
  match goal with
  | |- context [applyBounce _ _ (wrapAndClamp ?g2)] => set (G2 := g2)
  end.
  destruct (wrapAndClamp_moved G2) as (x1 & y1 & ->).
  destruct (applyBounce_moved dt n3
              (Game.set_car (moved x1 y1 (Game.car G2)) G2)) as (x2 & y2 & ->).
  subst G2.
  destruct (fst (checkCollisions G)); reflexivity.
Qed.

Lemma checkParking_clock (n1 n2 : R) (g : Game.t) :
  Game.lastFrameAtMs (checkParking n1 n2 g) = Game.lastFrameAtMs g.
Proof.
  assert (Game.lastFrameAtMs (latchWin n1 g) = Game.lastFrameAtMs g) as E.
  { unfold latchWin.
    destruct (winCondition g); [destruct (negb _)|destruct (Game.winResetAtMs g)];
      reflexivity. }
  unfold checkParking. cbv zeta.
  destruct (Game.winResetAtMs _); [destruct (Rleb _ _)|]; exact E.
Qed.

(** X25.  The time step of a frame depends only on the previous frame's
    timestamp: it is 0 in the first frame of a new game; every frame stores
    its timestamp, whatever else it does; and the next frame's step is the
    difference in seconds clamped to between 0 and 0.05. *)
Theorem frame_time_step (W H ts0 ts1 ts2 : R) (k : Clock.t) (g : Game.t) :
  frameDelta ts0 (newGame W H) = 0 /\
  Game.lastFrameAtMs (gameLoop ts1 k g) = Some ts1 /\
  frameDelta ts2 (gameLoop ts1 k g) = Rmax 0 (Rmin ((ts2 - ts1) / 1000) (5 / 100)).
Proof.
  assert (Game.lastFrameAtMs (gameLoop ts1 k g) = Some ts1) as E.
  { unfold gameLoop. cbv zeta. now rewrite checkParking_clock, updateCar_clock. }
  split; [|split; [exact E|]].
  - unfold frameDelta.
    change (Game.lastFrameAtMs (newGame W H)) with (@None R). cbv zeta.
    replace ((ts0 - ts0) / 1000) with 0 by lra. split_minmax; lra.
  - unfold frameDelta. now rewrite E.
Qed.

(** ** The car stays on the canvas *)

Lemma step_gap_ceiling (g g' : Game.t) :
  step g g' -> Inv g ->
  Game.gapBetweenCars g <= 360 -> Game.gapBetweenCars g' <= 360.
Proof.
  intros Hs [_ _ (Hmin & Hstep & Hfloor) _] Hg. destruct Hs.
  - unfold gameLoop. cbv zeta.
    match goal with
    | |- Game.gapBetweenCars (checkParking ?a ?b (updateCar ?dt ?n1 ?n2 ?n3 ?g0)) <= _ =>
        destruct (updateCar_level dt n1 n2 n3 g0) as (Eg & Em & Es & _);
        destruct (latchWin_level a (updateCar dt n1 n2 n3 g0)) as (Eg' & Em' & Es' & _);
        destruct (checkParking_cases a b (updateCar dt n1 n2 n3 g0)) as [[-> _]|[-> _]]
    end.
    + rewrite Eg', Eg. exact Hg.
    + change (Rmax (Game.minGap (latchWin (Clock.latch k) (updateCar (frameDelta timestampMs g)
                       (Clock.flash k) (Clock.hit k) (Clock.bounce k)
                       (Game.set_lastFrameAtMs (Some timestampMs) g))))
                (Game.gapBetweenCars (latchWin (Clock.latch k) (updateCar (frameDelta timestampMs g)
                       (Clock.flash k) (Clock.hit k) (Clock.bounce k)
                       (Game.set_lastFrameAtMs (Some timestampMs) g))) -
                 Game.gapStep (latchWin (Clock.latch k) (updateCar (frameDelta timestampMs g)
                       (Clock.flash k) (Clock.hit k) (Clock.bounce k)
                       (Game.set_lastFrameAtMs (Some timestampMs) g)))) <= 360).
      rewrite Em', Eg', Es', Em, Eg, Es.
      change (Rmax (Game.minGap g) (Game.gapBetweenCars g - Game.gapStep g) <= 360).
      rewrite Hmin, Hstep. apply Rmax_lub; lra.
  - destruct code; exact Hg.
  - destruct code; exact Hg.
  - unfold mousedown. destruct (isPointerOnCar x y g); exact Hg.
  - unfold mousemove. destruct (negb _); exact Hg.
  - exact Hg.
  - change (value <= 360). lra.
Qed.

Lemma reachable_gap_ceiling (W H : R) (g : Game.t) :
  reachable W H g -> Game.gapBetweenCars g <= 360.
Proof.
  induction 1 as [|g g' Hr IH Hs].
  - change (200 <= 360). lra.
  - apply (step_gap_ceiling g g' Hs); [now apply (reachable_inv W H)|exact IH].
Qed.

(** Where the start pose is, in a laid out state. *)
Lemma spawn_on_canvas (W H : R) (g : Game.t) :
  650 <= W -> 200 <= H ->
  laidOut W H g -> 0 <= Game.gapBetweenCars g <= 360 ->
  onCanvas W H (Game.car (setInitialCarPosition g)).
Proof.
  intros HW HH (Hf & Hb & _) Hg.
  injection Hf as _ _ Hcx Hcy _ _ Hoff Hlane _ _ _ _.
  injection Hb as Hw Hh _ _ _.
  unfold onCanvas.
  change (Car.x (Game.car (setInitialCarPosition g)))
    with (Game.centerX g - (Game.gapBetweenCars g / 2 + Car.width (Game.car g)) - 100).
  change (Car.y (Game.car (setInitialCarPosition g)))
    with (Game.centerY g + Game.curbOffsetY g - Game.laneGapFromCurb g
          - Car.height (Game.car g) - 50).
  rewrite Hcx, Hcy, Hoff, Hlane, Hw, Hh. lra.
Qed.

(** A tick puts or keeps the car in the band. *)
Lemma updateCar_onCanvas (W H dt n1 n2 n3 : R) (g : Game.t) :
  90 <= W -> 90 <= H -> laidOut W H g ->
  onCanvas W H (Game.car g) ->
  onCanvas W H (Game.car (updateCar dt n1 n2 n3 g)).
Proof.
  intros HW HH (Hf & Hb & _) Hon.
  injection Hf as EW EH _ _ _ _ _ _ _ _ _ _.
  injection Hb as Ew _ _ _ _.
  destruct (Game.winResetAtMs g) eqn:Er.
  { unfold updateCar. rewrite Er. exact Hon. }
  destruct (Game.isDragging g) eqn:Ed.
  { unfold updateCar. rewrite Er, Ed. cbv zeta. unfold onCanvas.
    change (Car.x (Game.car (Game.set_car (Car.set_collided false ?c) g)))
      with (Car.x c).
    destruct Hon as [Hx Hy]. unfold onCanvas.
    cbn [Game.car Game.set_car Car.x Car.y Car.set_collided Car.set_y Car.set_x].
    change (Car.x (Car.set_speed 0 (Game.car g))) with (Car.x (Game.car g)).
    change (Car.y (Car.set_x ?v (Car.set_speed 0 (Game.car g))))
      with (Car.y (Game.car g)).
    rewrite EW, EH. unfold clamp45. split_minmax; lra. }
  rewrite updateCar_physics by assumption.
  set (g2 := resolveCollision (Car.x (Game.car g)) (Car.y (Game.car g)) n1 n2
               (integrate dt g)).
  destruct (resolveCollision_frame (Car.x (Game.car g)) (Car.y (Game.car g)) n1 n2
              (integrate dt g)) as (Fw & FW & FH).
  destruct (integrate_frame dt g) as (Iw & IW & IH).
  fold g2 in Fw, FW, FH.
  rewrite Iw, Ew in Fw. rewrite IW, EW in FW. rewrite IH, EH in FH.
  destruct (boundary_then_bounce dt n3 W H 90 g2 FW FH Fw ltac:(lra) HH ltac:(lra))
    as (_ & _ & _ & _ & Hx & Hy).
  unfold onCanvas. split; [lra|exact Hy].
Qed.

Lemma nextLevel_onCanvas (W H : R) (g : Game.t) :
  650 <= W -> 200 <= H ->
  laidOut W H g -> Game.minGap g = 60 -> Game.gapStep g = 20 ->
  Game.gapBetweenCars g <= 360 ->
  onCanvas W H (Game.car (nextLevel g)).
Proof.
  intros HW HH Hl Hmin Hstep Hg.
  assert (laidOut W H (Game.set_winCount (Game.winCount g + 1) g)) as Hl1 by exact Hl.
  destruct (relayout W H
              (Rmax (Game.minGap g) (Game.gapBetweenCars g - Game.gapStep g))
              _ Hl1) as (Hl2 & Eg & _).
  revert Hl2 Eg.
  change (Game.car (nextLevel g))
    with (Game.car (setInitialCarPosition
            (recomputeParkingLayout
               (Game.set_gapBetweenCars
                  (Rmax (Game.minGap g) (Game.gapBetweenCars g - Game.gapStep g))
                  (Game.set_winCount (Game.winCount g + 1) g))))).
  generalize (recomputeParkingLayout
               (Game.set_gapBetweenCars
                  (Rmax (Game.minGap g) (Game.gapBetweenCars g - Game.gapStep g))
                  (Game.set_winCount (Game.winCount g + 1) g))) as g2.
  intros g2 Hl2 Eg.
  apply spawn_on_canvas; try assumption.
  rewrite Eg, Hmin, Hstep. split_minmax; lra.
Qed.

Lemma step_onCanvas (W H : R) (g g' : Game.t) :
  650 <= W -> 200 <= H ->
  step g g' -> Inv g -> laidOut W H g -> Game.gapBetweenCars g <= 360 ->
  onCanvas W H (Game.car g) -> onCanvas W H (Game.car g').
Proof.
  intros HW HH Hs [_ _ (Hmin & Hstep & _) _] Hl Hg Hon. destruct Hs.
  - unfold gameLoop. cbv zeta.
    set (g0 := Game.set_lastFrameAtMs (Some timestampMs) g).
    assert (laidOut W H g0) as Hl0 by exact Hl.
    pose proof (updateCar_onCanvas W H (frameDelta timestampMs g) (Clock.flash k)
                  (Clock.hit k) (Clock.bounce k) g0 ltac:(lra) ltac:(lra) Hl0 Hon) as Hon1.
    destruct (updateCar_level (frameDelta timestampMs g) (Clock.flash k)
                (Clock.hit k) (Clock.bounce k) g0) as (Eg & Em & Es & _).
    destruct (updateCar_frame (frameDelta timestampMs g) (Clock.flash k)
                (Clock.hit k) (Clock.bounce k) g0) as (Ef & El & Eb).
    revert Hon1 Eg Em Es Ef El Eb.
    generalize (updateCar (frameDelta timestampMs g) (Clock.flash k)
                  (Clock.hit k) (Clock.bounce k) g0) as g1.
    intros g1 Hon1 Eg Em Es Ef El Eb.
    destruct (latchWin_level (Clock.latch k) g1) as (Eg' & Em' & Es' & _).
    destruct (latchWin_frame (Clock.latch k) g1) as (Ef' & El' & Ec').
    destruct (checkParking_cases (Clock.latch k) (Clock.timer k) g1) as [[-> _]|[-> _]].
    + rewrite Ec'. exact Hon1.
    + apply nextLevel_onCanvas; try assumption.
      * destruct Hl0 as (Hf0 & Hb0 & Hlay0).
        unfold laidOut. rewrite Ef', Ef, Ec', Eb, El', El, Eg', Eg.
        repeat split; assumption.
      * rewrite Em', Em. exact Hmin.
      * rewrite Es', Es. exact Hstep.
      * rewrite Eg', Eg. exact Hg.
  - destruct code; exact Hon.
  - destruct code; exact Hon.
  - unfold mousedown. destruct (isPointerOnCar x y g); exact Hon.
  - unfold mousemove. destruct (negb _); [exact Hon|]. cbv zeta.
    destruct Hl as (Hf & _). injection Hf as EW EH _ _ _ _ _ _ _ _ _ _.
    unfold onCanvas.
    cbn [Game.car Game.set_car Car.x Car.y Car.set_collided Car.set_y Car.set_x].
    rewrite EW, EH. unfold clamp45. split_minmax; lra.
  - exact Hon.
  - exact Hon.
Qed.

(** X26.  On a canvas at least 650 wide and 200 high the car never leaves
    the canvas band: in every reachable state its centre is at most 45
    pixels beyond the left and right edges and at least 45 pixels inside the
    top and bottom edges. *)
Theorem car_stays_on_canvas (W H : R) (g : Game.t) :
  650 <= W -> 200 <= H ->
  reachable W H g ->
  -45 <= Car.x (Game.car g) <= W + 45 /\ 45 <= Car.y (Game.car g) <= H - 45.
Proof.
  intros HW HH Hr. change (onCanvas W H (Game.car g)).
  induction Hr as [|g g' Hr IH Hs].
  - unfold onCanvas.
    change (Car.x (Game.car (newGame W H))) with (W / 2 - (200 / 2 + 90) - 100).
    change (Car.y (Game.car (newGame W H))) with (H / 2 + 160 - 10 - 45 - 50).
    lra.
  - apply (step_onCanvas W H g g'); try assumption.
    + now apply (reachable_inv W H).
    + now apply reachable_laidOut.
    + now apply (reachable_gap_ceiling W H).
Qed.

Lemma car_stays_on_canvas_witness :
  -45 <= Car.x (Game.car droppedInSpace) <= 800 + 45 /\
  45 <= Car.y (Game.car droppedInSpace) <= 600 - 45.
Proof.
  apply (car_stays_on_canvas 800 600 droppedInSpace); try lra.
  apply droppedInSpace_reachable.
Defined.

(** ** Cars side by side *)

Lemma footprint_axes (x y : R) : getAxes (footprint x y) = octAxes.
Proof.
  unfold footprint. rewrite car_footprint. unfold octAxes. rewrite getAxes8.
  repeat (apply f_equal2; [|try reflexivity]).
  - apply (edgeAxis_eval _ _ 74); cbn; lra.
  - apply (edgeAxis_eval _ _ 10); cbn; lra.
  - apply (edgeAxis_eval _ _ 33); cbn; lra.
  - apply (edgeAxis_eval _ _ 10); cbn; lra.
  - apply (edgeAxis_eval _ _ 74); cbn; lra.
  - apply (edgeAxis_eval _ _ 10); cbn; lra.
  - apply (edgeAxis_eval _ _ 33); cbn; lra.
  - apply (edgeAxis_eval _ _ 10); cbn; lra.
Qed.

(** The footprint's shadow on each of its axes: the centre's, 22.5, 40.2 or
    45 either way. *)
Lemma footprint_shadows (x y : R) :
  let P := footprint x y in
  projectPointsOnAxis P (Pt.mk 0 1) = (Fin (y - 45 / 2), Fin (y + 45 / 2)) /\
  projectPointsOnAxis P (Pt.mk (-3 / 5) (4 / 5)) =
    (Fin (-3 / 5 * x + 4 / 5 * y - 201 / 5), Fin (-3 / 5 * x + 4 / 5 * y + 201 / 5)) /\
  projectPointsOnAxis P (Pt.mk (-1) 0) = (Fin (- x - 45), Fin (- x + 45)) /\
  projectPointsOnAxis P (Pt.mk (-3 / 5) (-4 / 5)) =
    (Fin (-3 / 5 * x - 4 / 5 * y - 201 / 5), Fin (-3 / 5 * x - 4 / 5 * y + 201 / 5)) /\
  projectPointsOnAxis P (Pt.mk 0 (-1)) = (Fin (- y - 45 / 2), Fin (- y + 45 / 2)) /\
  projectPointsOnAxis P (Pt.mk (3 / 5) (-4 / 5)) =
    (Fin (3 / 5 * x - 4 / 5 * y - 201 / 5), Fin (3 / 5 * x - 4 / 5 * y + 201 / 5)) /\
  projectPointsOnAxis P (Pt.mk 1 0) = (Fin (x - 45), Fin (x + 45)) /\
  projectPointsOnAxis P (Pt.mk (3 / 5) (4 / 5)) =
    (Fin (3 / 5 * x + 4 / 5 * y - 201 / 5), Fin (3 / 5 * x + 4 / 5 * y + 201 / 5)).
Proof.
  cbv zeta. unfold footprint. rewrite car_footprint. repeat split.
  - eval_proj (y - 45 / 2) (y + 45 / 2).
  - eval_proj (-3 / 5 * x + 4 / 5 * y - 201 / 5) (-3 / 5 * x + 4 / 5 * y + 201 / 5).
  - eval_proj (- x - 45) (- x + 45).
  - eval_proj (-3 / 5 * x - 4 / 5 * y - 201 / 5) (-3 / 5 * x - 4 / 5 * y + 201 / 5).
  - eval_proj (- y - 45 / 2) (- y + 45 / 2).
  - eval_proj (3 / 5 * x - 4 / 5 * y - 201 / 5) (3 / 5 * x - 4 / 5 * y + 201 / 5).
  - eval_proj (x - 45) (x + 45).
  - eval_proj (3 / 5 * x + 4 / 5 * y - 201 / 5) (3 / 5 * x + 4 / 5 * y + 201 / 5).
Qed.

(** Overlap of two intervals of the same half length. *)
Lemma same_length_overlap (c c' r : R) :
  Rmin (c + r) (c' + r) - Rmax (c - r) (c' - r) = 2 * r - Rabs (c' - c).
Proof. unfold Rabs. destruct (Rcase_abs _); split_minmax; lra. Qed.

Lemma footprint_overlaps (x y x' y' : R) :
  let dx := x' - x in
  let dy := y' - y in
  Forall2 (fun axis o => overlapOn (footprint x y) (footprint x' y') axis = Fin o)
    octAxes
    [45 - Rabs dy; 402 / 5 - Rabs (-3 / 5 * dx + 4 / 5 * dy); 90 - Rabs dx;
     402 / 5 - Rabs (3 / 5 * dx + 4 / 5 * dy); 45 - Rabs dy;
     402 / 5 - Rabs (-3 / 5 * dx + 4 / 5 * dy); 90 - Rabs dx;
     402 / 5 - Rabs (3 / 5 * dx + 4 / 5 * dy)].
Proof.
  cbv zeta.
  destruct (footprint_shadows x y) as (A0 & A1 & A2 & A3 & A4 & A5 & A6 & A7).
  destruct (footprint_shadows x' y') as (B0 & B1 & B2 & B3 & B4 & B5 & B6 & B7).
  cbv zeta in *. unfold octAxes.
  repeat constructor.
  - eapply overlap_eval; [exact A0|exact B0|].
    replace (y - 45 / 2) with (y - 45 / 2) by lra.
    rewrite (same_length_overlap y y' (45 / 2)). lra.
  - eapply overlap_eval; [exact A1|exact B1|].
    rewrite same_length_overlap. f_equal; [lra|f_equal; lra].
  - eapply overlap_eval; [exact A2|exact B2|].
    rewrite same_length_overlap.
    replace (- x' - - x) with (- (x' - x)) by lra. rewrite Rabs_Ropp. lra.
  - eapply overlap_eval; [exact A3|exact B3|].
    rewrite same_length_overlap.
    replace (-3 / 5 * x' - 4 / 5 * y' - (-3 / 5 * x - 4 / 5 * y))
      with (- (3 / 5 * (x' - x) + 4 / 5 * (y' - y))) by lra.
    rewrite Rabs_Ropp. lra.
  - eapply overlap_eval; [exact A4|exact B4|].
    rewrite same_length_overlap.
    replace (- y' - - y) with (- (y' - y)) by lra. rewrite Rabs_Ropp. lra.
  - eapply overlap_eval; [exact A5|exact B5|].
    rewrite same_length_overlap.
    replace (3 / 5 * x' - 4 / 5 * y' - (3 / 5 * x - 4 / 5 * y))
      with (- (-3 / 5 * (x' - x) + 4 / 5 * (y' - y))) by lra.
    rewrite Rabs_Ropp. lra.
  - eapply overlap_eval; [exact A6|exact B6|].
    rewrite same_length_overlap. lra.
  - eapply overlap_eval; [exact A7|exact B7|].
    rewrite same_length_overlap. f_equal; [lra|f_equal; lra].
Qed.

(** When two cars at heading 0 overlap. *)
Lemma footprints_collide (x y x' y' : R) :
  Hit.collides (polygonCollisionMTV (footprint x y) (footprint x' y')) = true <->
  Rabs (x' - x) < 90 /\ Rabs (y' - y) < 45 /\
  Rabs (-3 / 5 * (x' - x) + 4 / 5 * (y' - y)) < 402 / 5 /\
  Rabs (3 / 5 * (x' - x) + 4 / 5 * (y' - y)) < 402 / 5.
Proof.
  rewrite mtv_collides_iff, !footprint_axes.
  pose proof (footprint_overlaps x y x' y') as H. cbv zeta in H.
  unfold octAxes in *.
  repeat match type of H with
         | Forall2 _ (_ :: _) _ =>
             let E := fresh "E" in
             apply Forall2_cons_iff in H; destruct H as [E H]
         end.
  clear H. split.
  - intros Hall.
    assert (forall axis o,
              overlapOn (footprint x y) (footprint x' y') axis = Fin o ->
              In axis
                [Pt.mk 0 1; Pt.mk (-3 / 5) (4 / 5); Pt.mk (-1) 0; Pt.mk (-3 / 5) (-4 / 5)] ->
              0 < o) as Hpos.
    { intros axis o Eo Hin.
      assert (num_le (overlapOn (footprint x y) (footprint x' y') axis) (Fin 0) = false)
        as Hle by (apply Hall; cbn [app In] in *; tauto).
      rewrite Eo in Hle. cbn in Hle. now apply Rleb_false in Hle. }
    pose proof (Hpos _ _ E ltac:(cbn [In]; tauto)) as H0.
    pose proof (Hpos _ _ E0 ltac:(cbn [In]; tauto)) as H1.
    pose proof (Hpos _ _ E1 ltac:(cbn [In]; tauto)) as H2.
    pose proof (Hpos _ _ E2 ltac:(cbn [In]; tauto)) as H3.
    repeat split; lra.
  - intros (Hx & Hy & Hd1 & Hd2) axis Hin.
    cbn [app In] in Hin.
    repeat (destruct Hin as [<-|Hin];
            [match goal with
             | Eo : overlapOn _ _ ?a = Fin _ |- num_le (overlapOn _ _ ?a) _ = _ =>
                 rewrite Eo; cbn [num_le]; apply Rleb_false; lra
             end|]).
    contradiction.
Qed.

(** X27.  Two cars of the game's size at heading 0 are reported colliding
    exactly when their centres are less than 90 apart in x, less than 45
    apart in y, and less than 80.4 apart along both chamfer normals
    (3/5, 4/5) and (-3/5, 4/5); touching does not count. *)
Theorem cars_at_heading_zero_collide_iff (x y x' y' : R) :
  let dx := x' - x in
  let dy := y' - y in
  Hit.collides (polygonCollisionMTV (footprint x y) (footprint x' y')) =
  Rltb (Rabs dx) 90 && Rltb (Rabs dy) 45 &&
  Rltb (Rabs (-3 / 5 * dx + 4 / 5 * dy)) (402 / 5) &&
  Rltb (Rabs (3 / 5 * dx + 4 / 5 * dy)) (402 / 5).
Proof.
  cbv zeta. apply eq_true_iff_eq. rewrite footprints_collide.
  rewrite !andb_true_iff, !Rltb_true. tauto.
Qed.

(** A hit on a parked car is reported. *)
Lemma parked_hit_reported (g : Game.t) (p : Npc.t) :
  In p (parkedCarList g) ->
  Hit.collides (polygonCollisionMTV (playerPolygon (Game.car g)) (npcPolygon p)) = true ->
  fst (checkCollisions g) = true.
Proof.
  intros Hin Hc.
  destruct (checkCollisions_outcome g) as [(_ & _ & Hno & _)|(_ & _ & Hhit & _)];
    [|exact Hhit].
  rewrite (Hno p Hin) in Hc. discriminate.
Qed.

(** X28.  A gap below 90 pixels cannot be parked in without contact: in a
    reachable state with such a gap, a car at heading 0 whose centre is in
    the target space is always reported colliding. *)
Theorem tight_gap_forces_contact (W H : R) (g : Game.t) :
  reachable W H g ->
  Game.gapBetweenCars g < 90 ->
  Car.angle (Game.car g) = 0 -> inSpace g = true ->
  fst (checkCollisions g) = true.
Proof.
  intros Hr Hgap Ha Hin.
  destruct (reachable_laidOut W H g Hr) as (_ & Hb & Hl).
  destruct (reachable_inv W H g Hr) as [_ _ (Hmin & _ & Hfloor) _].
  injection Hb as Hw Hh _ Hix Hiy.
  unfold layout, laneFor in Hl. injection Hl as Hcars Hspace.
  unfold inSpace in Hin. cbv zeta in Hin. rewrite Hspace in Hin.
  cbn [Space.x Space.y Space.width Space.height] in Hin.
  apply andb_true_iff in Hin as [Hin Hy2]. apply andb_true_iff in Hin as [Hin Hy1].
  apply andb_true_iff in Hin as [Hx1 Hx2].
  apply Rltb_true in Hx1, Hx2, Hy1, Hy2.
  assert (playerPolygon (Game.car g) =
          footprint (Car.x (Game.car g)) (Car.y (Game.car g))) as EP
      by (unfold playerPolygon, footprint; now rewrite Hw, Hh, Ha, Hix, Hiy).
  set (x := Car.x (Game.car g)) in *. set (y := Car.y (Game.car g)) in *.
  set (gap := Game.gapBetweenCars g) in *.
  destruct (Rle_dec x (W / 2)) as [Hleft|Hright].
  - apply (parked_hit_reported g (fst (Game.parkedCars g))); [now left|].
    rewrite EP, Hcars. cbn [fst].
    change (npcPolygon (Npc.mk (W / 2 - (gap + 90) / 2) (H / 2 + 120) 90 45 0 8 6))
      with (footprint (W / 2 - (gap + 90) / 2) (H / 2 + 120)).
    apply footprints_collide.
    repeat split; apply Rabs_def1; lra.
  - apply (parked_hit_reported g (snd (Game.parkedCars g))); [right; now left|].
    rewrite EP, Hcars. cbn [snd].
    change (npcPolygon (Npc.mk (W / 2 + (gap + 90) / 2) (H / 2 + 120) 90 45 0 8 6))
      with (footprint (W / 2 + (gap + 90) / 2) (H / 2 + 120)).
    apply footprints_collide.
    repeat split; apply Rabs_def1; lra.
Qed.

Lemma pointer_on_spawned_car (g : Game.t) :
  Game.car g = moved 110 355 initialCar -> isPointerOnCar 110 355 g = true.
Proof.
  intros Hc. unfold isPointerOnCar. rewrite Hc.
  change (playerPolygon (moved 110 355 initialCar))
    with (getChamferedRectPolygon 110 355 90 45 0 8 6).
  rewrite car_footprint. unfold pointInPolygon.
  cbn [length seq fold_left nth Nat.sub Pt.x Pt.y].
  eval_cmp. reflexivity.
Qed.

Lemma slid_car : Game.car (sliderInput 60 (newGame 800 600)) = moved 110 355 initialCar.
Proof.
  destruct (relayout 800 600 60 (newGame 800 600) (newGame_laidOut 800 600))
    as (_ & _ & Ec).
  unfold sliderInput. rewrite Ec. apply newGame_car.
Qed.

Lemma squeezedIn_state :
  squeezedIn =
  Game.set_car (moved 400 420 initialCar) (sliderInput 60 (newGame 800 600)).
Proof.
  apply drag_by_centre; try reflexivity; try lra.
  - apply pointer_on_spawned_car, slid_car.
  - apply slid_car.
Qed.

Lemma squeezedIn_reachable : reachable 800 600 squeezedIn.
Proof.
  unfold squeezedIn.
  eapply reach_step;
    [eapply reach_step;
     [eapply reach_step; [eapply reach_step; [apply reach_new|]|]|]|].
  - apply (step_slider 60). lra.
  - apply step_mousedown.
  - apply step_mousemove.
  - apply step_endDrag.
Qed.

Lemma set_car_fields (c : Car.t) (g : Game.t) :
  Game.car (Game.set_car c g) = c /\
  Game.parkingSpace (Game.set_car c g) = Game.parkingSpace g /\
  Game.gapBetweenCars (Game.set_car c g) = Game.gapBetweenCars g.
Proof. repeat split. Qed.

Lemma squeezedIn_lane :
  Game.car squeezedIn = moved 400 420 initialCar /\
  Game.parkingSpace squeezedIn = Space.mk (800 / 2) (600 / 2 + 120) 60 60 /\
  Game.gapBetweenCars squeezedIn = 60.
Proof.
  destruct (relayout 800 600 60 (newGame 800 600) (newGame_laidOut 800 600))
    as ((_ & _ & Hl) & Eg & _).
  unfold layout, laneFor in Hl. rewrite Eg in Hl.
  apply (f_equal (fun t => snd (fst t))) in Hl. cbn [fst snd] in Hl.
  rewrite squeezedIn_state.
  destruct (set_car_fields (moved 400 420 initialCar)
              (sliderInput 60 (newGame 800 600))) as (-> & -> & ->).
  unfold sliderInput. rewrite Hl, Eg. repeat split.
Qed.

Lemma squeezedIn_inSpace : inSpace squeezedIn = true.
Proof.
  destruct squeezedIn_lane as (Ec & Es & _).
  unfold inSpace. cbv zeta. rewrite Ec, Es.
  cbn [Space.x Space.y Space.width Space.height].
  change (Car.x (moved 400 420 initialCar)) with 400.
  change (Car.y (moved 400 420 initialCar)) with 420.
  eval_cmp. reflexivity.
Qed.

Lemma tight_gap_forces_contact_witness : fst (checkCollisions squeezedIn) = true.
Proof.
  destruct squeezedIn_lane as (Ec & _ & Eg).
  apply (tight_gap_forces_contact 800 600 squeezedIn).
  - apply squeezedIn_reachable.
  - rewrite Eg. lra.
  - rewrite Ec. reflexivity.
  - apply squeezedIn_inSpace.
Defined.

(** ** Moving both polygons *)

Lemma edgeAxis_translate (t p1 p2 : Pt.t) :
  edgeAxis (Pt.mk (Pt.x p1 + Pt.x t) (Pt.y p1 + Pt.y t))
           (Pt.mk (Pt.x p2 + Pt.x t) (Pt.y p2 + Pt.y t)) = edgeAxis p1 p2.
Proof. apply (edgeAxis_scale _ _ _ _ 1); cbn [Pt.x Pt.y]; lra. Qed.

Lemma getAxes_translate (t : Pt.t) (points : polygon) :
  getAxes (translate t points) = getAxes points.
Proof.
  unfold getAxes, translate. rewrite length_map.
  apply map_ext_in. intros i Hi. apply in_seq in Hi.
  set (f := fun p => Pt.mk (Pt.x p + Pt.x t) (Pt.y p + Pt.y t)).
  assert (forall j, (j < length points)%nat ->
            nth j (map f points) origin = f (nth j points origin)) as Hnth.
  { intros j Hj. rewrite (nth_indep _ origin (f origin)) by now rewrite length_map.
    apply map_nth. }
  rewrite !Hnth; [apply edgeAxis_translate| |lia].
  apply Nat.mod_upper_bound. lia.
Qed.

Lemma project_translate (t axis : Pt.t) (points : polygon) (m M : R) :
  projectPointsOnAxis points axis = (Fin m, Fin M) ->
  projectPointsOnAxis (translate t points) axis =
  (Fin (m + dot t axis), Fin (M + dot t axis)).
Proof.
  intros E.
  assert (points <> []) as Hne.
  { intros ->. rewrite project_empty in E. discriminate. }
  destruct (project_nonempty axis points Hne)
    as (m' & M' & E' & _ & Hb & (q1 & Hq1 & E1) & (q2 & Hq2 & E2)).
  rewrite E in E'. injection E' as <- <-.
  assert (forall q, dot (Pt.mk (Pt.x q + Pt.x t) (Pt.y q + Pt.y t)) axis =
                    dot q axis + dot t axis) as Hdot
      by (intros q; unfold dot; cbn [Pt.x Pt.y]; ring).
  apply project_eval.
  - intros q Hq. unfold translate in Hq. apply in_map_iff in Hq as (p & <- & Hp).
    rewrite Hdot. specialize (Hb p Hp). lra.
  - exists (Pt.mk (Pt.x q1 + Pt.x t) (Pt.y q1 + Pt.y t)). split.
    + unfold translate. apply in_map_iff. now exists q1.
    + rewrite Hdot. lra.
  - exists (Pt.mk (Pt.x q2 + Pt.x t) (Pt.y q2 + Pt.y t)). split.
    + unfold translate. apply in_map_iff. now exists q2.
    + rewrite Hdot. lra.
Qed.

Lemma overlapOn_translate (t axis : Pt.t) (A B : polygon) :
  A <> [] -> B <> [] ->
  overlapOn (translate t A) (translate t B) axis = overlapOn A B axis.
Proof.
  intros HA HB.
  destruct (overlap_nonempty A B axis HA HB)
    as (mA & MA & mB & MB & EA & EB & _ & _ & -> & _).
  apply (overlap_eval _ _ _ _ _ _ _ _ (project_translate t axis A _ _ EA)
           (project_translate t axis B _ _ EB)).
  split_minmax; lra.
Qed.

Lemma center_translate (t : Pt.t) (points : polygon) :
  points <> [] ->
  getPolygonCenter (translate t points) =
  Pt.mk (Pt.x (getPolygonCenter points) + Pt.x t)
        (Pt.y (getPolygonCenter points) + Pt.y t).
Proof.
  intros Hne.
  assert (translate t points <> []) as Hne'
      by (destruct points; [easy|discriminate]).
  rewrite !getPolygonCenter_mean by assumption.
  unfold translate. rewrite length_map. cbn [Pt.x Pt.y].
  assert (0 < INR (length points)) as Hn.
  { destruct points as [|p l]; [easy|]. cbn [length]. rewrite S_INR.
    pose proof (pos_INR (length l)). lra. }
  assert (forall l, sumX (map (fun p => Pt.mk (Pt.x p + Pt.x t) (Pt.y p + Pt.y t)) l) =
                    sumX l + INR (length l) * Pt.x t) as HX.
  { induction l as [|p l IH]; [cbn; ring|].
    cbn [map length]. rewrite S_INR. unfold sumX in *. cbn [fold_right Pt.x].
    rewrite IH. ring. }
  assert (forall l, sumY (map (fun p => Pt.mk (Pt.x p + Pt.x t) (Pt.y p + Pt.y t)) l) =
                    sumY l + INR (length l) * Pt.y t) as HY.
  { induction l as [|p l IH]; [cbn; ring|].
    cbn [map length]. rewrite S_INR. unfold sumY in *. cbn [fold_right Pt.y].
    rewrite IH. ring. }
  rewrite HX, HY. f_equal; field; lra.
Qed.

Lemma orient_same_delta (cA cB cA' cB' axis : Pt.t) :
  Pt.x cB' - Pt.x cA' = Pt.x cB - Pt.x cA ->
  Pt.y cB' - Pt.y cA' = Pt.y cB - Pt.y cA ->
  orient cA' cB' axis = orient cA cB axis.
Proof. intros Ex Ey. unfold orient. cbn [Pt.x Pt.y]. now rewrite Ex, Ey. Qed.

(** The loop depends on the polygons through the overlaps and on the centres
    through the orientation only. *)
Lemma mtvLoop_ext (A B A' B' : polygon) (cA cB cA' cB' : Pt.t)
    (axes : list Pt.t) (best : option (R * Pt.t)) :
  (forall axis, overlapOn A' B' axis = overlapOn A B axis) ->
  (forall axis, orient cA' cB' axis = orient cA cB axis) ->
  mtvLoop A' B' cA' cB' axes best = mtvLoop A B cA cB axes best.
Proof.
  intros Ho Hd. revert best.
  induction axes as [|a axes IH]; intros best; [reflexivity|].
  cbn [mtvLoop]. rewrite Ho, Hd.
  destruct (num_le _ _); [reflexivity|].
  destruct (overlapOn A B a); try apply IH.
  destruct best as [[s b]|]; [destruct (Rltb r s)|]; apply IH.
Qed.

Lemma placed_shapes_translate (t : Pt.t) (cx cy w h a ix iy : R) :
  getRectangleCorners (cx + Pt.x t) (cy + Pt.y t) w h a =
    translate t (getRectangleCorners cx cy w h a) /\
  getChamferedRectPolygon (cx + Pt.x t) (cy + Pt.y t) w h a ix iy =
    translate t (getChamferedRectPolygon cx cy w h a ix iy).
Proof.
  unfold getRectangleCorners, getChamferedRectPolygon, translate. cbv zeta.
  rewrite !map_map. split; apply map_ext; intros p; unfold place;
    cbn [Pt.x Pt.y]; f_equal; ring.
Qed.

(** X29.  The collision tests see relative positions only: moving two
    non-empty polygons by the same vector changes neither the answer of
    [polygonCollision] nor the result of [polygonCollisionMTV], vector
    included; and moving the centre of a placed rectangle or chamfered
    polygon moves its vertices by the same vector. *)
Theorem collision_tests_ignore_common_shift (t : Pt.t) (A B : polygon) :
  A <> [] -> B <> [] ->
  polygonCollision (translate t A) (translate t B) = polygonCollision A B /\
  polygonCollisionMTV (translate t A) (translate t B) = polygonCollisionMTV A B /\
  forall cx cy w h a ix iy,
    getRectangleCorners (cx + Pt.x t) (cy + Pt.y t) w h a =
      translate t (getRectangleCorners cx cy w h a) /\
    getChamferedRectPolygon (cx + Pt.x t) (cy + Pt.y t) w h a ix iy =
      translate t (getChamferedRectPolygon cx cy w h a ix iy).
Proof.
  intros HA HB. split; [|split].
  - apply eq_true_iff_eq. rewrite !polygonCollision_true, !getAxes_translate.
    split; intros Hall axis Hin; specialize (Hall axis Hin);
      rewrite separated_negative in *;
      [rewrite <- (overlapOn_translate t axis A B HA HB)
      |rewrite (overlapOn_translate t axis A B HA HB)]; exact Hall.
  - unfold polygonCollisionMTV. rewrite !getAxes_translate.
    apply mtvLoop_ext.
    + intros axis. now apply overlapOn_translate.
    + intros axis. rewrite !center_translate by assumption.
      apply orient_same_delta; cbn [Pt.x Pt.y]; ring.
  - intros. apply placed_shapes_translate.
Qed.

Lemma collision_tests_ignore_common_shift_witness :
  let t := Pt.mk 5 7 in
  polygonCollision (translate t (square 0)) (translate t (square 1)) =
    polygonCollision (square 0) (square 1) /\
  polygonCollisionMTV (translate t (square 0)) (translate t (square 1)) =
    polygonCollisionMTV (square 0) (square 1) /\
  forall cx cy w h a ix iy,
    getRectangleCorners (cx + Pt.x t) (cy + Pt.y t) w h a =
      translate t (getRectangleCorners cx cy w h a) /\
    getChamferedRectPolygon (cx + Pt.x t) (cy + Pt.y t) w h a ix iy =
      translate t (getChamferedRectPolygon cx cy w h a ix iy).
Proof.
  apply (collision_tests_ignore_common_shift (Pt.mk 5 7) (square 0) (square 1));
    rewrite square_points; discriminate.
Defined.
